(** * orphanage.js: finding and removing orphaned documents

    A shallow embedding of [src/orphanage/orphanage.js] (the [Shard] and
    [Orphans] objects and the cursor object that [Orphans.find] returns),
    followed by the properties of the scan, of the cursor and of the
    removal loop.

    The script runs in the mongo shell against a sharded cluster.  The
    cluster and the shell are modelled by one record, [Shell], that the
    script's commands read and update; a command that can raise a JavaScript
    exception ([assert], a property read on [undefined]) yields [Throw]. *)

From stdpp Require Import base option list gmap strings sorting.
From Stdlib Require Import ZArith Lia.

Local Open Scope Z_scope.

(** ** Shard keys and documents *)

(** Shard-key bounds as the shell sees them.  [BEmpty] is the empty document
    [{}] that [maxRange] and [lastMin] start from; the others are documents
    over a single key field holding MinKey, a number, or MaxKey. *)
Inductive bson : Type :=
  | BEmpty
  | BMinKey
  | BNum (z : Z)
  | BMaxKey.

Definition bson_rank (b : bson) : Z :=
  match b with
  | BEmpty => 0
  | BMinKey => 1
  | BNum _ => 2
  | BMaxKey => 3
  end.

Definition sign_of (c : comparison) : Z :=
  match c with
  | Lt => -1
  | Eq => 0
  | Gt => 1
  end.

(** The shell's [bsonWoCompare]: negative, zero or positive.  The empty
    document sorts before every other one. *)
Definition bsonWoCompare (a b : bson) : Z :=
  match a, b with
  | BNum x, BNum y => sign_of (x ?= y)
  | _, _ => sign_of (bson_rank a ?= bson_rank b)
  end.

Record doc : Type := Doc {
  doc_id : Z;
  doc_key : bson
}.

(** A document of [config.chunks], together with the four properties the
    script adds to it.  A property the script has not set yet is
    [undefined]: [None] here, and [false] for the flag [removed], which is
    only ever tested for truth. *)
Record chunk : Type := Chunk {
  chunk_id : string;
  chunk_ns : string;
  chunk_min : bson;
  chunk_max : bson;
  chunk_shard : string;
  orphanedOn : option string;
  orphanCount : option Z;
  removed : bool;
  numRemoved : option Z
}.

Definition set_orphan (shard : string) (n : Z) (c : chunk) : chunk :=
  Chunk (chunk_id c) (chunk_ns c) (chunk_min c) (chunk_max c) (chunk_shard c)
        (Some shard) (Some n) (removed c) (numRemoved c).

Definition set_removed (n : Z) (c : chunk) : chunk :=
  Chunk (chunk_id c) (chunk_ns c) (chunk_min c) (chunk_max c) (chunk_shard c)
        (orphanedOn c) (orphanCount c) true (Some n).

(** A range query [.min(lo).max(hi)]: lower bound inclusive, upper bound
    exclusive. *)
Definition in_range (lo hi : bson) (d : doc) : bool :=
  (bsonWoCompare lo (doc_key d) <=? 0) && (bsonWoCompare (doc_key d) hi <? 0).

(** ** What the script prints and what it sends to the cluster *)

Inductive message : Type :=
  | MsgSearching (ns : string)
  | MsgNoBsonWoCompare
  | MsgTryNewerShell
  | MsgSkippingChunk (mx : bson)
  | MsgFound (count : Z) (nchunks : nat) (ns : string)
  | MsgShardCounts (counts : gmap string Z)
  | MsgBlank
  | MsgNoOrphansFound (ns : string)
  | MsgNothingToRemove
  | MsgNotExamined
  | MsgNoneLeft
  | MsgBadChunk
  | MsgAlreadyRemoved (id : string) (shard : option string)
  | MsgRemoving (id : string) (expected : option Z) (shard : option string)
  | MsgError (e : string)
  | MsgRemoved (n : Z) (ns : string)
  | MsgJson (pretty : bool) (c : option chunk).

Inductive event : Type :=
  | EvIsDbGrid (ok : bool)
  | EvBalancerState (enabled : bool)
  | EvBalancerRunning (running : bool)
  | EvListShards
  | EvConnect (shard : string)
  | EvCount (shard ns : string)
  | EvListChunks (ns : string)
  | EvRangeCount (shard ns : string) (lo hi : bson)
  | EvRangeIds (shard ns : string) (lo hi : bson)
  | EvDelete (shard ns : string) (ids : list Z)
  | EvGetLastError (e : option string)
  | EvSleep (ms : Z)
  | EvPrint (m : message).

(** ** The shell and the cluster behind it *)

Record Shell : Type := MkShell {
  (* the cluster, as the script can observe it *)
  isdbgrid : bool;                          (* { isdbgrid: 1 }.ok *)
  balancerAt : nat -> bool * bool;          (* answers to the n-th balancer probe:
                                               (getBalancerState, isBalancerRunning) *)
  probes : nat;                             (* balancer probes made so far *)
  deleteErrorAt : nat -> option string;     (* error of the n-th bulk delete, if any *)
  deletes : nat;                            (* bulk deletes sent so far *)
  lastError : option string;                (* what getLastError() reports *)
  config_shards : list string;              (* _id of every document of config.shards *)
  config_chunks : list chunk;               (* config.chunks *)
  collection : string -> string -> list doc; (* shard, namespace: the documents held *)
  (* globals of the script *)
  bsonWoCompare_defined : bool;             (* typeof bsonWoCompare !== 'undefined' *)
  Shard_active : list string;               (* Shard.active *)
  _balancerParanoia : bool;                 (* Orphans._balancerParanoia *)
  (* objects handed out by the chunk cursor, by address *)
  heap : list chunk;
  (* everything printed and every command sent, oldest first *)
  trace : list event
}.

Definition with_probes (n : nat) (s : Shell) : Shell :=
  MkShell (isdbgrid s) (balancerAt s) n (deleteErrorAt s) (deletes s)
          (lastError s) (config_shards s) (config_chunks s) (collection s)
          (bsonWoCompare_defined s) (Shard_active s) (_balancerParanoia s)
          (heap s) (trace s).

Definition with_delete (n : nat) (e : option string)
    (coll : string -> string -> list doc) (s : Shell) : Shell :=
  MkShell (isdbgrid s) (balancerAt s) (probes s) (deleteErrorAt s) n
          e (config_shards s) (config_chunks s) coll
          (bsonWoCompare_defined s) (Shard_active s) (_balancerParanoia s)
          (heap s) (trace s).

Definition with_heap (h : list chunk) (s : Shell) : Shell :=
  MkShell (isdbgrid s) (balancerAt s) (probes s) (deleteErrorAt s) (deletes s)
          (lastError s) (config_shards s) (config_chunks s) (collection s)
          (bsonWoCompare_defined s) (Shard_active s) (_balancerParanoia s)
          h (trace s).

Definition with_trace (t : list event) (s : Shell) : Shell :=
  MkShell (isdbgrid s) (balancerAt s) (probes s) (deleteErrorAt s) (deletes s)
          (lastError s) (config_shards s) (config_chunks s) (collection s)
          (bsonWoCompare_defined s) (Shard_active s) (_balancerParanoia s)
          (heap s) t.

Definition with_paranoia (b : bool) (s : Shell) : Shell :=
  MkShell (isdbgrid s) (balancerAt s) (probes s) (deleteErrorAt s) (deletes s)
          (lastError s) (config_shards s) (config_chunks s) (collection s)
          (bsonWoCompare_defined s) (Shard_active s) b
          (heap s) (trace s).

(** ** Commands: state passing with exceptions *)

(** [Throw] is a JavaScript exception.  [OutOfFuel] is not a behaviour of
    the script: it is what a [while] loop of the model answers when it is
    given fewer iterations than it needs. *)
Inductive outcome (A : Type) : Type :=
  | Ret (a : A)
  | Throw (msg : string)
  | OutOfFuel.
Arguments Ret {A} a.
Arguments Throw {A} msg.
Arguments OutOfFuel {A}.

Definition M (A : Type) : Type := Shell -> outcome A * Shell.

Global Instance M_ret : MRet M := λ A a s, (Ret a, s).

Global Instance M_bind : MBind M := λ A B f m s,
  match m s with
  | (Ret a, s') => f a s'
  | (Throw e, s') => (Throw e, s')
  | (OutOfFuel, s') => (OutOfFuel, s')
  end.

Definition throw {A : Type} (msg : string) : M A := λ s, (Throw msg, s).

Definition out_of_fuel {A : Type} : M A := λ s, (OutOfFuel, s).

Definition emit (e : event) : M unit :=
  λ s, (Ret (), with_trace (trace s ++ [e]) s).

Definition print (m : message) : M unit := emit (EvPrint m).

Definition assert (b : bool) (msg : string) : M unit :=
  if b then mret () else throw msg.

Definition read {A : Type} (f : Shell -> A) : M A := λ s, (Ret (f s), s).

(** [Shard.configDB().runCommand({ isdbgrid: 1 }).ok] *)
Definition run_isdbgrid : M bool :=
  ok ← read isdbgrid; emit (EvIsDbGrid ok);; mret ok.

(** [sh.getBalancerState()] *)
Definition getBalancerState : M bool :=
  λ s, let b := fst (balancerAt s (probes s)) in
       (Ret b, with_trace (trace s ++ [EvBalancerState b])
                 (with_probes (S (probes s)) s)).

(** [sh.isBalancerRunning()] *)
Definition isBalancerRunning : M bool :=
  λ s, let b := snd (balancerAt s (probes s)) in
       (Ret b, with_trace (trace s ++ [EvBalancerRunning b])
                 (with_probes (S (probes s)) s)).

(** [conn.getCollection(ns).count()] *)
Definition count_docs (shard ns : string) : M Z :=
  emit (EvCount shard ns);;
  docs ← read (λ s, collection s shard ns);
  mret (Z.of_nat (length docs)).

(** [find()._addSpecial("$returnKey", true).min(lo).max(hi).itcount()] *)
Definition range_count (shard ns : string) (lo hi : bson) : M Z :=
  emit (EvRangeCount shard ns lo hi);;
  docs ← read (λ s, collection s shard ns);
  mret (Z.of_nat (length (filter (λ d, in_range lo hi d = true) docs))).

(** [find({}, {_id: 1}).min(lo).max(hi)]: the identifiers the cursor will
    yield, in the order of the collection.  The cursor is taken to yield the
    documents that were in range when the query was sent. *)
Definition range_ids (shard ns : string) (lo hi : bson) : M (list Z) :=
  emit (EvRangeIds shard ns lo hi);;
  docs ← read (λ s, collection s shard ns);
  mret (doc_id <$> filter (λ d, in_range lo hi d = true) docs).

Definition mem_Z (x : Z) (l : list Z) : bool := existsb (Z.eqb x) l.

Definition delete_ids (ids : list Z) (docs : list doc) : list doc :=
  filter (λ d, mem_Z (doc_id d) ids = false) docs.

(** [naCollection.remove({ _id: { $in: ids } })].  The cluster decides
    whether the n-th bulk delete succeeds; a delete that fails removes
    nothing. *)
Definition remove_ids (shard ns : string) (ids : list Z) : M unit :=
  λ s, let err := deleteErrorAt s (deletes s) in
       let coll :=
         match err with
         | Some _ => collection s
         | None => λ sh n,
             if decide (sh = shard ∧ n = ns)
             then delete_ids ids (collection s sh n)
             else collection s sh n
         end in
       (Ret (), with_trace (trace s ++ [EvDelete shard ns ids])
                  (with_delete (S (deletes s)) err coll s)).

(** [naCollection.getDB().getLastError()] *)
Definition getLastError : M (option string) :=
  e ← read lastError; emit (EvGetLastError e);; mret e.

(** A fresh object for a document the chunk cursor yields. *)
Definition alloc (c : chunk) : M nat :=
  λ s, (Ret (length (heap s)), with_heap (heap s ++ [c]) s).

Definition update_obj (l : nat) (f : chunk -> chunk) : M unit :=
  λ s, (Ret (), with_heap (alter f l (heap s)) s).

(** ** The [Shard] object *)

(** Setting a property of a JavaScript object used as a map: a new key goes
    last in enumeration order, an existing key keeps its place.  (Shard names
    are not array indices, so [for ... in] enumerates them in this order.) *)
Definition set_key (k : string) (keys : list string) : list string :=
  if bool_decide (k ∈ keys) then keys else keys ++ [k].

Module Shard.

(** The body of the [forEach] of [Shard.connections], over the remaining
    documents of [config.shards].  [Orphanage.shardConnection] opens the
    connection; its authentication attempts change nothing the scan reads
    and are left out. *)
Fixpoint connections_loop (shards : list string) (conns : list string)
    : M (list string) :=
  match shards with
  | [] => mret conns
  | shard :: rest =>
      active ← read Shard_active;
      if bool_decide (active ≠ []) && negb (bool_decide (shard ∈ active))
      then connections_loop rest conns
      else emit (EvConnect shard);;
           connections_loop rest (set_key shard conns)
  end.

(** [Shard.connections]: the names of the connected shards, in the order
    [for (shard in shardConns)] enumerates them. *)
Definition connections : M (list string) :=
  emit EvListShards;;
  shards ← read config_shards;
  connections_loop shards [].

End Shard.

(** ** The object [Orphans.find] returns *)

(** [namespace] and [connections] are the variables of [find] that the
    methods close over; a connection is identified by the name of its shard.
    [badChunks] holds addresses of chunk objects in [heap]. *)
Record ScanResult : Type := MkResult {
  namespace : string;
  connections : list string;
  badChunks : list nat;
  maxRange : bson;
  lastMin : bson;
  count : Z;
  shardCounts : gmap string Z;
  _iter : Z
}.

Definition with_iter (i : Z) (r : ScanResult) : ScanResult :=
  MkResult (namespace r) (connections r) (badChunks r) (maxRange r)
           (lastMin r) (count r) (shardCounts r) i.

Definition with_seen (mx mn : bson) (r : ScanResult) : ScanResult :=
  MkResult (namespace r) (connections r) (badChunks r) mx mn
           (count r) (shardCounts r) (_iter r).

(** [shardCounts[shard]] is replaced when it is falsy (absent or zero) and
    added to otherwise. *)
Definition add_shardCount (shard : string) (n : Z) (m : gmap string Z)
    : gmap string Z :=
  match m !! shard with
  | None => <[shard := n]> m
  | Some v => if v =? 0 then <[shard := n]> m else <[shard := v + n]> m
  end.

(** The bookkeeping of one shard that holds [n] orphans of the chunk object
    at address [l]. *)
Definition record_orphans (shard : string) (n : Z) (l : nat) (r : ScanResult)
    : ScanResult :=
  MkResult (namespace r) (connections r) (badChunks r ++ [l]) (maxRange r)
           (lastMin r) (count r + n) (add_shardCount shard n (shardCounts r))
           (_iter r).

Module result.

Definition hasNext (r : ScanResult) : bool :=
  Z.of_nat (length (badChunks r)) >? _iter r + 1.

(** [this.badChunks[this._iter]]: an address, or [undefined]. *)
Definition current (r : ScanResult) : option nat :=
  if _iter r <? 0 then None else badChunks r !! Z.to_nat (_iter r).

Definition next (r : ScanResult) : M (option nat * ScanResult) :=
  let r' := with_iter (_iter r + 1) r in
  mret (current r', r').

Definition rewind (r : ScanResult) : ScanResult := with_iter (-1) r.

(** [print(tojson(this.next()))], while [hasNext()]. *)
Fixpoint listAll_loop (fuel : nat) (pretty : bool) (r : ScanResult)
    : M ScanResult :=
  if hasNext r then
    match fuel with
    | O => out_of_fuel
    | S fuel' =>
        '(x, r1) ← next r;
        obj ← read (λ s, x ≫= λ l, heap s !! l);
        print (MsgJson pretty obj);;
        listAll_loop fuel' pretty r1
    end
  else mret r.

Definition listAll (fuel : nat) (pretty : bool) (r : ScanResult)
    : M ScanResult :=
  r1 ← listAll_loop fuel pretty (rewind r);
  mret (rewind r1).

(** The balancer check of a batch:
    [assert(!sh.getBalancerState() && !sh.isBalancerRunning(), ...)];
    [&&] does not evaluate its right operand when the left one is false. *)
Definition balancer_check : M unit :=
  enabled ← getBalancerState;
  quiet ← (if negb enabled
           then running ← isBalancerRunning; mret (negb running)
           else mret false);
  assert quiet
    "Balancer unexpectedly enabled. Discard previous results and start again.".

(** The [while (toRemove.hasNext())] loop of [remove].  [toRemove] is what
    the cursor has left to yield, [idsToRemove] the batch being filled.  The
    answer is [removedCount] and the error that stopped the loop, if one
    did. *)
Fixpoint remove_batches (shard ns : string) (toRemove idsToRemove : list Z)
    (removedCount : Z) : M (Z * option string) :=
  match toRemove with
  | [] => mret (removedCount, None)
  | id :: rest =>
      let ids := idsToRemove ++ [id] in
      if (Z.of_nat (length ids) >=? 100)
         || (bool_decide (rest = []) && (Z.of_nat (length ids) >? 0))
      then
        paranoia ← read _balancerParanoia;
        (if paranoia : bool then balancer_check else mret ());;
        remove_ids shard ns ids;;
        error ← getLastError;
        match error with
        | Some e => mret (removedCount, Some e)
        | None =>
            remove_batches shard ns rest [] (removedCount + Z.of_nat (length ids))
        end
      else remove_batches shard ns rest ids removedCount
  end.

(** [connections[bchunk.orphanedOn].getCollection(namespace)]: a property
    read on [undefined] when there is no such connection. *)
Definition connection_of (r : ScanResult) (shard : option string) : M string :=
  match shard with
  | Some sh =>
      if bool_decide (sh ∈ connections r) then mret sh
      else throw "TypeError"
  | None => throw "TypeError"
  end.

Definition remove (r : ScanResult) : M (Z * ScanResult) :=
  if (count r =? 0) || (Z.of_nat (length (badChunks r)) =? 0) then
    print MsgNothingToRemove;; mret (0, r)
  else if _iter r <? 0 then
    print MsgNotExamined;; mret (0, r)
  else if _iter r >=? Z.of_nat (length (badChunks r)) then
    print MsgNoneLeft;; mret (0, r)
  else
    match badChunks r !! Z.to_nat (_iter r) with
    | None => print MsgBadChunk;; mret (0, r)
    | Some l =>
        obj ← read (λ s, heap s !! l);
        match obj with
        | None => print MsgBadChunk;; mret (0, r)
        | Some bchunk =>
            if removed bchunk then
              print (MsgAlreadyRemoved (chunk_id bchunk) (orphanedOn bchunk));;
              mret (0, r)
            else
              print (MsgRemoving (chunk_id bchunk) (orphanCount bchunk)
                       (orphanedOn bchunk));;
              shard ← connection_of r (orphanedOn bchunk);
              toRemove ← range_ids shard (namespace r)
                           (chunk_min bchunk) (chunk_max bchunk);
              '(removedCount, error) ←
                 remove_batches shard (namespace r) toRemove [] 0;
              match error with
              | Some e => print (MsgError e)
              | None =>
                  print (MsgRemoved removedCount (namespace r));;
                  update_obj l (set_removed removedCount)
              end;;
              mret (removedCount, r)
        end
    end.

(** [secs] is the optional argument of [removeAll]; [if (secs)] holds when
    it is given and not zero. *)
Definition pause (secs : option Z) : M unit :=
  match secs with
  | Some s => if s =? 0 then mret () else emit (EvSleep (s * 1000))
  | None => mret ()
  end.

Fixpoint removeAll_loop (fuel : nat) (secs : option Z) (r : ScanResult)
    (num : Z) : M (Z * ScanResult) :=
  if hasNext r then
    match fuel with
    | O => out_of_fuel
    | S fuel' =>
        '(_, r1) ← next r;
        '(n, r2) ← remove r1;
        pause secs;;
        removeAll_loop fuel' secs r2 (num + n)
    end
  else mret (num, r).

Definition removeAll (fuel : nat) (secs : option Z) (r : ScanResult)
    : M (Z * ScanResult) :=
  removeAll_loop fuel secs (rewind r) 0.

End result.

(** ** The [Orphans] object *)

(** [.sort({min : 1})]: a stable sort on [min]. *)
Fixpoint insert_by_min (c : chunk) (l : list chunk) : list chunk :=
  match l with
  | [] => [c]
  | d :: l' =>
      if bsonWoCompare (chunk_min c) (chunk_min d) <=? 0
      then c :: l
      else d :: insert_by_min c l'
  end.

Definition sort_by_min (l : list chunk) : list chunk :=
  foldr insert_by_min [] l.

(** [Shard.configDB().chunks.find({ ns: namespace }).sort({min : 1})] *)
Definition list_chunks (ns : string) : M (list chunk) :=
  emit (EvListChunks ns);;
  chunks ← read config_chunks;
  mret (sort_by_min (filter (λ c, chunk_ns c = ns) chunks)).

Module Orphans.

(** [// skip shards that have no data yet] *)
Fixpoint nonempty_shards (ns : string) (shardConns : list string)
    (connections : list string) : M (list string) :=
  match shardConns with
  | [] => mret connections
  | shard :: rest =>
      n ← count_docs shard ns;
      if n >? 0
      then nonempty_shards ns rest (set_key shard connections)
      else nonempty_shards ns rest connections
  end.

(** [// check if we already seen this chunk] *)
Definition check_seen (c : chunk) (r : ScanResult) : M ScanResult :=
  if bsonWoCompare (maxRange r) (chunk_max c) <? 0 then
    mret (with_seen (chunk_max c) (chunk_min c) r)
  else
    print (MsgSkippingChunk (chunk_max c));;
    assert (bsonWoCompare (lastMin r) (chunk_min c) <=? 0)
      "Chunk order is screwed!";;
    mret r.

(** [// query all non-authoritative shards], for the chunk object at
    address [l], whose fields [shard], [min] and [max] are those of [c]. *)
Fixpoint query_shards (l : nat) (c : chunk) (shards : list string)
    (r : ScanResult) : M ScanResult :=
  match shards with
  | [] => mret r
  | shard :: rest =>
      if bool_decide (shard ≠ chunk_shard c) then
        orphanCount ← range_count shard (namespace r) (chunk_min c) (chunk_max c);
        if orphanCount >? 0 then
          update_obj l (set_orphan shard orphanCount);;
          query_shards l c rest (record_orphans shard orphanCount l r)
        else query_shards l c rest r
      else query_shards l c rest r
  end.

(** The callback of the [forEach] over the chunks. *)
Definition scan_chunk (precise : bool) (c : chunk) (r : ScanResult)
    : M ScanResult :=
  l ← alloc c;
  r1 ← (if precise then check_seen c r else mret r);
  query_shards l c (connections r1) r1.

Fixpoint scan_chunks (precise : bool) (chunks : list chunk) (r : ScanResult)
    : M ScanResult :=
  match chunks with
  | [] => mret r
  | c :: rest =>
      r1 ← scan_chunk precise c r;
      scan_chunks precise rest r1
  end.

Definition find (namespace : string) : M ScanResult :=
  ok ← run_isdbgrid;
  assert ok "Not a sharded cluster";;
  enabled ← getBalancerState;
  assert (negb enabled) "Balancer must be stopped first";;
  running ← isBalancerRunning;
  assert (negb running) "Balancer is still running, wait for it to finish";;
  print (MsgSearching namespace);;
  shardConns ← Shard.connections;
  defined ← read bsonWoCompare_defined;
  precise ← (if defined : bool then mret true
             else print MsgNoBsonWoCompare;; print MsgTryNewerShell;;
                  mret false);
  connections ← nonempty_shards namespace shardConns [];
  let result := MkResult namespace connections [] BEmpty BEmpty 0 ∅ (-1) in
  chunks ← list_chunks namespace;
  result ← scan_chunks precise chunks result;
  (if count result >? 0 then
     print (MsgFound (count result) (length (badChunks result)) namespace);;
     print (MsgShardCounts (shardCounts result));;
     print MsgBlank
   else print (MsgNoOrphansFound namespace));;
  mret result.

Definition setBalancerParanoia (b : bool) : M unit :=
  λ s, (Ret (), with_paranoia b s).

End Orphans.

(** * The vocabulary of the properties *)

(** ** Runs and their traces *)

(** The outcome of a command run from [s], and the shell it leaves. *)
Definition run_out {A : Type} (m : M A) (s : Shell) : outcome A := fst (m s).
Definition run_state {A : Type} (m : M A) (s : Shell) : Shell := snd (m s).

(** Runs the straight-line commands at the head of the goal. *)
Ltac run :=
  cbv [mbind M_bind mret M_ret run_isdbgrid getBalancerState isBalancerRunning
       getLastError print emit read assert throw out_of_fuel];
  cbn [fst snd negb trace heap probes deletes lastError isdbgrid balancerAt
       deleteErrorAt config_shards config_chunks collection
       bsonWoCompare_defined Shard_active _balancerParanoia
       with_trace with_heap with_probes with_delete with_paranoia].

(** The commands by which the scan reaches a shard or reads the chunks. *)
Definition scan_work (e : event) : bool :=
  match e with
  | EvListShards | EvConnect _ | EvCount _ _ | EvListChunks _
  | EvRangeCount _ _ _ _ | EvRangeIds _ _ _ _ | EvDelete _ _ _ => true
  | _ => false
  end.

(** ** What a removal leaves behind *)

(** What [remove] does once it has found a chunk object [bchunk], at
    address [l], that is not marked as removed. *)
Definition remove_found (r : ScanResult) (l : nat) (bchunk : chunk)
    : M (Z * ScanResult) :=
  print (MsgRemoving (chunk_id bchunk) (orphanCount bchunk) (orphanedOn bchunk));;
  shard ← result.connection_of r (orphanedOn bchunk);
  toRemove ← range_ids shard (namespace r) (chunk_min bchunk) (chunk_max bchunk);
  '(removedCount, error) ←
     result.remove_batches shard (namespace r) toRemove [] 0;
  match error with
  | Some e => print (MsgError e)
  | None =>
      print (MsgRemoved removedCount (namespace r));;
      update_obj l (set_removed removedCount)
  end;;
  mret (removedCount, r).

(** A balancer probe that found the balancer enabled, or running. *)
Definition balancer_active (e : event) : bool :=
  match e with
  | EvBalancerState b | EvBalancerRunning b => b
  | _ => false
  end.

(** A [getLastError] that reported an error. *)
Definition error_report (e : event) : bool :=
  match e with
  | EvGetLastError (Some _) => true
  | _ => false
  end.

Definition is_print (e : event) : bool :=
  match e with
  | EvPrint _ => true
  | _ => false
  end.

(** The documents of every collection after the identifiers [done] have
    been deleted from the collection [ns] of [shard]. *)
Definition deleted_from (shard ns : string) (done : list Z) (s s' : Shell)
    : Prop :=
  ∀ sh n, collection s' sh n =
          if decide (sh = shard ∧ n = ns)
          then delete_ids done (collection s sh n)
          else collection s sh n.

(** The outcome of the batch loop against its trace. *)
Definition batches_outcome (shard ns : string) (cnt : Z) (done : list Z)
    (evs : list event) (o : outcome (Z * option string)) : Prop :=
  match o with
  | Ret (n, None) =>
      n = cnt + Z.of_nat (length done) ∧ Forall (λ e, error_report e = false) evs
  | Ret (n, Some e) =>
      n = cnt + Z.of_nat (length done)
      ∧ ∃ evs0 ids, evs = evs0 ++ [EvDelete shard ns ids; EvGetLastError (Some e)]
                    ∧ Forall (λ e, error_report e = false) evs0
  | Throw _ => Forall (λ e, error_report e = false) evs
  | OutOfFuel => False
  end.

(** What holds of the batch loop, run from [s] with the batch [acc] being
    filled and [toRemove] left in the cursor: [done], a prefix of what was to
    be deleted, has been deleted, and nothing else has changed but the trace.
    When the loop ends without an error, nothing is left. *)
Definition batches_post (shard ns : string) (acc toRemove : list Z) (cnt : Z)
    (s : Shell) (p : outcome (Z * option string) * Shell) : Prop :=
  ∃ evs done rest,
    trace p.2 = trace s ++ evs
    ∧ heap p.2 = heap s
    ∧ acc ++ toRemove = done ++ rest
    ∧ deleted_from shard ns done s p.2
    ∧ Forall (λ e, is_print e = false) evs
    ∧ batches_outcome shard ns cnt done evs p.1
    ∧ (∀ n, p.1 = Ret (n, None) → toRemove ≠ [] → rest = []).

(** The identifiers [remove] will ask the shard to delete for the chunk
    [c]: those of the documents of the namespace that the shard holds, at
    the time of the call, within the bounds of [c]. *)
Definition ids_in_chunk (s : Shell) (shard ns : string) (c : chunk) : list Z :=
  doc_id <$> filter (λ d, in_range (chunk_min c) (chunk_max c) d = true)
                    (collection s shard ns).

(** What holds of [remove] once it has found its chunk. *)
Definition remove_post (r : ScanResult) (l : nat) (c : chunk) (s : Shell)
    (p : outcome (Z * ScanResult) * Shell) : Prop :=
  ∃ evs,
    trace p.2 = trace s ++ evs
    ∧ match p.1 with
      | Ret (n, r') =>
          r' = r
          ∧ ∃ shard done rest,
              orphanedOn c = Some shard
              ∧ ids_in_chunk s shard (namespace r) c = done ++ rest
              ∧ n = Z.of_nat (length done)
              ∧ deleted_from shard (namespace r) done s p.2
              ∧ ((heap p.2 = heap s
                  ∧ ∃ evs0 ids e,
                      evs = evs0 ++ [EvDelete shard (namespace r) ids;
                                     EvGetLastError (Some e);
                                     EvPrint (MsgError e)]
                      ∧ Forall (λ e, error_report e = false) evs0)
                 ∨ (heap p.2 = alter (set_removed n) l (heap s)
                    ∧ rest = []
                    ∧ Forall (λ e, error_report e = false) evs))
      | Throw _ =>
          heap p.2 = heap s ∧ Forall (λ e, error_report e = false) evs
      | OutOfFuel => False
      end.

(** The fields of a chunk object that [remove] leaves alone. *)
Definition same_orphan (c c' : chunk) : Prop :=
  chunk_id c' = chunk_id c ∧ chunk_ns c' = chunk_ns c
  ∧ chunk_min c' = chunk_min c ∧ chunk_max c' = chunk_max c
  ∧ chunk_shard c' = chunk_shard c
  ∧ orphanedOn c' = orphanedOn c ∧ orphanCount c' = orphanCount c.

(** ** The balancer check as a fence *)

(** The message of the assertion in the batch loop. *)
Definition balancer_msg : string :=
  "Balancer unexpectedly enabled. Discard previous results and start again.".

Definition is_delete (e : event) : bool :=
  match e with
  | EvDelete _ _ _ => true
  | _ => false
  end.

(** The traces of a removal that checks the balancer: every bulk delete
    directly follows a check that found the balancer stopped, and a check
    that finds it active ends the trace. *)
Inductive fenced : list event → Prop :=
  | fenced_nil : fenced []
  | fenced_quiet e evs :
      balancer_active e = false → is_delete e = false →
      fenced evs → fenced (e :: evs)
  | fenced_batch shard ns ids evs :
      fenced evs →
      fenced (EvBalancerState false :: EvBalancerRunning false
              :: EvDelete shard ns ids :: evs)
  | fenced_halt e :
      balancer_active e = true → fenced [e].

(** No probe found the balancer active. *)
Definition calm (evs : list event) : Prop :=
  Forall (λ e, balancer_active e = false) evs.

(** Objects marked as removed stay so. *)
Definition flags_kept (h h' : list chunk) : Prop :=
  ∀ l c, h !! l = Some c → removed c = true →
         ∃ c', h' !! l = Some c' ∧ removed c' = true.

(** A command that keeps the fence, when balancer paranoia is on. *)
Definition guarded {A : Type} (m : M A) : Prop :=
  ∀ s, _balancerParanoia s = true →
    ∃ evs,
      trace (m s).2 = trace s ++ evs
      ∧ fenced evs
      ∧ (calm evs ∨ (m s).1 = Throw balancer_msg)
      ∧ _balancerParanoia (m s).2 = true
      ∧ flags_kept (heap s) (heap (m s).2).

(** ** Removing every chunk *)

(** [remove] at each of the given cursor positions in turn, adding up what
    it answers; only an exception ends the sequence early. *)
Fixpoint remove_each (secs : option Z) (positions : list nat)
    (r : ScanResult) (num : Z) : M (Z * ScanResult) :=
  match positions with
  | [] => mret (num, r)
  | i :: rest =>
      '(n, r1) ← result.remove (with_iter (Z.of_nat i) r);
      result.pause secs;;
      remove_each secs rest r1 (num + n)
  end.

(** ** The order of the bad chunks *)

(** The order of [bsonWoCompare], and of [.sort({min : 1})]. *)
Definition bson_le (a b : bson) : Prop := bsonWoCompare a b ≤ 0.

Definition bson_val (b : bson) : Z :=
  match b with
  | BNum z => z
  | _ => 0
  end.

Definition min_le (c d : chunk) : Prop := bson_le (chunk_min c) (chunk_min d).

(** The lower bounds of the chunk objects in [badChunks], in the order of
    the array. *)
Definition bad_mins (s : Shell) (r : ScanResult) : list bson :=
  (λ l, default BEmpty (chunk_min <$> heap s !! l)) <$> badChunks r.

(** The invariant of the scan, with the lower bounds [todo] of the chunks
    still to come: the entries of [badChunks] are addresses of objects, and
    their lower bounds followed by [todo] are in order. *)
Definition scan_inv (s : Shell) (r : ScanResult) (todo : list bson) : Prop :=
  Forall (λ l, l < length (heap s))%nat (badChunks r)
  ∧ StronglySorted bson_le (bad_mins s r ++ todo).

(** ** Example clusters *)

Definition orders : string := "test.orders".

Definition mk_chunk (id : string) (lo hi : bson) (shard : string) : chunk :=
  Chunk id orders lo hi shard None None false None.

(** Three chunks, as [config.chunks] holds them, in no particular order. *)
Definition three_chunks : list chunk :=
  [mk_chunk "c2" (BNum 10) (BNum 20) "B";
   mk_chunk "c1" BMinKey (BNum 10) "A";
   mk_chunk "c3" (BNum 20) BMaxKey "C"].

Definition docs_with_keys (first_id : Z) (keys : list Z) : list doc :=
  imap (λ i k, Doc (first_id + Z.of_nat i) (BNum k)) keys.

(** A cluster of three shards that holds documents in one namespace. *)
Definition cluster (chunks : list chunk) (on_A on_B on_C : list Z)
    (balancer : nat → bool * bool) (delete_error : nat → option string)
    : Shell :=
  MkShell true balancer 0 delete_error 0 None ["A"; "B"; "C"]%string chunks
    (λ shard ns,
       if decide (ns = orders) then
         if decide (shard = "A"%string) then docs_with_keys 100 on_A
         else if decide (shard = "B"%string) then docs_with_keys 200 on_B
         else if decide (shard = "C"%string) then docs_with_keys 300 on_C
         else []
       else [])
    true [] true [] [].

(** The balancer stays stopped; no bulk delete fails. *)
Definition stopped : nat → bool * bool := λ _, (false, false).
Definition no_error : nat → option string := λ _, None.

(** The shell after [Orphans.find] on [orders], and the result it found. *)
Definition scanned (s : Shell) : Shell := (Orphans.find orders s).2.

Definition found (s : Shell) : ScanResult :=
  match (Orphans.find orders s).1 with
  | Ret r => r
  | _ => MkResult orders [] [] BEmpty BEmpty 0 ∅ (-1)
  end.

(** Shard A holds five documents of the chunk of shard B. *)
Definition residue : Shell :=
  cluster three_chunks [1; 2; 11; 12; 13; 14; 15] [10; 19] [20; 30]
          stopped no_error.

(** Shards A and C both hold documents of the chunk of shard B. *)
Definition residue_on_two : Shell :=
  cluster three_chunks [1; 2; 11; 12; 13; 14; 15] [10; 19] [20; 30; 16; 17]
          stopped no_error.

(** The chunk cursor yields the chunk of shard B as it was before a split
    and then the upper half the split made of it. *)
Definition split_chunks : list chunk :=
  [mk_chunk "c1" BMinKey (BNum 10) "A";
   mk_chunk "c2" (BNum 10) (BNum 20) "B";
   mk_chunk "c2b" (BNum 15) (BNum 20) "B";
   mk_chunk "c3" (BNum 20) BMaxKey "C"].

Definition during_split : Shell :=
  cluster split_chunks [1; 2; 12; 17] [10; 19] [20; 30] stopped no_error.

(** Shard A holds documents of the chunks of B and of C, and the balancer
    is enabled again from the fifth probe on. *)
Definition balancer_returns : Shell :=
  cluster three_chunks [1; 11; 12; 25] [10; 19] [20; 30]
          (λ n, (bool_decide (4 ≤ n)%nat, false)) no_error.

(** Shard A holds 101 documents of the chunk of shard B, and the second
    bulk delete fails. *)
Definition second_delete_fails : Shell :=
  cluster three_chunks (replicate 101 12) [10; 19] [20; 30] stopped
          (λ n, if bool_decide (n = 1%nat) then Some "boom"%string else None).

(** The balancer is enabled when the scan is asked for. *)
Definition balancer_enabled : Shell :=
  cluster three_chunks [1; 2] [10; 19] [20; 30] (λ _, (true, false)) no_error.

(** The events of [remove] on the only bad chunk of [second_delete_fails]. *)
Definition failed_removal : list event :=
  drop (length (trace (scanned second_delete_fails)))
       (trace (run_state (result.remove (with_iter 0 (found second_delete_fails)))
                         (scanned second_delete_fails))).

(** The cluster of [residue] once [removeAll] has run on the scan. *)
Definition cleaned : Shell :=
  run_state (result.removeAll 1 None (found residue)) (scanned residue).

(** * More of the script *)

(** [Shard.allShards]: the [_id] of every document of [config.shards], as
    the cursor yields them. *)
Definition Shard_allShards : M (list string) :=
  emit EvListShards;;
  read config_shards.

(** The assignment [Shard.active = active]. *)
Definition set_Shard_active (active : list string) : M unit :=
  λ s, (Ret (),
        MkShell (isdbgrid s) (balancerAt s) (probes s) (deleteErrorAt s)
          (deletes s) (lastError s) (config_shards s) (config_chunks s)
          (collection s) (bsonWoCompare_defined s) active
          (_balancerParanoia s) (heap s) (trace s)).

(** Setting a property of a JavaScript object used as a map from
    namespaces to results: a new key goes last in enumeration order, an
    existing key keeps its place and gets the new value. *)
Definition set_prop {V : Type} (k : string) (v : V) (o : list (string * V))
    : list (string * V) :=
  if bool_decide (k ∈ o.*1)
  then (λ p, if decide (p.1 = k) then (k, v) else p) <$> o
  else o ++ [(k, v)].

(** The loop of [Orphans.findAll] over the namespaces left, [result] being
    the object built so far. *)
Fixpoint Orphans_findAll_loop (namespaces : list string)
    (result : list (string * ScanResult)) : M (list (string * ScanResult)) :=
  match namespaces with
  | [] => mret result
  | namespace :: rest =>
      r ← Orphans.find namespace;
      Orphans_findAll_loop rest (set_prop namespace r result)
  end.

(** [Orphans.findAll], for the namespaces that [Shard.namespaces()]
    answers: the [_id] of every document of [config.collections], a
    collection the scans and removals neither read nor change. *)
Definition Orphans_findAll (namespaces : list string)
    : M (list (string * ScanResult)) :=
  Orphans_findAll_loop namespaces [].

(** The loop of [Orphans.removeAll] over the entries of [nsMap] left;
    [seen] holds the entries gone through, with their result objects as
    [removeAll] leaves them.  [removeAll()] is called without [secs]. *)
Fixpoint Orphans_removeAll_loop (fuel : nat)
    (todo seen : list (string * ScanResult)) (num : Z)
    : M (Z * list (string * ScanResult)) :=
  match todo with
  | [] => mret (num, seen)
  | (ns, r) :: rest =>
      '(n, r') ← result.removeAll fuel None r;
      Orphans_removeAll_loop fuel rest (seen ++ [(ns, r')]) (num + n)
  end.

(** [Orphans.removeAll(nsMap)]; [None] is a missing or null argument.  The
    answer is [num], with the result objects of [nsMap] as they are left. *)
Definition Orphans_removeAll (fuel : nat)
    (nsMap : option (list (string * ScanResult)))
    : M (Z * list (string * ScanResult)) :=
  match nsMap with
  | Some results => Orphans_removeAll_loop fuel results [] 0
  | None => mret (0, [])
  end.

(** ** The [Orphanage] object *)

Module Orphanage.

(** A document is a JavaScript object, a map from property names to
    values; [documents] holds the objects by address, and [globalAuthDoc]
    and [shardAuthDocs] hold addresses.  [authAt] is the server: what the
    n-th call of [admin.auth] answers for the host and the document it is
    given, and the document as the call leaves it, for the shell's [auth]
    writes to the document it is passed.  [auth_calls] lists the calls made,
    with the document as it was passed. *)
Record state : Type := MkState {
  documents : list (gmap string string);
  globalAuthDoc : option nat;
  shardAuthDocs : gmap string nat;
  authAt : nat → string → gmap string string → Z * gmap string string;
  auth_calls : list (string * gmap string string)
}.

(** [Orphanage] as the script creates it. *)
Definition init
    (server : nat → string → gmap string string → Z * gmap string string)
    : state :=
  MkState [] None ∅ server [].

(** An object literal. *)
Definition new_object (d : gmap string string) (o : state) : nat * state :=
  (length (documents o),
   MkState (documents o ++ [d]) (globalAuthDoc o) (shardAuthDocs o)
           (authAt o) (auth_calls o)).

(** [{'user':user,'pwd':pwd}] *)
Definition authDoc (user pwd : string) : gmap string string :=
  <["user"%string := user]> (<["pwd"%string := pwd]> ∅).

(** [Orphanage.global.auth(user, pwd)] *)
Definition global_auth (user pwd : string) (o : state) : state :=
  let '(a, o1) := new_object (authDoc user pwd) o in
  MkState (documents o1) (Some a) (shardAuthDocs o1) (authAt o1)
          (auth_calls o1).

(** [Orphanage.shard.auth(shard, user, pwd)] *)
Definition shard_auth (shard user pwd : string) (o : state) : state :=
  let '(a, o1) := new_object (authDoc user pwd) o in
  MkState (documents o1) (globalAuthDoc o1) (<[shard := a]> (shardAuthDocs o1))
          (authAt o1) (auth_calls o1).

(** [Orphanage.copyDoc(doc)], for the object at address [a]: a new object
    with every property of [doc]. *)
Definition copyDoc (a : nat) (o : state) : nat * state :=
  let doc := default ∅ (documents o !! a) in
  new_object (map_fold (λ prop v newDoc, <[prop := v]> newDoc) ∅ doc) o.

(** [admin.auth(authDoc)] on a connection to [host], for the object at
    address [a]. *)
Definition admin_auth (host : string) (a : nat) (o : state) : Z * state :=
  let doc := default ∅ (documents o !! a) in
  let '(answer, doc') := authAt o (length (auth_calls o)) host doc in
  (answer,
   MkState (<[a := doc']> (documents o)) (globalAuthDoc o) (shardAuthDocs o)
           (authAt o) (auth_calls o ++ [(host, doc)])).

(** [Orphanage.shardConnection(shard)], for the document of [config.shards]
    with the given [host] and [_id]; the connection is named by its host. *)
Definition shardConnection (host id : string) (o : state) : string * state :=
  match shardAuthDocs o !! id with
  | Some a =>
      let '(authDoc, o1) := copyDoc a o in
      let '(answer, o2) := admin_auth host authDoc o1 in
      match (if answer =? 1 then None else globalAuthDoc o2) with
      | Some g =>
          let '(authDoc, o3) := copyDoc g o2 in
          let '(_, o4) := admin_auth host authDoc o3 in
          (host, o4)
      | None => (host, o2)
      end
  | None =>
      match globalAuthDoc o with
      | Some g =>
          let '(authDoc, o1) := copyDoc g o in
          let '(_, o2) := admin_auth host authDoc o1 in
          (host, o2)
      | None => (host, o)
      end
  end.

End Orphanage.

(** * The vocabulary of the further properties *)

(** ** What a command leaves of the cluster *)

(** Everything of the shell but the probe counter, the chunk objects and the
    trace. *)
Definition same_cluster (s s' : Shell) : Prop :=
  isdbgrid s' = isdbgrid s
  ∧ balancerAt s' = balancerAt s
  ∧ deleteErrorAt s' = deleteErrorAt s
  ∧ deletes s' = deletes s
  ∧ lastError s' = lastError s
  ∧ config_shards s' = config_shards s
  ∧ config_chunks s' = config_chunks s
  ∧ collection s' = collection s
  ∧ bsonWoCompare_defined s' = bsonWoCompare_defined s
  ∧ Shard_active s' = Shard_active s
  ∧ _balancerParanoia s' = _balancerParanoia s.

(** From [s] to [s'] the cluster is the same, the trace has grown by events
    that [φ] accepts, and the chunk objects are related by [H]. *)
Definition touches_only (φ : event → bool) (H : relation (list chunk))
    (s s' : Shell) : Prop :=
  same_cluster s s'
  ∧ (∃ evs, trace s' = trace s ++ evs ∧ Forall (λ e, φ e = true) evs)
  ∧ H (heap s) (heap s').

(** Only the object at address [l] may have changed. *)
Definition heap_but (l : nat) (h h' : list chunk) : Prop :=
  length h' = length h ∧ ∀ l', l' ≠ l → h' !! l' = h !! l'.

(** Objects may have been added, and those at the addresses below [n] are
    as they were. *)
Definition heap_above (n : nat) (h h' : list chunk) : Prop :=
  (n ≤ length h)%nat →
  (length h ≤ length h')%nat ∧ ∀ l, (l < n)%nat → h' !! l = h !! l.

(** A command after which [R] relates the shell it was run from and the
    shell it leaves. *)
Definition stable {A : Type} (R : relation Shell) (m : M A) : Prop :=
  ∀ s, R s (m s).2.

(** The events of a scan: probes, listings, connections, counts and
    prints. *)
Definition scan_event (e : event) : bool :=
  match e with
  | EvRangeIds _ _ _ _ | EvDelete _ _ _ | EvGetLastError _ | EvSleep _ => false
  | _ => true
  end.

(** ** The shards a scan looks at *)

(** [Shard.active] lets the shard through: it is empty, or it names it. *)
Definition is_active (s : Shell) (shard : string) : Prop :=
  Shard_active s = [] ∨ shard ∈ Shard_active s.

(** The result object as [Orphans.find] creates it. *)
Definition new_result (ns : string) (conns : list string) : ScanResult :=
  MkResult ns conns [] BEmpty BEmpty 0 ∅ (-1).

(** What [Orphans.find] prints once the chunks are scanned. *)
Definition summary (r : ScanResult) : list event :=
  if count r >? 0 then
    [EvPrint (MsgFound (count r) (length (badChunks r)) (namespace r));
     EvPrint (MsgShardCounts (shardCounts r));
     EvPrint MsgBlank]
  else [EvPrint (MsgNoOrphansFound (namespace r))].

(** The chunks of a namespace, in the order the scan goes through them. *)
Definition chunks_of (s : Shell) (ns : string) : list chunk :=
  sort_by_min (filter (λ c, chunk_ns c = ns) (config_chunks s)).

(** A property of the result object that the bookkeeping of the scan
    keeps. *)
Definition scan_closed (Φ : ScanResult → Prop) : Prop :=
  (∀ r shard n l, Φ r → n > 0 → Φ (record_orphans shard n l r))
  ∧ (∀ r mx mn, Φ r → Φ (with_seen mx mn r)).

(** ** What a scan counts *)

(** The number of documents of the namespace that [shard] holds within the
    bounds of the chunk [c]. *)
Definition orphans_on (coll : string → string → list doc) (ns : string)
    (c : chunk) (shard : string) : Z :=
  Z.of_nat (length (filter (λ d, in_range (chunk_min c) (chunk_max c) d = true)
                      (coll shard ns))).

(** The same, but nothing for the shard that owns the chunk. *)
Definition strays (coll : string → string → list doc) (ns : string)
    (c : chunk) (shard : string) : Z :=
  if decide (shard = chunk_shard c) then 0 else orphans_on coll ns c shard.

(** Of the given shards, those that hold documents of a chunk they do not
    own. *)
Definition offenders (coll : string → string → list doc) (ns : string)
    (c : chunk) (shards : list string) : list string :=
  filter (λ shard, 0 < strays coll ns c shard) shards.

Definition total (l : list Z) : Z := foldr Z.add 0 l.

(** The bookkeeping of the scan for one chunk, whose object is at address
    [l], with the offending shards in turn. *)
Definition record_all (coll : string → string → list doc) (ns : string)
    (c : chunk) (l : nat) (shards : list string) (r : ScanResult) : ScanResult :=
  foldl (λ r shard, record_orphans shard (orphans_on coll ns c shard) l r)
        r shards.

Definition mark_all (coll : string → string → list doc) (ns : string)
    (c : chunk) (l : nat) (shards : list string) (h : list chunk) : list chunk :=
  foldl (λ h shard, alter (set_orphan shard (orphans_on coll ns c shard)) l h)
        h shards.

(** The chunk object of [c] as the scan leaves it: with the last of the
    offending shards and the count found there written on it, or untouched
    when no shard offends. *)
Definition marked (coll : string → string → list doc) (ns : string)
    (conns : list string) (c : chunk) : chunk :=
  match last (offenders coll ns c conns) with
  | Some shard => set_orphan shard (orphans_on coll ns c shard) c
  | None => c
  end.

(** The addresses the scan pushes for the given chunks, when the object of
    the first is at address [base]: the address of a chunk, once for each
    offending shard. *)
Fixpoint entries (coll : string → string → list doc) (ns : string)
    (conns : list string) (base : nat) (chunks : list chunk) : list nat :=
  match chunks with
  | [] => []
  | c :: rest =>
      replicate (length (offenders coll ns c conns)) base
      ++ entries coll ns conns (S base) rest
  end.

(** What a listing of the bad chunks shows for the given chunks. *)
Definition listing (coll : string → string → list doc) (ns : string)
    (conns : list string) (chunks : list chunk) : list (option chunk) :=
  concat ((λ c, replicate (length (offenders coll ns c conns))
                  (Some (marked coll ns conns c))) <$> chunks).

(** What the scan of one chunk adds to the result and to the chunk
    objects. *)
Definition chunk_scanned (ns : string) (conns : list string) (c : chunk)
    (r r' : ScanResult) (s s' : Shell) : Prop :=
  namespace r' = ns ∧ connections r' = conns ∧ _iter r' = _iter r
  ∧ same_cluster s s'
  ∧ heap s' = heap s ++ [marked (collection s) ns conns c]
  ∧ badChunks r'
    = badChunks r
      ++ replicate (length (offenders (collection s) ns c conns))
           (length (heap s))
  ∧ count r' = count r + total (strays (collection s) ns c <$> conns)
  ∧ ∀ sh, default 0 (shardCounts r' !! sh)
          = default 0 (shardCounts r !! sh)
            + total ((λ x, if decide (sh = x)
                           then strays (collection s) ns c x else 0)
                       <$> conns).

(** What the scan of the given chunks adds to the result and to the chunk
    objects. *)
Definition chunks_scanned (ns : string) (conns : list string)
    (chunks : list chunk) (r r' : ScanResult) (s s' : Shell) : Prop :=
  namespace r' = ns ∧ connections r' = conns ∧ _iter r' = _iter r
  ∧ same_cluster s s'
  ∧ heap s' = heap s ++ (marked (collection s) ns conns <$> chunks)
  ∧ badChunks r'
    = badChunks r ++ entries (collection s) ns conns (length (heap s)) chunks
  ∧ count r'
    = count r
      + total ((λ c, total (strays (collection s) ns c <$> conns)) <$> chunks)
  ∧ ∀ sh, default 0 (shardCounts r' !! sh)
          = default 0 (shardCounts r !! sh)
            + total ((λ c,
                        total ((λ x, if decide (sh = x)
                                     then strays (collection s) ns c x else 0)
                                 <$> conns))
                       <$> chunks).

(** ** More example clusters *)

(** Every shard holds documents of its own chunk only. *)
Definition tidy : Shell :=
  cluster three_chunks [1; 2] [10; 19] [20; 30] stopped no_error.

(** The chunk of shard B as the scan of [residue] leaves it. *)
Definition c2_on_A : chunk :=
  set_orphan "A" 5 (mk_chunk "c2" (BNum 10) (BNum 20) "B").

(** ** Disciplines of removal *)

(** Run from [s], the command leaves a shell that [R] relates to [s], and
    throws only what [T] admits of [s]. *)
Definition obeys {A : Type} (R : relation Shell) (T : Shell → string → Prop)
    (m : M A) (s : Shell) : Prop :=
  R s (m s).2 ∧ ∀ e, (m s).1 = Throw e → T s e.

(** What a removal prints, asks about the last delete, and sleeps. *)
Definition removal_note (e : event) : bool :=
  match e with
  | EvPrint _ | EvGetLastError _ | EvSleep _ => true
  | _ => false
  end.

Definition probe (e : event) : bool :=
  match e with
  | EvBalancerState _ | EvBalancerRunning _ => true
  | _ => false
  end.

(** The events of a removal on a result with the connections [conns] for
    the namespace [ns]: range queries and bulk deletes go to that namespace
    on one of those shards, a bulk delete names from 1 to 100 documents, and
    nothing else is sent but balancer probes and [getLastError]. *)
Definition on_target (conns : list string) (ns : string) (e : event) : Prop :=
  match e with
  | EvRangeIds shard n _ _ => shard ∈ conns ∧ n = ns
  | EvDelete shard n ids => shard ∈ conns ∧ n = ns ∧ (0 < length ids ≤ 100)%nat
  | EvBalancerState _ | EvBalancerRunning _ | EvGetLastError _ | EvSleep _
  | EvPrint _ => True
  | _ => False
  end.

Definition sends_on_target (conns : list string) (ns : string)
    (s s' : Shell) : Prop :=
  ∃ evs, trace s' = trace s ++ evs ∧ Forall (on_target conns ns) evs.

(** With balancer paranoia off it stays off and no probe is made. *)
Definition unprobed (s s' : Shell) : Prop :=
  _balancerParanoia s = false →
  _balancerParanoia s' = false ∧ probes s' = probes s
  ∧ ∃ evs, trace s' = trace s ++ evs ∧ Forall (λ e, probe e = false) evs.

(** Every address of [bad] holds a chunk object attributed to one of the
    shards [conns]. *)
Definition attributed (conns : list string) (bad : list nat) (s : Shell)
    : Prop :=
  ∀ l, l ∈ bad →
    ∃ c shard, heap s !! l = Some c ∧ orphanedOn c = Some shard ∧ shard ∈ conns.

Definition stays_attributed (conns : list string) (bad : list nat)
    (s s' : Shell) : Prop :=
  _balancerParanoia s' = _balancerParanoia s
  ∧ (attributed conns bad s → attributed conns bad s').

(** ** What a removal deletes *)

(** From [s0] to [s] documents have gone, those with the identifiers
    [gone] names for each shard and namespace, and nothing else has changed
    in the collections; each document that has gone lay, on a shard and in
    a namespace that [ok] accepts, within the bounds of one of the [chunks]
    of that namespace that the shard does not own. *)
Definition culled (chunks : list chunk) (ok : string → string → Prop)
    (s0 s : Shell) : Prop :=
  ∃ gone : string → string → list Z,
    (∀ sh n, collection s sh n = delete_ids (gone sh n) (collection s0 sh n))
    ∧ ∀ sh n d, d ∈ collection s0 sh n → doc_id d ∈ gone sh n →
        ok sh n
        ∧ ∃ c, c ∈ chunks ∧ chunk_ns c = n ∧ chunk_shard c ≠ sh
               ∧ in_range (chunk_min c) (chunk_max c) d = true.

(** Every address of [bad] holds a chunk object that has the bounds of one
    of the [chunks] of the namespace [ns] and is attributed to a shard of
    [conns] that does not own that chunk. *)
Definition bounds_known (chunks : list chunk) (ns : string)
    (conns : list string) (bad : list nat) (s : Shell) : Prop :=
  ∀ l, l ∈ bad →
    ∃ c shard c0,
      heap s !! l = Some c ∧ orphanedOn c = Some shard ∧ shard ∈ conns
      ∧ c0 ∈ chunks ∧ chunk_ns c0 = ns ∧ chunk_shard c0 ≠ shard
      ∧ chunk_min c = chunk_min c0 ∧ chunk_max c = chunk_max c0.

(** Every chunk object of [h] is in [h'], up to [removed] and
    [numRemoved]. *)
Definition only_marked (h h' : list chunk) : Prop :=
  ∀ l c, h !! l = Some c → ∃ c', h' !! l = Some c' ∧ same_orphan c c'.

(** Every address of [bad] holds the chunk object that [h1] held there, up
    to [removed] and [numRemoved]; the object is attributed to a shard of
    [conns], and once it is marked as removed that shard holds no document
    of the namespace within its bounds. *)
Definition cleared (ns : string) (conns : list string) (bad : list nat)
    (h1 : list chunk) (s : Shell) : Prop :=
  ∀ l, l ∈ bad →
    ∃ c1 c shard,
      h1 !! l = Some c1 ∧ heap s !! l = Some c ∧ same_orphan c1 c
      ∧ orphanedOn c = Some shard ∧ shard ∈ conns
      ∧ (removed c = true → orphans_on (collection s) ns c shard = 0).

(** The chunk objects at the first [i] positions of [bad] are marked as
    removed. *)
Definition removed_upto (bad : list nat) (i : nat) (s : Shell) : Prop :=
  ∀ j l, (j < i)%nat → bad !! j = Some l →
    ∃ c, heap s !! l = Some c ∧ removed c = true.

(** The cluster of [residue_on_two] once [removeAll] has run on the scan,
    and what the removal added to the trace. *)
Definition cleaned_on_two : Shell :=
  run_state (result.removeAll 2 None (found residue_on_two))
            (scanned residue_on_two).

Definition removal_on_two : list event :=
  drop (length (trace (scanned residue_on_two))) (trace cleaned_on_two).

(** ** Scanning every namespace *)

(** No balancer probe has been made. *)
Definition same_probes (s s' : Shell) : Prop := probes s' = probes s.

(** [Orphans.find] from the message it prints once its three assertions
    have passed. *)
Definition scan_after_checks (namespace : string) : M ScanResult :=
  print (MsgSearching namespace);;
  shardConns ← Shard.connections;
  defined ← read bsonWoCompare_defined;
  precise ← (if defined : bool then mret true
             else print MsgNoBsonWoCompare;; print MsgTryNewerShell;;
                  mret false);
  connections ← Orphans.nonempty_shards namespace shardConns [];
  let result := MkResult namespace connections [] BEmpty BEmpty 0 ∅ (-1) in
  chunks ← list_chunks namespace;
  result ← Orphans.scan_chunks precise chunks result;
  (if count result >? 0 then
     print (MsgFound (count result) (length (badChunks result)) namespace);;
     print (MsgShardCounts (shardCounts result));;
     print MsgBlank
   else print (MsgNoOrphansFound namespace));;
  mret result.

(** The balancer is found stopped and at rest by the two probes of each of
    [n] scans in a row, the first probe being the one numbered [from]. *)
Fixpoint balancer_quiet (balancer : nat → bool * bool) (from n : nat) : Prop :=
  match n with
  | O => True
  | S n' =>
      (balancer from).1 = false ∧ (balancer (S from)).2 = false
      ∧ balancer_quiet balancer (S (S from)) n'
  end.


(** Two namespaces, and what [Orphans.findAll] answers for them and leaves
    of the shell. *)
Definition two_namespaces : list string := [orders; "test.users"%string].

Definition found_all (s : Shell) : list (string * ScanResult) :=
  match (Orphans_findAll two_namespaces s).1 with
  | Ret result => result
  | _ => []
  end.

Definition scanned_all (s : Shell) : Shell :=
  (Orphans_findAll two_namespaces s).2.

(** ** The credentials of the shards *)

(** The address [a] is one that [Orphanage] keeps credentials at. *)
Definition stored (o : Orphanage.state) (a : nat) : Prop :=
  Orphanage.globalAuthDoc o = Some a
  ∨ ∃ shard, Orphanage.shardAuthDocs o !! shard = Some a.

(** Every address [Orphanage] keeps is that of a document. *)
Definition well_stored (o : Orphanage.state) : Prop :=
  ∀ a, stored o a → (a < length (Orphanage.documents o))%nat.

(** The credentials kept for the shard [id], and the global ones. *)
Definition shard_credentials (o : Orphanage.state) (id : string)
    : option (gmap string string) :=
  Orphanage.shardAuthDocs o !! id ≫= λ a, Orphanage.documents o !! a.

Definition global_credentials (o : Orphanage.state)
    : option (gmap string string) :=
  Orphanage.globalAuthDoc o ≫= λ a, Orphanage.documents o !! a.

(** The authentication attempts of a connection to the shard [id] at
    [host]: with the credentials of the shard when there are some, and then,
    or when there are none, with the global ones if there are some; there
    is no second attempt when the first is answered 1. *)
Definition attempts (o : Orphanage.state) (host id : string)
    : list (string * gmap string string) :=
  match shard_credentials o id with
  | Some d =>
      (host, d)
      :: (if (Orphanage.authAt o (length (Orphanage.auth_calls o)) host d).1 =? 1
          then []
          else match global_credentials o with
               | Some g => [(host, g)]
               | None => []
               end)
  | None =>
      match global_credentials o with
      | Some g => [(host, g)]
      | None => []
      end
  end.

(** A server that answers 0 to everything and adds a digest to the document
    it is given. *)
Definition refusing : nat → string → gmap string string → Z * gmap string string :=
  λ _ _ d, (0, <["digest"%string := "x"%string]> d).

(** Credentials for shard A, and global ones. *)
Definition with_credentials : Orphanage.state :=
  Orphanage.global_auth "admin" "secret"
    (Orphanage.shard_auth "A" "alice" "pw" (Orphanage.init refusing)).

(** ** What a removal reports *)

(** The number of documents of the namespace that the shards hold. *)
Definition held (coll : string → string → list doc) (conns : list string)
    (ns : string) : Z :=
  total ((λ shard, Z.of_nat (length (coll shard ns))) <$> conns).

(** * Properties *)

(** ** Running commands *)

Lemma with_trace_same (s : Shell) : with_trace (trace s) s = s.
Proof. by destruct s. Qed.

(** ** The preconditions of the scan *)

(** C6.  When the cluster is not a sharded one, or the balancer is enabled,
    or the balancer is still running, [Orphans.find] throws, with a message
    of its own for the first precondition that fails, and up to then it has
    only probed the cluster: it has listed no shards, opened no connection,
    counted nothing and read no chunk. *)
Theorem find_fails_fast (ns : string) (s : Shell) :
  isdbgrid s = false ∨ fst (balancerAt s (probes s)) = true
    ∨ snd (balancerAt s (S (probes s))) = true →
  ∃ msg evs,
    run_out (Orphans.find ns) s = Throw msg
    ∧ trace (run_state (Orphans.find ns) s) = trace s ++ evs
    ∧ Forall (λ e, scan_work e = false) evs
    ∧ heap (run_state (Orphans.find ns) s) = heap s
    ∧ (isdbgrid s = false → msg = "Not a sharded cluster"%string)
    ∧ (isdbgrid s = true → fst (balancerAt s (probes s)) = true →
       msg = "Balancer must be stopped first"%string)
    ∧ (isdbgrid s = true → fst (balancerAt s (probes s)) = false →
       msg = "Balancer is still running, wait for it to finish"%string).
Proof.
  intros H. unfold run_out, run_state, Orphans.find.
  destruct (isdbgrid s) eqn:Hg.
  - destruct (fst (balancerAt s (probes s))) eqn:He.
    + run. rewrite Hg. run. rewrite He. run.
      eexists _, [_; _]. repeat split; try done.
      * cbn. by rewrite <- (assoc app).
      * repeat constructor.
    + destruct (snd (balancerAt s (S (probes s)))) eqn:Hr.
      * run. rewrite Hg. run. rewrite He. run. rewrite Hr. run.
        eexists _, [_; _; _]. repeat split; try done.
        -- cbn. by rewrite <- !(assoc app).
        -- repeat constructor.
      * destruct H as [?|[?|?]]; congruence.
  - run. rewrite Hg. run. eexists _, [_]. repeat split; try done.
    repeat constructor.
Qed.

Lemma find_fails_fast_witness :
  (isdbgrid balancer_enabled = false
   ∨ (balancerAt balancer_enabled (probes balancer_enabled)).1 = true
   ∨ (balancerAt balancer_enabled (S (probes balancer_enabled))).2 = true)
  ∧ ∃ msg evs,
      run_out (Orphans.find orders) balancer_enabled = Throw msg
      ∧ trace (run_state (Orphans.find orders) balancer_enabled)
        = trace balancer_enabled ++ evs
      ∧ Forall (λ e, scan_work e = false) evs
      ∧ heap (run_state (Orphans.find orders) balancer_enabled)
        = heap balancer_enabled
      ∧ (isdbgrid balancer_enabled = false →
         msg = "Not a sharded cluster"%string)
      ∧ (isdbgrid balancer_enabled = true →
         (balancerAt balancer_enabled (probes balancer_enabled)).1 = true →
         msg = "Balancer must be stopped first"%string)
      ∧ (isdbgrid balancer_enabled = true →
         (balancerAt balancer_enabled (probes balancer_enabled)).1 = false →
         msg = "Balancer is still running, wait for it to finish"%string).
Proof.
  split; [right; left; reflexivity|].
  apply (find_fails_fast orders balancer_enabled). right. left. reflexivity.
Defined.

(** ** The cursor *)

Lemma hasNext_true (r : ScanResult) :
  result.hasNext r = true ↔ _iter r + 1 < Z.of_nat (length (badChunks r)).
Proof. unfold result.hasNext. rewrite Z.gtb_ltb, Z.ltb_lt. reflexivity. Qed.

Lemma hasNext_false (r : ScanResult) :
  result.hasNext r = false ↔ Z.of_nat (length (badChunks r)) ≤ _iter r + 1.
Proof. unfold result.hasNext. rewrite Z.gtb_ltb, Z.ltb_ge. reflexivity. Qed.

(** C3, as the script has it.  [next] never throws: it moves the cursor one
    step and answers with what the array holds at the new position, which is
    a bad chunk when [hasNext] held and [undefined] when it did not. *)
Theorem next_advances (r : ScanResult) (s : Shell) :
  -1 ≤ _iter r →
  ∃ x, result.next r s = (Ret (x, with_iter (_iter r + 1) r), s)
    ∧ (result.hasNext r = true →
       ∃ l, x = Some l ∧ badChunks r !! Z.to_nat (_iter r + 1) = Some l)
    ∧ (result.hasNext r = false → x = None).
Proof.
  intros Hi. eexists. split; [reflexivity|]. unfold result.current. cbn.
  destruct (Z.ltb_spec (_iter r + 1) 0); [lia|]. split.
  - intros Hn%hasNext_true.
    destruct (lookup_lt_is_Some_2 (badChunks r) (Z.to_nat (_iter r + 1)))
      as [l Hl]; [lia|]. eauto.
  - intros Hn%hasNext_false. apply lookup_ge_None. lia.
Qed.

Lemma next_advances_witness :
  -1 ≤ _iter (found residue)
  ∧ ∃ x, result.next (found residue) (scanned residue)
         = (Ret (x, with_iter (_iter (found residue) + 1) (found residue)),
            scanned residue)
    ∧ (result.hasNext (found residue) = true →
       ∃ l, x = Some l
            ∧ badChunks (found residue) !! Z.to_nat (_iter (found residue) + 1)
              = Some l)
    ∧ (result.hasNext (found residue) = false → x = None).
Proof.
  split; [by vm_compute|].
  apply (next_advances (found residue) (scanned residue)). by vm_compute.
Defined.

(** C3, as stated, on [residue], with the cursor on its only bad chunk:
    [next] does not throw. It answers [undefined], and the cursor is then
    past the end. *)
Lemma next_past_the_end_counterexample :
  result.current (with_iter 0 (found residue)) = Some 1%nat
  ∧ result.hasNext (with_iter 0 (found residue)) = false
  ∧ (∃ r', result.next (with_iter 0 (found residue)) (scanned residue)
           = (Ret (None, r'), scanned residue)
           ∧ _iter r' = 1)
  ∧ ¬ ∃ msg s', result.next (with_iter 0 (found residue)) (scanned residue)
                = (Throw msg, s').
Proof.
  split; [by vm_compute|]. split; [by vm_compute|]. split.
  - eexists. split; reflexivity.
  - intros (msg & s' & H). discriminate H.
Qed.

Lemma with_iter_same (r : ScanResult) : with_iter (_iter r) r = r.
Proof. by destruct r. Qed.

Lemma listAll_loop_visits (pretty : bool) (fuel : nat) :
  ∀ (r : ScanResult) (s : Shell) (i : nat),
    _iter r = Z.of_nat i - 1 →
    (length (badChunks r) ≤ i + fuel)%nat →
    result.listAll_loop fuel pretty r s =
      (Ret (with_iter (Z.of_nat (Nat.max i (length (badChunks r))) - 1) r),
       with_trace
         (trace s ++
          ((λ l, EvPrint (MsgJson pretty (heap s !! l))) <$> drop i (badChunks r)))
         s).
Proof.
  assert (Hstop : ∀ fuel r s i,
    _iter r = Z.of_nat i - 1 → result.hasNext r = false →
    result.listAll_loop fuel pretty r s =
      (Ret (with_iter (Z.of_nat (Nat.max i (length (badChunks r))) - 1) r),
       with_trace
         (trace s ++
          ((λ l, EvPrint (MsgJson pretty (heap s !! l))) <$> drop i (badChunks r)))
         s)).
  { intros f r s i Hi Hn. destruct f; cbn; rewrite Hn;
      apply hasNext_false in Hn; rewrite drop_ge by lia; cbn;
      rewrite app_nil_r, with_trace_same;
      replace (Nat.max _ _) with i by lia;
      rewrite <- Hi, with_iter_same; reflexivity. }
  induction fuel as [|fuel IH]; intros r s i Hi Hfuel.
  - apply Hstop; [done|]. apply hasNext_false. lia.
  - destruct (result.hasNext r) eqn:Hn; [|by apply Hstop].
    cbn. rewrite Hn. apply hasNext_true in Hn.
    destruct (lookup_lt_is_Some_2 (badChunks r) i) as [l Hl]; [lia|].
    rewrite (drop_S _ _ _ Hl). unfold result.next. run.
    rewrite (IH _ _ (S i)); cbn; [|lia|lia].
    unfold result.current. cbn.
    destruct (Z.ltb_spec (_iter r + 1) 0); [lia|].
    replace (Z.to_nat (_iter r + 1)) with i by lia. rewrite Hl. cbn.
    rewrite <- (assoc app). cbn.
    replace (Nat.max i _) with (Nat.max (S i) (length (badChunks r))) by lia.
    reflexivity.
Qed.

(** ** Removing the current chunk *)

Lemma remove_cases (r : ScanResult) (s : Shell) :
  (∃ m, result.remove r s = (Ret (0, r), with_trace (trace s ++ [EvPrint m]) s))
  ∨ (∃ l c, result.current r = Some l ∧ heap s !! l = Some c
            ∧ removed c = false
            ∧ result.remove r s = remove_found r l c s).
Proof.
  unfold result.remove, result.current.
  destruct ((count r =? 0) || (Z.of_nat (length (badChunks r)) =? 0));
    [left; eexists; reflexivity|].
  destruct (_iter r <? 0); [left; eexists; reflexivity|].
  destruct (_iter r >=? Z.of_nat (length (badChunks r)));
    [left; eexists; reflexivity|].
  destruct (badChunks r !! Z.to_nat (_iter r)) as [l|];
    [|left; eexists; reflexivity].
  run. destruct (heap s !! l) as [c|] eqn:Hc; [|left; eexists; reflexivity].
  destruct (removed c) eqn:Hr; [left; eexists; reflexivity|].
  right. exists l, c. done.
Qed.

(** C5.  When the cursor is on a chunk already marked as removed, [remove]
    answers 0 and does nothing but print one message: it sends no command to
    any shard, and the chunk objects, with their [removed] and [numRemoved],
    are as they were. *)
Theorem remove_is_idempotent (r : ScanResult) (s : Shell) (l : nat) (c : chunk) :
  result.current r = Some l →
  heap s !! l = Some c →
  removed c = true →
  ∃ m, result.remove r s = (Ret (0, r), with_trace (trace s ++ [EvPrint m]) s).
Proof.
  intros Hl Hc Hr. destruct (remove_cases r s) as [?|(l' & c' & Hl' & Hc' & Hr' & _)];
    [done|]. congruence.
Qed.

Lemma remove_is_idempotent_witness :
  result.current (with_iter 0 (found residue)) = Some 1%nat
  ∧ heap cleaned !! 1%nat
    = Some (set_removed 5 (set_orphan "A" 5 (mk_chunk "c2" (BNum 10) (BNum 20) "B")))
  ∧ removed (set_removed 5 (set_orphan "A" 5 (mk_chunk "c2" (BNum 10) (BNum 20) "B")))
    = true
  ∧ ∃ m, result.remove (with_iter 0 (found residue)) cleaned
         = (Ret (0, with_iter 0 (found residue)),
            with_trace (trace cleaned ++ [EvPrint m]) cleaned).
Proof.
  split; [by vm_compute|]. split; [by vm_compute|]. split; [reflexivity|].
  apply (remove_is_idempotent (with_iter 0 (found residue)) cleaned 1%nat
           (set_removed 5 (set_orphan "A" 5 (mk_chunk "c2" (BNum 10) (BNum 20) "B"))));
    by vm_compute.
Defined.

(** ** The batches of a removal *)

Lemma delete_ids_nil (docs : list doc) : delete_ids [] docs = docs.
Proof.
  unfold delete_ids. induction docs as [|d docs IH]; [done|].
  rewrite filter_cons_True by done. by rewrite IH.
Qed.

Lemma mem_Z_app (x : Z) (a b : list Z) :
  mem_Z x (a ++ b) = mem_Z x a || mem_Z x b.
Proof. apply existsb_app. Qed.

Lemma delete_ids_app (a b : list Z) (docs : list doc) :
  delete_ids b (delete_ids a docs) = delete_ids (a ++ b) docs.
Proof.
  unfold delete_ids. induction docs as [|d docs IH]; [done|].
  rewrite !filter_cons, mem_Z_app.
  destruct (mem_Z (doc_id d) a) eqn:Ha; cbn.
  - repeat case_decide; try done.
  - destruct (mem_Z (doc_id d) b) eqn:Hb; repeat case_decide; try done.
    + rewrite filter_cons, Hb. case_decide; [done|]. apply IH.
    + rewrite filter_cons, Hb. case_decide; [|done]. by rewrite IH.
Qed.

Lemma deleted_from_nil (shard ns : string) (s s' : Shell) :
  collection s' = collection s → deleted_from shard ns [] s s'.
Proof.
  intros H sh n. rewrite H, delete_ids_nil. by case_decide.
Qed.

Lemma deleted_from_trans (shard ns : string) (a b : list Z) (s1 s2 s3 : Shell) :
  deleted_from shard ns a s1 s2 → deleted_from shard ns b s2 s3 →
  deleted_from shard ns (a ++ b) s1 s3.
Proof.
  intros H1 H2 sh n. rewrite H2, H1. case_decide; [|done].
  apply delete_ids_app.
Qed.

Lemma batches_outcome_more (shard ns : string) (cnt : Z) (a done : list Z)
    (pre evs : list event) (o : outcome (Z * option string)) :
  Forall (λ e, error_report e = false) pre →
  batches_outcome shard ns (cnt + Z.of_nat (length a)) done evs o →
  batches_outcome shard ns cnt (a ++ done) (pre ++ evs) o.
Proof.
  intros Hpre. destruct o as [[n [e|]]|m|]; cbn; rewrite ?length_app.
  - intros [-> (evs0 & ids & -> & H0)]. split; [lia|].
    exists (pre ++ evs0), ids. rewrite <- (assoc app). split; [done|].
    by apply Forall_app.
  - intros [-> H]. split; [lia|]. by apply Forall_app.
  - intros H. by apply Forall_app.
  - done.
Qed.

Lemma batches_post_quit (shard ns : string) (acc toRemove : list Z) (cnt : Z)
    (s s1 : Shell) (o : outcome (Z * option string)) (evs : list event) :
  trace s1 = trace s ++ evs →
  heap s1 = heap s →
  collection s1 = collection s →
  Forall (λ e, is_print e = false) evs →
  batches_outcome shard ns cnt [] evs o →
  (∀ n, o = Ret (n, None) → toRemove = []) →
  batches_post shard ns acc toRemove cnt s (o, s1).
Proof.
  intros Ht1 Hh1 Hc1 Hp1 Ho1 Hn. exists evs, [], (acc ++ toRemove).
  repeat split; try done; [by apply deleted_from_nil|].
  intros n Hret Hne. by destruct (Hn n Hret).
Qed.

Lemma batches_post_sent (shard ns : string) (ids toRemove : list Z) (cnt : Z)
    (s s1 : Shell) (p : outcome (Z * option string) * Shell)
    (pre : list event) :
  trace s1 = trace s ++ pre →
  heap s1 = heap s →
  deleted_from shard ns ids s s1 →
  Forall (λ e, is_print e = false) pre →
  Forall (λ e, error_report e = false) pre →
  batches_post shard ns [] toRemove (cnt + Z.of_nat (length ids)) s1 p →
  ∀ acc id, ids = acc ++ [id] →
  batches_post shard ns acc (id :: toRemove) cnt s p.
Proof.
  intros Ht1 Hh1 Hd1 Hp1 He1
    (evs & done & rest & Ht & Hh & Hsplit & Hc & Hp & Ho & Hn) acc id ->.
  exists (pre ++ evs), ((acc ++ [id]) ++ done), rest.
  split; [by rewrite Ht, Ht1, <- (assoc app)|].
  split; [congruence|].
  split; [cbn in Hsplit; by rewrite Hsplit, <- !(assoc app)|].
  split; [by eapply deleted_from_trans|].
  split; [by apply Forall_app|].
  split; [by apply batches_outcome_more|].
  intros n Hret _. destruct toRemove as [|x toRemove].
  - symmetry in Hsplit. by apply app_eq_nil in Hsplit as [_ ->].
  - by apply (Hn n).
Qed.

Lemma remove_batches_spec (shard ns : string) (toRemove : list Z) :
  ∀ (acc : list Z) (cnt : Z) (s : Shell),
    batches_post shard ns acc toRemove cnt s
      (result.remove_batches shard ns toRemove acc cnt s).
Proof.
  induction toRemove as [|id rest' IH]; intros acc cnt s.
  { apply (batches_post_quit _ _ _ _ _ _ _ _ []); try done;
      cbn; rewrite ?app_nil_r; try done. split; [lia|done]. }
  cbn [result.remove_batches].
  destruct (_ || _) eqn:Hcond.
  2:{ destruct (IH (acc ++ [id]) cnt s)
        as (evs & done & rest & Ht & Hh & Hsplit & Hc & Hp & Ho & Hn).
      exists evs, done, rest. rewrite <- (assoc app) in Hsplit.
      repeat split; try done. intros n Hret _. apply (Hn n Hret).
      apply orb_false_iff in Hcond as [_ Hcond].
      apply andb_false_iff in Hcond as [Hcond|Hcond].
      - by apply bool_decide_eq_false in Hcond.
      - rewrite length_app, Z.gtb_ltb in Hcond. apply Z.ltb_ge in Hcond.
        cbn in Hcond. lia. }
  unfold result.balancer_check, remove_ids. run.
  destruct (_balancerParanoia s) eqn:Hpar; run.
  - destruct (balancerAt s (probes s)).1 eqn:Hen; run.
    + apply (batches_post_quit _ _ _ _ _ _ _ _ [EvBalancerState true]);
        try done; repeat constructor.
    + destruct (balancerAt s (S (probes s))).2 eqn:Hrun; run.
      * apply (batches_post_quit _ _ _ _ _ _ _ _
                 [EvBalancerState false; EvBalancerRunning true]);
          try done; cbn; rewrite <- ?(assoc app); try done; repeat constructor.
      * destruct (deleteErrorAt s (deletes s)) as [e|] eqn:Herr; run.
        -- apply (batches_post_quit _ _ _ _ _ _ _ _
                    [EvBalancerState false; EvBalancerRunning false;
                     EvDelete shard ns (acc ++ [id]); EvGetLastError (Some e)]);
             try done; cbn; rewrite <- ?(assoc app); try done;
             [repeat constructor|].
           split; [lia|].
           exists [EvBalancerState false; EvBalancerRunning false], (acc ++ [id]).
           split; [done|]. repeat constructor.
        -- eapply (batches_post_sent _ _ _ _ _ _ _ _
                     [EvBalancerState false; EvBalancerRunning false;
                      EvDelete shard ns (acc ++ [id]); EvGetLastError None]);
             [| | | | |apply IH|reflexivity];
             cbn; rewrite <- ?(assoc app); try done; repeat constructor.
  - destruct (deleteErrorAt s (deletes s)) as [e|] eqn:Herr; run.
    + apply (batches_post_quit _ _ _ _ _ _ _ _
               [EvDelete shard ns (acc ++ [id]); EvGetLastError (Some e)]);
        try done; cbn; rewrite <- ?(assoc app); try done;
        [repeat constructor|].
      split; [lia|]. exists [], (acc ++ [id]). split; [done|]. constructor.
    + eapply (batches_post_sent _ _ _ _ _ _ _ _
                [EvDelete shard ns (acc ++ [id]); EvGetLastError None]);
        [| | | | |apply IH|reflexivity];
        cbn; rewrite <- ?(assoc app); try done; repeat constructor.
Qed.

Lemma remove_found_spec (r : ScanResult) (l : nat) (c : chunk) (s : Shell) :
  remove_post r l c s (remove_found r l c s).
Proof.
  unfold remove_found, result.connection_of. run.
  destruct (orphanedOn c) as [shard|] eqn:Hon; run.
  2:{ eexists [_]. split; [done|]. cbn. split; [done|]. repeat constructor. }
  destruct (bool_decide (shard ∈ connections r)); run.
  2:{ eexists [_]. split; [done|]. cbn. split; [done|]. repeat constructor. }
  unfold range_ids. run.
  match goal with
  | |- context [result.remove_batches ?sh ?ns ?t ?a ?n ?s1] =>
      pose proof (remove_batches_spec sh ns t a n s1) as Hb;
      destruct (result.remove_batches sh ns t a n s1) as [o s2]
  end.
  destruct Hb as (evs & done & rest & Ht & Hh & Hsplit & Hc & Hp & Ho & Hn).
  cbn in Ht, Hh, Hsplit, Ho, Hn.
  assert (Hd : deleted_from shard (namespace r) done s s2) by exact Hc.
  clear Hc. rewrite <- !(assoc app) in Ht.
  assert (Hpre : ∀ m lo hi,
    Forall (λ e, error_report e = false)
      ([EvPrint m] ++ [EvRangeIds shard (namespace r) lo hi])).
  { intros. repeat constructor. }
  destruct o as [[n [e|]]|m|]; cbn in Ho; run.
  - destruct Ho as [-> (evs0 & ids & -> & He0)].
    eexists. split; [rewrite Ht, <- !(assoc app); reflexivity|]. cbn.
    split; [done|]. exists shard, done, rest.
    repeat split; try done. left. split; [done|].
    eexists (_ :: _ :: evs0), ids, e. split; [done|].
    repeat constructor. done.
  - destruct Ho as [-> He]. unfold update_obj. run.
    eexists. split; [rewrite Ht, <- !(assoc app); reflexivity|]. cbn.
    split; [done|]. exists shard, done, rest.
    replace (0 + Z.of_nat (length done)) with (Z.of_nat (length done)) by lia.
    repeat split; try done.
    right. rewrite Hh. split; [done|]. split.
    + destruct (decide (done ++ rest = [])) as [Hnil|Hnil].
      * by apply app_eq_nil in Hnil as [_ ->].
      * apply (Hn _ eq_refl). by rewrite Hsplit.
    + repeat constructor. apply Forall_app. split; [done|]. repeat constructor.
  - eexists. cbn [fst snd]. split; [rewrite Ht; reflexivity|]. split; [done|].
    repeat constructor. done.
  - done.
Qed.

(** C9.  When a bulk delete of [remove] reports an error, that delete and
    its error report are the last commands of the call: the error is printed
    and nothing follows.  The chunk objects are untouched, so the chunk is
    not marked as removed and no count is recorded on it.  The call answers
    with the number [n] of identifiers deleted by the batches before the
    failing one, and those documents, the first [n] the shard held within
    the bounds of the chunk, are gone from the shard. *)
Theorem remove_stops_at_delete_error (r : ScanResult) (s : Shell)
    (evs : list event) (e : string) :
  trace (run_state (result.remove r) s) = trace s ++ evs →
  EvGetLastError (Some e) ∈ evs →
  ∃ l c shard n evs0 ids,
    result.current r = Some l ∧ heap s !! l = Some c
    ∧ removed c = false ∧ orphanedOn c = Some shard
    ∧ run_out (result.remove r) s = Ret (n, r)
    ∧ evs = evs0 ++ [EvDelete shard (namespace r) ids;
                     EvGetLastError (Some e); EvPrint (MsgError e)]
    ∧ Forall (λ e, error_report e = false) evs0
    ∧ heap (run_state (result.remove r) s) = heap s
    ∧ 0 ≤ n
    ∧ deleted_from shard (namespace r)
        (take (Z.to_nat n) (ids_in_chunk s shard (namespace r) c))
        s (run_state (result.remove r) s).
Proof.
  unfold run_out, run_state. intros Ht He.
  assert (Hno : ∀ evs', Forall (λ e, error_report e = false) evs' →
                        evs = evs' → False).
  { intros evs' Hall ->. rewrite Forall_forall in Hall.
    by specialize (Hall _ He). }
  destruct (remove_cases r s) as [[m Hm]|(l & c & Hl & Hc & Hr & Hfound)].
  { rewrite Hm in Ht. cbn in Ht. apply app_inv_head in Ht.
    destruct (Hno [EvPrint m]); [repeat constructor|done]. }
  rewrite Hfound in *. clear Hfound.
  destruct (remove_found_spec r l c s) as (evs' & Ht' & Hout).
  rewrite Ht in Ht'. apply app_inv_head in Ht'. subst evs'.
  destruct (remove_found r l c s) as [o s']. cbn [fst snd] in *.
  destruct o as [[n r']|m|]; [|destruct Hout as [_ Hall]; by destruct (Hno evs)|done].
  destruct Hout as (-> & shard & done & rest & Hon & Hids & -> & Hdel & Hcase).
  destruct Hcase as [(Hh & evs0 & ids & e' & -> & Hall)|(_ & _ & Hall)];
    [|by destruct (Hno evs)].
  assert (e' = e) as ->.
  { rewrite Forall_forall in Hall.
    apply elem_of_app in He as [He|He]; [by specialize (Hall _ He)|].
    rewrite !elem_of_cons, elem_of_nil in He.
    destruct He as [?|[?|[?|[]]]]; congruence. }
  exists l, c, shard, (Z.of_nat (length done)), evs0, ids.
  repeat split; try done; [lia|].
  by rewrite Nat2Z.id, Hids, take_app_length.
Qed.

Lemma remove_stops_at_delete_error_witness :
  trace (run_state (result.remove (with_iter 0 (found second_delete_fails)))
                   (scanned second_delete_fails))
  = trace (scanned second_delete_fails) ++ failed_removal
  ∧ EvGetLastError (Some "boom"%string) ∈ failed_removal
  ∧ ∃ l c shard n evs0 ids,
      result.current (with_iter 0 (found second_delete_fails)) = Some l
      ∧ heap (scanned second_delete_fails) !! l = Some c
      ∧ removed c = false ∧ orphanedOn c = Some shard
      ∧ run_out (result.remove (with_iter 0 (found second_delete_fails)))
                (scanned second_delete_fails)
        = Ret (n, with_iter 0 (found second_delete_fails))
      ∧ failed_removal
        = evs0 ++ [EvDelete shard (namespace (with_iter 0 (found second_delete_fails))) ids;
                   EvGetLastError (Some "boom"%string);
                   EvPrint (MsgError "boom"%string)]
      ∧ Forall (λ e, error_report e = false) evs0
      ∧ heap (run_state (result.remove (with_iter 0 (found second_delete_fails)))
                        (scanned second_delete_fails))
        = heap (scanned second_delete_fails)
      ∧ 0 ≤ n
      ∧ deleted_from shard (namespace (with_iter 0 (found second_delete_fails)))
          (take (Z.to_nat n)
             (ids_in_chunk (scanned second_delete_fails) shard
                (namespace (with_iter 0 (found second_delete_fails))) c))
          (scanned second_delete_fails)
          (run_state (result.remove (with_iter 0 (found second_delete_fails)))
                     (scanned second_delete_fails)).
Proof.
  split; [by vm_compute|].
  split; [apply (list_elem_of_lookup_2 _ 9%nat); by vm_compute|].
  apply (remove_stops_at_delete_error (with_iter 0 (found second_delete_fails))
           (scanned second_delete_fails) failed_removal "boom"%string).
  - by vm_compute.
  - apply (list_elem_of_lookup_2 _ 9%nat). by vm_compute.
Defined.

(** On [second_delete_fails] the first batch of a hundred is deleted, the
    second fails, and [remove] answers 100: shard A keeps one document of
    the chunk, and the chunk is not marked as removed. *)
Example remove_on_second_delete_fails :
  (run_out (result.remove (with_iter 0 (found second_delete_fails)))
           (scanned second_delete_fails)
   = Ret (100, with_iter 0 (found second_delete_fails)))
  ∧ length (collection (scanned second_delete_fails) "A" orders) = 101%nat
  ∧ collection (run_state (result.remove (with_iter 0 (found second_delete_fails)))
                          (scanned second_delete_fails)) "A" orders
    = [Doc 200 (BNum 12)]
  ∧ (removed <$> heap (run_state (result.remove (with_iter 0 (found second_delete_fails)))
                                 (scanned second_delete_fails)) !! 1%nat)
    = Some false.
Proof. by vm_compute. Qed.

(** C10.  A call of [remove] that returns leaves the result object as it
    was: [count], [shardCounts], the array [badChunks] and the cursor are
    unchanged.  Of the chunk objects it can only change the one under the
    cursor, and of that one only [removed] and [numRemoved]. *)
Theorem remove_frame (r r' : ScanResult) (s : Shell) (n : Z) :
  run_out (result.remove r) s = Ret (n, r') →
  count r' = count r ∧ shardCounts r' = shardCounts r
  ∧ badChunks r' = badChunks r ∧ _iter r' = _iter r
  ∧ length (heap (run_state (result.remove r) s)) = length (heap s)
  ∧ ∀ l c, heap s !! l = Some c →
      ∃ c', heap (run_state (result.remove r) s) !! l = Some c'
            ∧ same_orphan c c'
            ∧ (result.current r ≠ Some l → c' = c).
Proof.
  unfold run_out, run_state. intros Hret.
  destruct (remove_cases r s) as [[m Hm]|(l0 & c0 & Hl0 & Hc0 & Hr0 & Hfound)].
  { rewrite Hm in *. cbn in *. injection Hret as _ <-.
    repeat split; try done. intros l c Hc. exists c. by repeat split. }
  rewrite Hfound in *. clear Hfound.
  destruct (remove_found_spec r l0 c0 s) as (evs & _ & Hout).
  destruct (remove_found r l0 c0 s) as [o s']. cbn [fst snd] in *. subst o.
  destruct Hout as (-> & shard & done & rest & _ & _ & _ & _ & Hcase).
  destruct Hcase as [(Hh & _)|(Hh & _)]; rewrite Hh.
  { repeat split; try done. intros l c Hc. exists c. by repeat split. }
  rewrite length_alter. repeat split; try done.
  intros l c Hc. destruct (decide (l = l0)) as [->|Hne].
  - rewrite list_lookup_alter_eq, Hc. eexists. split; [done|].
    split; [by repeat split|]. congruence.
  - rewrite list_lookup_alter_ne by done. exists c. by repeat split.
Qed.

Lemma remove_frame_witness :
  run_out (result.remove (with_iter 0 (found residue))) (scanned residue)
  = Ret (5, with_iter 0 (found residue))
  ∧ count (with_iter 0 (found residue)) = count (with_iter 0 (found residue))
  ∧ shardCounts (with_iter 0 (found residue))
    = shardCounts (with_iter 0 (found residue))
  ∧ badChunks (with_iter 0 (found residue))
    = badChunks (with_iter 0 (found residue))
  ∧ _iter (with_iter 0 (found residue)) = _iter (with_iter 0 (found residue))
  ∧ length (heap (run_state (result.remove (with_iter 0 (found residue)))
                            (scanned residue)))
    = length (heap (scanned residue))
  ∧ ∀ l c, heap (scanned residue) !! l = Some c →
      ∃ c', heap (run_state (result.remove (with_iter 0 (found residue)))
                            (scanned residue)) !! l = Some c'
            ∧ same_orphan c c'
            ∧ (result.current (with_iter 0 (found residue)) ≠ Some l → c' = c).
Proof.
  split; [by vm_compute|].
  apply (remove_frame (with_iter 0 (found residue)) (with_iter 0 (found residue))
           (scanned residue) 5).
  by vm_compute.
Defined.

(** ** The balancer check as a fence *)

Lemma fenced_app (a b : list event) :
  fenced a → calm a → fenced b → fenced (a ++ b).
Proof.
  intros Ha. induction Ha as [|e evs H1 H2 Ha IH|shard ns ids evs Ha IH|e He];
    intros Hcalm Hb; cbn.
  - done.
  - apply fenced_quiet; try done. apply IH; [|done]. by inversion Hcalm.
  - apply fenced_batch. apply IH; [|done].
    inversion Hcalm as [|? ? _ Hc1]. inversion Hc1 as [|? ? _ Hc2].
    by inversion Hc2.
  - inversion Hcalm. congruence.
Qed.

Lemma fenced_active_last (evs pre post : list event) (p : event) :
  fenced evs → evs = pre ++ p :: post → balancer_active p = true → post = [].
Proof.
  intros H. revert pre.
  induction H as [|e evs H1 H2 Ha IH|shard ns ids evs Ha IH|e He];
    intros pre Heq Hp.
  - by destruct pre.
  - destruct pre as [|x pre]; cbn in Heq.
    + injection Heq as -> _. congruence.
    + injection Heq as _ Heq. by eapply IH.
  - destruct pre as [|x [|y [|z pre]]]; cbn in Heq;
      try (injection Heq as <-; intros; discriminate);
      try (injection Heq as _ <-; intros; discriminate);
      try (injection Heq as _ _ <-; intros; discriminate).
    injection Heq as _ _ _ Heq. by eapply IH.
  - destruct pre as [|x pre]; cbn in Heq.
    + by injection Heq as _ <-.
    + injection Heq as _ Heq. by destruct pre.
Qed.

Lemma fenced_delete_checked (evs pre post : list event)
    (shard ns : string) (ids : list Z) :
  fenced evs → evs = pre ++ EvDelete shard ns ids :: post →
  ∃ pre', pre = pre' ++ [EvBalancerState false; EvBalancerRunning false].
Proof.
  intros H. revert pre.
  induction H as [|e evs H1 H2 Ha IH|sh n i evs Ha IH|e He]; intros pre Heq.
  - by destruct pre.
  - destruct pre as [|x pre]; cbn in Heq.
    + injection Heq as Heq _. subst e. discriminate.
    + injection Heq as _ Heq. destruct (IH _ Heq) as [pre' ->].
      by exists (x :: pre').
  - destruct pre as [|x [|y [|z pre]]]; cbn in Heq; try discriminate.
    + injection Heq as Hx Hy _. subst x y. by exists [].
    + injection Heq as Hx Hy Hz Heq. subst x y z.
      destruct (IH _ Heq) as [pre' ->].
      by exists (EvBalancerState false :: EvBalancerRunning false
                 :: EvDelete sh n i :: pre').
  - destruct pre as [|x pre]; cbn in Heq.
    + injection Heq as Heq _. subst e. discriminate.
    + injection Heq as _ Heq. by destruct pre.
Qed.

Lemma calm_no_active (evs pre post : list event) (p : event) :
  calm evs → evs = pre ++ p :: post → balancer_active p = true → False.
Proof.
  intros Hc -> Hp. apply Forall_app in Hc as [_ Hc].
  inversion Hc. congruence.
Qed.

Lemma flags_kept_refl (h : list chunk) : flags_kept h h.
Proof. intros l c Hc Hr. eauto. Qed.

Lemma flags_kept_trans (h1 h2 h3 : list chunk) :
  flags_kept h1 h2 → flags_kept h2 h3 → flags_kept h1 h3.
Proof.
  intros H12 H23 l c Hc Hr. destruct (H12 l c Hc Hr) as (c' & Hc' & Hr').
  by apply (H23 l c').
Qed.

Lemma guarded_still {A : Type} (o : outcome A) :
  guarded (λ s, (o, s)).
Proof.
  intros s Hp. exists []. cbn. rewrite app_nil_r.
  repeat split; try done; [constructor|left; constructor|apply flags_kept_refl].
Qed.

Lemma guarded_ret {A : Type} (a : A) : guarded (mret a).
Proof. apply guarded_still. Qed.

Lemma guarded_read {A : Type} (f : Shell → A) : guarded (read f).
Proof.
  intros s Hp. exists []. cbn. rewrite app_nil_r.
  repeat split; try done; [constructor|left; constructor|apply flags_kept_refl].
Qed.

Lemma guarded_emit (e : event) :
  balancer_active e = false → is_delete e = false → guarded (emit e).
Proof.
  intros H1 H2 s Hp. exists [e]. cbn.
  repeat split; try done;
    [by repeat constructor|left; by repeat constructor|apply flags_kept_refl].
Qed.

Lemma guarded_print (m : message) : guarded (print m).
Proof. by apply guarded_emit. Qed.

Lemma guarded_bind {A B : Type} (m : M A) (f : A → M B) :
  guarded m → (∀ a, guarded (f a)) → guarded (m ≫= f).
Proof.
  intros Hm Hf s Hp. destruct (Hm s Hp) as (evs1 & Ht1 & Hf1 & Hc1 & Hp1 & Hk1).
  unfold mbind, M_bind. destruct (m s) as [[a|e|] s1]; cbn [fst snd] in *.
  - destruct Hc1 as [Hc1|?]; [|done].
    destruct (Hf a s1 Hp1) as (evs2 & Ht2 & Hf2 & Hc2 & Hp2 & Hk2).
    exists (evs1 ++ evs2). rewrite Ht2, Ht1, <- (assoc app).
    repeat split; try done.
    + by apply fenced_app.
    + destruct Hc2 as [Hc2|Hc2]; [left|by right]. by apply Forall_app.
    + by eapply flags_kept_trans.
  - exists evs1. repeat split; try done.
    destruct Hc1 as [?|Hc1]; [by left|right]. by injection Hc1 as ->.
  - exists evs1. repeat split; try done. destruct Hc1 as [?|?]; [by left|done].
Qed.

Lemma guarded_update_removed (l : nat) (n : Z) :
  guarded (update_obj l (set_removed n)).
Proof.
  intros s Hp. exists []. cbn. rewrite app_nil_r.
  repeat split; try done; [constructor|left; constructor|].
  intros l' c Hc Hr. destruct (decide (l = l')) as [->|Hne].
  - rewrite list_lookup_alter_eq, Hc. by eexists.
  - rewrite list_lookup_alter_ne by done. eauto.
Qed.

(** One batch: the check, the bulk delete and its error report, and then
    whatever the loop does with the report. *)
Lemma guarded_batch {A : Type} (shard ns : string) (ids : list Z)
    (k : option string → M A) :
  (∀ e, guarded (k e)) →
  guarded (paranoia ← read _balancerParanoia;
           (if paranoia : bool then result.balancer_check else mret ());;
           remove_ids shard ns ids;;
           error ← getLastError;
           k error).
Proof.
  intros Hk s Hp. unfold result.balancer_check, remove_ids. run.
  rewrite Hp. run.
  destruct (balancerAt s (probes s)).1; run.
  { exists [EvBalancerState true]. repeat split; try done;
      [by apply fenced_halt|by right|apply flags_kept_refl]. }
  destruct (balancerAt s (S (probes s))).2; run.
  { exists [EvBalancerState false; EvBalancerRunning true].
    rewrite <- (assoc app).
    repeat split; try done;
      [apply fenced_quiet; try done; by apply fenced_halt
      |by right|apply flags_kept_refl]. }
  match goal with
  | |- context [k ?e ?s1] =>
      destruct (Hk e s1 Hp) as (evs & Ht & Hf & Hc & Hp' & Hkept);
      destruct (k e s1) as [o s2]
  end.
  cbn [fst snd] in *.
  exists ([EvBalancerState false; EvBalancerRunning false;
           EvDelete shard ns ids;
           EvGetLastError (deleteErrorAt s (deletes s))] ++ evs).
  assert (Hout : (match o with
                  | Ret a => (Ret a, s2)
                  | Throw e => (Throw e, s2)
                  | OutOfFuel => (OutOfFuel, s2)
                  end : outcome A * Shell) = (o, s2)) by by destruct o.
  destruct (deleteErrorAt s (deletes s)) as [e|]; run;
    cbn in Ht; rewrite ?Hout; cbn [fst snd]; rewrite Ht, <- !(assoc app);
    (repeat split; try done;
     [apply fenced_batch; by apply fenced_quiet
     |destruct Hc as [Hc|Hc]; [left|by right]; by repeat constructor]).
Qed.

Lemma guarded_remove_batches (shard ns : string) (toRemove : list Z) :
  ∀ (acc : list Z) (cnt : Z),
    guarded (result.remove_batches shard ns toRemove acc cnt).
Proof.
  induction toRemove as [|id rest IH]; intros acc cnt; cbn [result.remove_batches].
  - apply guarded_ret.
  - destruct (_ || _); [|apply IH].
    apply guarded_batch. intros [e|]; [apply guarded_ret|apply IH].
Qed.

Lemma guarded_range_ids (shard ns : string) (lo hi : bson) :
  guarded (range_ids shard ns lo hi).
Proof.
  unfold range_ids. apply guarded_bind; [by apply guarded_emit|]. intros _.
  apply guarded_bind; [apply guarded_read|]. intros docs. apply guarded_ret.
Qed.

Lemma guarded_connection_of (r : ScanResult) (shard : option string) :
  guarded (result.connection_of r shard).
Proof.
  unfold result.connection_of. destruct shard as [sh|]; [|apply guarded_still].
  destruct (bool_decide _); [apply guarded_ret|apply guarded_still].
Qed.

Lemma guarded_remove (r : ScanResult) : guarded (result.remove r).
Proof.
  unfold result.remove.
  repeat (match goal with
          | |- guarded (if ?b then _ else _) => destruct b
          | |- guarded (match ?o with Some _ => _ | None => _ end) =>
              destruct o
          | |- guarded (mbind _ _) => apply guarded_bind; [|intros ?]
          | |- guarded (let '(_, _) := ?p in _) => destruct p
          end);
    auto using guarded_print, guarded_ret, guarded_read, guarded_range_ids,
      guarded_connection_of, guarded_remove_batches, guarded_update_removed.
Qed.

Lemma guarded_pause (secs : option Z) : guarded (result.pause secs).
Proof.
  unfold result.pause. destruct secs as [x|]; [|apply guarded_ret].
  destruct (x =? 0); [apply guarded_ret|by apply guarded_emit].
Qed.

Lemma guarded_removeAll_loop (secs : option Z) (fuel : nat) :
  ∀ (r : ScanResult) (num : Z),
    guarded (result.removeAll_loop fuel secs r num).
Proof.
  induction fuel as [|fuel IH]; intros r num; cbn [result.removeAll_loop];
    (destruct (result.hasNext r); [|apply guarded_ret]).
  - apply guarded_still.
  - apply guarded_bind; [apply guarded_ret|]. intros [x r1].
    apply guarded_bind; [apply guarded_remove|]. intros [n r2].
    apply guarded_bind; [apply guarded_pause|]. intros _. apply IH.
Qed.

(** C7.  With balancer paranoia on, in a run of [removeAll]: a balancer
    probe that finds the balancer enabled or running is the last thing the
    run does, and the run ends in the exception "Balancer unexpectedly
    enabled"; every bulk delete directly follows a probe of the balancer
    state and a probe of the balancer activity that both found it stopped;
    and every chunk object marked as removed before the run is still marked
    after it. *)
Theorem removeAll_halts_when_balancer_active (fuel : nat) (secs : option Z)
    (r : ScanResult) (s : Shell) :
  _balancerParanoia s = true →
  ∃ evs,
    trace (run_state (result.removeAll fuel secs r) s) = trace s ++ evs
    ∧ (∀ pre p post,
         evs = pre ++ p :: post → balancer_active p = true →
         post = []
         ∧ run_out (result.removeAll fuel secs r) s = Throw balancer_msg)
    ∧ (∀ pre shard ns ids post,
         evs = pre ++ EvDelete shard ns ids :: post →
         ∃ pre', pre = pre' ++ [EvBalancerState false; EvBalancerRunning false])
    ∧ (∀ l c, heap s !! l = Some c → removed c = true →
         ∃ c', heap (run_state (result.removeAll fuel secs r) s) !! l = Some c'
               ∧ removed c' = true).
Proof.
  intros Hp. unfold run_state, run_out, result.removeAll.
  destruct (guarded_removeAll_loop secs fuel (result.rewind r) 0 s Hp)
    as (evs & Ht & Hf & Hc & _ & Hk).
  exists evs. split; [done|]. split; [|split; [|done]].
  - intros pre p post Heq Hact. split; [by eapply fenced_active_last|].
    destruct Hc as [Hc|Hc]; [|done]. by destruct (calm_no_active _ _ _ _ Hc Heq).
  - intros pre shard ns ids post Heq. by eapply fenced_delete_checked.
Qed.

Lemma removeAll_halts_when_balancer_active_witness :
  _balancerParanoia (scanned balancer_returns) = true
  ∧ ∃ evs,
      trace (run_state (result.removeAll 2 None (found balancer_returns))
                       (scanned balancer_returns))
      = trace (scanned balancer_returns) ++ evs
      ∧ (∀ pre p post,
           evs = pre ++ p :: post → balancer_active p = true →
           post = []
           ∧ run_out (result.removeAll 2 None (found balancer_returns))
                     (scanned balancer_returns)
             = Throw balancer_msg)
      ∧ (∀ pre shard ns ids post,
           evs = pre ++ EvDelete shard ns ids :: post →
           ∃ pre', pre = pre' ++ [EvBalancerState false; EvBalancerRunning false])
      ∧ (∀ l c, heap (scanned balancer_returns) !! l = Some c →
           removed c = true →
           ∃ c', heap (run_state (result.removeAll 2 None (found balancer_returns))
                                 (scanned balancer_returns)) !! l = Some c'
                 ∧ removed c' = true).
Proof.
  split; [by vm_compute|].
  apply (removeAll_halts_when_balancer_active 2 None (found balancer_returns)
           (scanned balancer_returns)).
  by vm_compute.
Defined.

(** On [balancer_returns] the run deletes the orphans of the first bad
    chunk, finds the balancer enabled before the first batch of the second,
    and stops there with the first chunk still marked as removed. *)
Example removeAll_on_balancer_returns :
  run_out (result.removeAll 2 None (found balancer_returns))
          (scanned balancer_returns) = Throw balancer_msg
  ∧ drop (length (trace (scanned balancer_returns)))
         (trace (run_state (result.removeAll 2 None (found balancer_returns))
                           (scanned balancer_returns)))
    = [EvPrint (MsgRemoving "c2" (Some 2) (Some "A"%string));
       EvRangeIds "A" orders (BNum 10) (BNum 20);
       EvBalancerState false; EvBalancerRunning false;
       EvDelete "A" orders [101; 102]; EvGetLastError None;
       EvPrint (MsgRemoved 2 orders);
       EvPrint (MsgRemoving "c3" (Some 1) (Some "A"%string));
       EvRangeIds "A" orders (BNum 20) BMaxKey;
       EvBalancerState true]
  ∧ (removed <$> heap (run_state (result.removeAll 2 None (found balancer_returns))
                                 (scanned balancer_returns)) !! 1%nat)
    = Some true.
Proof. by vm_compute. Qed.

(** ** Removing every chunk *)

Lemma remove_returns_receiver (r r' : ScanResult) (s s' : Shell) (n : Z) :
  result.remove r s = (Ret (n, r'), s') → r' = r.
Proof.
  intros Hrem.
  destruct (remove_cases r s) as [[m Hm]|(l & c & _ & _ & _ & Hfound)].
  { rewrite Hm in Hrem. by injection Hrem as _ <- _. }
  rewrite Hfound in Hrem.
  destruct (remove_found_spec r l c s) as (evs & _ & Hout).
  rewrite Hrem in Hout. cbn in Hout. by destruct Hout as [-> _].
Qed.

Lemma remove_terminates (r : ScanResult) (s : Shell) :
  (result.remove r s).1 ≠ OutOfFuel.
Proof.
  destruct (remove_cases r s) as [[m Hm]|(l & c & _ & _ & _ & Hfound)].
  { by rewrite Hm. }
  rewrite Hfound.
  destruct (remove_found_spec r l c s) as (evs & _ & Hout).
  intros Hfuel. by rewrite Hfuel in Hout.
Qed.

Lemma removeAll_loop_each (secs : option Z) (fuel : nat) :
  ∀ (r : ScanResult) (s : Shell) (num : Z) (i : nat),
    _iter r = Z.of_nat i - 1 →
    (length (badChunks r) ≤ i + fuel)%nat →
    result.removeAll_loop fuel secs r num s =
      remove_each secs (seq i (length (badChunks r) - i)) r num s.
Proof.
  assert (Hstop : ∀ fuel r s num i,
    _iter r = Z.of_nat i - 1 → result.hasNext r = false →
    result.removeAll_loop fuel secs r num s =
      remove_each secs (seq i (length (badChunks r) - i)) r num s).
  { intros f r s num i Hi Hn. destruct f; cbn; rewrite Hn;
      apply hasNext_false in Hn;
      by replace (length (badChunks r) - i)%nat with 0%nat by lia. }
  induction fuel as [|fuel IH]; intros r s num i Hi Hfuel.
  - apply Hstop; [done|]. apply hasNext_false. lia.
  - destruct (result.hasNext r) eqn:Hn; [|by apply Hstop].
    cbn [result.removeAll_loop]. rewrite Hn. apply hasNext_true in Hn.
    replace (length (badChunks r) - i)%nat
      with (S (length (badChunks r) - S i)) by lia.
    cbn [seq remove_each]. unfold result.next. run.
    replace (_iter r + 1) with (Z.of_nat i) by lia.
    destruct (result.remove (with_iter (Z.of_nat i) r) s)
      as [[[n r2]|m|] s1] eqn:Hrem; [|done|done].
    apply remove_returns_receiver in Hrem as ->.
    destruct (result.pause secs s1) as [[[]|m|] s2]; [|done|done].
    rewrite (IH _ _ _ (S i)); cbn; [done|lia|lia].
Qed.

Lemma remove_each_terminates (secs : option Z) (positions : list nat) :
  ∀ (r : ScanResult) (s : Shell) (num : Z),
    (remove_each secs positions r num s).1 ≠ OutOfFuel.
Proof.
  induction positions as [|i rest IH]; intros r s num; [done|].
  cbn [remove_each]. run.
  pose proof (remove_terminates (with_iter (Z.of_nat i) r) s) as Hrem.
  destruct (result.remove (with_iter (Z.of_nat i) r) s) as [[[n r2]|m|] s1];
    [|done|done].
  unfold result.pause. destruct secs as [x|]; [destruct (x =? 0)|]; run; apply IH.
Qed.

(** C4, as the script has it.  [removeAll] starts by rewinding: wherever
    the cursor was, it calls [remove] once at each position of [badChunks],
    the first to the last, and answers with the sum of what the calls
    answered.  A call of [remove] that returns, as it does when a bulk
    delete reports an error, is followed by the next. *)
Theorem removeAll_removes_each (fuel : nat) (secs : option Z)
    (r : ScanResult) (s : Shell) :
  (length (badChunks r) ≤ fuel)%nat →
  result.removeAll fuel secs r s =
    remove_each secs (seq 0 (length (badChunks r))) (result.rewind r) 0 s
  ∧ run_out (result.removeAll fuel secs r) s ≠ OutOfFuel.
Proof.
  intros Hfuel. unfold run_out, result.removeAll.
  rewrite (removeAll_loop_each secs fuel _ s 0 0%nat); cbn; [|lia|lia].
  rewrite Nat.sub_0_r. split; [done|]. apply remove_each_terminates.
Qed.

Lemma removeAll_removes_each_witness :
  (length (badChunks (with_iter 0 (found residue))) ≤ 1)%nat
  ∧ result.removeAll 1 None (with_iter 0 (found residue)) (scanned residue)
    = remove_each None
        (seq 0 (length (badChunks (with_iter 0 (found residue)))))
        (result.rewind (with_iter 0 (found residue))) 0 (scanned residue)
  ∧ run_out (result.removeAll 1 None (with_iter 0 (found residue)))
            (scanned residue) ≠ OutOfFuel.
Proof.
  split; [by vm_compute|].
  apply (removeAll_removes_each 1 None (with_iter 0 (found residue))
           (scanned residue)).
  by vm_compute.
Defined.

(** C4, as stated, on [residue], with the cursor on its only bad chunk, so
    that no bad chunk lies after the cursor: [removeAll] goes back to the
    first one all the same, and deletes the five orphans of the chunk the
    cursor was on. *)
Lemma removeAll_from_cursor_counterexample :
  result.current (with_iter 0 (found residue)) = Some 1%nat
  ∧ result.hasNext (with_iter 0 (found residue)) = false
  ∧ run_out (result.removeAll 1 None (with_iter 0 (found residue)))
            (scanned residue)
    = Ret (5, with_iter 0 (found residue))
  ∧ EvDelete "A" orders [102; 103; 104; 105; 106]
    ∈ drop (length (trace (scanned residue))) (trace cleaned)
  ∧ (removed <$> heap (scanned residue) !! 1%nat) = Some false
  ∧ (removed <$> heap cleaned !! 1%nat) = Some true.
Proof.
  repeat split; try by vm_compute.
  apply (list_elem_of_lookup_2 _ 4%nat). by vm_compute.
Qed.

(** The scenario of three chunks with five orphans of the second on shard
    A: the scan finds five orphans in one bad chunk, on A; [removeAll]
    answers 5; and a second scan finds nothing. *)
Example residue_scanned_and_cleaned :
  count (found residue) = 5
  ∧ badChunks (found residue) = [1%nat]
  ∧ heap (scanned residue) !! 1%nat
    = Some (set_orphan "A" 5 (mk_chunk "c2" (BNum 10) (BNum 20) "B"))
  ∧ (∃ r, result.removeAll 1 None (found residue) (scanned residue)
          = (Ret (5, r), cleaned))
  ∧ count (found cleaned) = 0
  ∧ badChunks (found cleaned) = [].
Proof. repeat split; try by vm_compute. eexists. by vm_compute. Qed.

(** ** The order of the bad chunks *)

Lemma sign_of_le (x y : Z) : sign_of (x ?= y) ≤ 0 ↔ x ≤ y.
Proof. destruct (Z.compare_spec x y); cbn; lia. Qed.

Lemma bson_le_spec (a b : bson) :
  bson_le a b ↔
  bson_rank a < bson_rank b
  ∨ (bson_rank a = bson_rank b ∧ bson_val a ≤ bson_val b).
Proof.
  unfold bson_le. destruct a, b; cbn [bsonWoCompare]; rewrite sign_of_le; cbn; lia.
Qed.

Global Instance bson_le_refl : Reflexive bson_le.
Proof. intros a. apply bson_le_spec. lia. Qed.

Global Instance bson_le_trans : Transitive bson_le.
Proof. intros a b c. rewrite !bson_le_spec. lia. Qed.

Lemma bson_le_total (a b : bson) : bson_le a b ∨ bson_le b a.
Proof. rewrite !bson_le_spec. lia. Qed.

Lemma insert_by_min_sorted (c : chunk) (l : list chunk) :
  Sorted min_le l → Sorted min_le (insert_by_min c l).
Proof.
  induction 1 as [|d l Hl IH Hd]; cbn.
  - by repeat constructor.
  - destruct (Z.leb_spec (bsonWoCompare (chunk_min c) (chunk_min d)) 0) as [Hle|Hgt].
    + by repeat constructor.
    + constructor; [done|].
      assert (Hdc : min_le d c).
      { destruct (bson_le_total (chunk_min d) (chunk_min c)); [done|].
        unfold bson_le in *. lia. }
      destruct Hd as [|e l Hde]; cbn; [by constructor|].
      destruct (bsonWoCompare (chunk_min c) (chunk_min e) <=? 0); by constructor.
Qed.

Lemma sort_by_min_sorted (l : list chunk) :
  StronglySorted min_le (sort_by_min l).
Proof.
  apply Sorted_StronglySorted.
  { intros a b c. unfold min_le. apply bson_le_trans. }
  induction l as [|c l IH]; cbn; [constructor|]. by apply insert_by_min_sorted.
Qed.

Lemma bind_Ret_inv {A B : Type} (m : M A) (f : A → M B) (s s' : Shell) (b : B) :
  (m ≫= f) s = (Ret b, s') →
  ∃ a s1, m s = (Ret a, s1) ∧ f a s1 = (Ret b, s').
Proof.
  unfold mbind, M_bind. destruct (m s) as [[a|e|] s1]; [eauto|done|done].
Qed.

Lemma query_shards_spec (l : nat) (c : chunk) (shards : list string) :
  ∀ (r : ScanResult) (s : Shell) (c0 : chunk),
    heap s !! l = Some c0 → chunk_min c0 = chunk_min c →
    ∃ r' s' k c1,
      Orphans.query_shards l c shards r s = (Ret r', s')
      ∧ badChunks r' = badChunks r ++ replicate k l
      ∧ length (heap s') = length (heap s)
      ∧ (∀ l', l' ≠ l → heap s' !! l' = heap s !! l')
      ∧ heap s' !! l = Some c1 ∧ chunk_min c1 = chunk_min c.
Proof.
  induction shards as [|shard rest IH]; intros r s c0 Hc0 Hmin.
  { exists r, s, 0%nat, c0. cbn. by rewrite app_nil_r. }
  cbn [Orphans.query_shards].
  destruct (bool_decide _); [|by eapply IH].
  unfold range_count. run. destruct (_ >? 0).
  - unfold update_obj. run.
    match goal with
    | |- context [Orphans.query_shards l c rest ?r1 ?s1] =>
        edestruct (IH r1 s1)
          as (r' & s' & k & c1 & Hrun & Hbad & Hlen & Hother & Hl & Hmin')
    end.
    { cbn. by rewrite list_lookup_alter_eq, Hc0. }
    { done. }
    exists r', s', (S k), c1. rewrite Hrun. cbn in Hbad, Hlen, Hother.
    rewrite length_alter in Hlen.
    repeat split; try done.
    + by rewrite Hbad, <- (assoc app).
    + intros l' Hne. rewrite Hother by done. by apply list_lookup_alter_ne.
  - match goal with
    | |- context [Orphans.query_shards l c rest ?r1 ?s1] =>
        apply (IH r1 s1 c0); done
    end.
Qed.

Lemma check_seen_Ret (c : chunk) (r r1 : ScanResult) (s s1 : Shell) :
  Orphans.check_seen c r s = (Ret r1, s1) →
  badChunks r1 = badChunks r ∧ heap s1 = heap s.
Proof.
  unfold Orphans.check_seen. destruct (_ <? 0); run.
  - by intros [= <- <-].
  - destruct (_ <=? 0); run; [|done]. by intros [= <- <-].
Qed.

Lemma sorted_repeat_head (a b : list bson) (m : bson) (k : nat) :
  StronglySorted bson_le (a ++ m :: b) →
  StronglySorted bson_le ((a ++ replicate k m) ++ b).
Proof.
  rewrite <- (assoc app). rewrite !StronglySorted_app.
  intros (Hcross & Ha & Hmb). apply StronglySorted_cons in Hmb as [Hm Hb].
  rewrite Forall_forall in Hm.
  split; [|split; [done|split; [|split; [|done]]]].
  - intros x1 x2 Hx1 [[-> _]%elem_of_replicate|Hx2]%elem_of_app.
    + apply Hcross; [done|]. by left.
    + apply Hcross; [done|]. by right.
  - intros x1 x2 [-> _]%elem_of_replicate Hx2. by apply Hm.
  - induction k as [|k IH]; cbn; [constructor|]. constructor; [done|].
    apply Forall_forall. intros x Hx%elem_of_replicate. by destruct Hx as [-> _].
Qed.

Lemma scan_chunk_inv (precise : bool) (c : chunk) (r r' : ScanResult)
    (s s' : Shell) (todo : list bson) :
  scan_inv s r (chunk_min c :: todo) →
  Orphans.scan_chunk precise c r s = (Ret r', s') →
  scan_inv s' r' todo.
Proof.
  intros [Hvalid Hsorted]. unfold Orphans.scan_chunk, alloc. run.
  set (s0 := with_heap (heap s ++ [c]) s).
  intros (r1 & s1 & Hseen & Hquery)%bind_Ret_inv.
  assert (badChunks r1 = badChunks r ∧ heap s1 = heap s ++ [c]) as [Hbad1 Hheap1].
  { destruct precise; [by apply check_seen_Ret in Hseen|].
    by injection Hseen as <- <-. }
  destruct (query_shards_spec (length (heap s)) c (connections r1) r1 s1 c)
    as (r2 & s2 & k & c1 & Hrun & Hbad & Hlen & Hother & Hl & Hmin); [|done|].
  { rewrite Hheap1. by apply list_lookup_middle. }
  rewrite Hrun in Hquery. injection Hquery as <- <-.
  rewrite Hheap1, length_app in Hlen. cbn in Hlen.
  split.
  - rewrite Hbad, Hbad1, Hlen. apply Forall_app. split.
    + eapply Forall_impl; [done|]. cbn. lia.
    + apply Forall_forall. intros x [-> _]%elem_of_replicate. lia.
  - assert (bad_mins s2 r2 = bad_mins s r ++ replicate k (chunk_min c)) as ->;
      [|by apply sorted_repeat_head].
    unfold bad_mins. rewrite Hbad, Hbad1, fmap_app, fmap_replicate, Hl. cbn.
    rewrite Hmin. f_equal. apply Forall_fmap_ext.
    eapply Forall_impl; [done|]. cbn. intros l Hlt.
    rewrite Hother by lia. rewrite Hheap1. by rewrite lookup_app_l.
Qed.

Lemma scan_chunks_inv (precise : bool) (chunks : list chunk) :
  ∀ (r r' : ScanResult) (s s' : Shell),
    scan_inv s r (chunk_min <$> chunks) →
    Orphans.scan_chunks precise chunks r s = (Ret r', s') →
    scan_inv s' r' [].
Proof.
  induction chunks as [|c rest IH]; intros r r' s s' Hinv; cbn.
  - by intros [= <- <-].
  - intros (r1 & s1 & Hchunk & Hrest)%bind_Ret_inv.
    eapply IH; [|done]. by eapply scan_chunk_inv.
Qed.

Lemma sorted_mins (l : list chunk) :
  StronglySorted min_le l → StronglySorted bson_le (chunk_min <$> l).
Proof.
  induction 1 as [|c l Hl IH Hc]; cbn; constructor; [done|].
  by apply Forall_fmap.
Qed.

Lemma find_scan_inv (ns : string) (s s' : Shell) (r : ScanResult) :
  Orphans.find ns s = (Ret r, s') → scan_inv s' r [].
Proof.
  unfold Orphans.find. intros Hfind.
  repeat (apply bind_Ret_inv in Hfind as (? & ? & ? & Hfind)).
  injection Hfind as <- <-.
  match goal with
  | Hc : list_chunks _ _ = _, Hs : Orphans.scan_chunks _ _ _ _ = _,
    Hp : (if _ then _ else _) _ = (Ret _, ?s2) |- scan_inv ?s2 ?r2 [] =>
      assert (Hinv : ∃ s1, heap s2 = heap s1 ∧ scan_inv s1 r2 [])
  end.
  { eexists. split; [|eapply scan_chunks_inv; [|done]].
    - match goal with
      | Hp : (if ?b then _ else _) _ = _ |- _ =>
          destruct b; revert Hp; run; by intros [= _ <-]
      end.
    - match goal with
      | Hc : list_chunks _ _ = _ |- _ =>
          revert Hc; unfold list_chunks; run; intros [= <- _]
      end.
      split; [constructor|]. cbn. apply sorted_mins, sort_by_min_sorted. }
  destruct Hinv as (s1 & Hheap & Hvalid & Hsorted).
  split; [by rewrite Hheap|]. unfold bad_mins in *. by rewrite Hheap.
Qed.

(** C8.  [hasNext] holds exactly when [badChunks] has an entry after the
    cursor.  Rewinding and then calling [next] while [hasNext] holds, as
    [listAll] does, visits the entries of [badChunks] once each, first to
    last, and leaves the chunk objects alone, so that doing it again visits
    the same entries in the same order.  In a result of [Orphans.find] that
    order is the order of the lower bounds of the chunks: [badChunks] is
    filled as the chunks arrive, sorted on [min]. *)
Theorem iteration_visits_each_once (fuel : nat) (pretty : bool)
    (r : ScanResult) (s : Shell) :
  -1 ≤ _iter r →
  (length (badChunks r) ≤ fuel)%nat →
  (result.hasNext r = true ↔
   ∃ (j : nat) (l : nat), _iter r < Z.of_nat j ∧ badChunks r !! j = Some l)
  ∧ (∃ s1 s2,
       result.listAll fuel pretty r s = (Ret (result.rewind r), s1)
       ∧ trace s1 = trace s ++
           ((λ l, EvPrint (MsgJson pretty (heap s !! l))) <$> badChunks r)
       ∧ result.listAll fuel pretty (result.rewind r) s1
         = (Ret (result.rewind r), s2)
       ∧ trace s2 = trace s1 ++
           ((λ l, EvPrint (MsgJson pretty (heap s !! l))) <$> badChunks r))
  ∧ (∀ ns s0, Orphans.find ns s0 = (Ret r, s) →
       Forall (λ l, is_Some (heap s !! l)) (badChunks r)
       ∧ StronglySorted bson_le (bad_mins s r)).
Proof.
  intros Hiter Hfuel. split; [|split].
  - rewrite hasNext_true. split.
    + intros Hn.
      destruct (lookup_lt_is_Some_2 (badChunks r) (Z.to_nat (_iter r + 1)))
        as [l Hl]; [lia|].
      exists (Z.to_nat (_iter r + 1)), l. split; [lia|done].
    + intros (j & l & Hj & Hl). apply lookup_lt_Some in Hl. lia.
  - assert (Hall : ∀ r0 s0, badChunks r0 = badChunks r →
      result.listAll fuel pretty r0 s0 =
        (Ret (result.rewind r0),
         with_trace (trace s0 ++
           ((λ l, EvPrint (MsgJson pretty (heap s0 !! l))) <$> badChunks r)) s0)).
    { intros r0 s0 Hbad. unfold result.listAll. run.
      rewrite (listAll_loop_visits pretty fuel _ _ 0); cbn;
        [|lia|rewrite Hbad; lia].
      by rewrite Hbad. }
    eexists _, _. rewrite !Hall by done. cbn. done.
  - intros ns s0 Hfind. apply find_scan_inv in Hfind as [Hvalid Hsorted].
    rewrite app_nil_r in Hsorted. split; [|done].
    eapply Forall_impl; [done|]. cbn. intros l Hl.
    by apply lookup_lt_is_Some_2.
Qed.

Lemma iteration_visits_each_once_witness :
  -1 ≤ _iter (found residue_on_two)
  ∧ (length (badChunks (found residue_on_two)) ≤ 2)%nat
  ∧ (result.hasNext (found residue_on_two) = true ↔
     ∃ (j : nat) (l : nat),
       _iter (found residue_on_two) < Z.of_nat j
       ∧ badChunks (found residue_on_two) !! j = Some l)
  ∧ (∃ s1 s2,
       result.listAll 2 false (found residue_on_two) (scanned residue_on_two)
       = (Ret (result.rewind (found residue_on_two)), s1)
       ∧ trace s1 = trace (scanned residue_on_two) ++
           ((λ l, EvPrint (MsgJson false (heap (scanned residue_on_two) !! l)))
              <$> badChunks (found residue_on_two))
       ∧ result.listAll 2 false (result.rewind (found residue_on_two)) s1
         = (Ret (result.rewind (found residue_on_two)), s2)
       ∧ trace s2 = trace s1 ++
           ((λ l, EvPrint (MsgJson false (heap (scanned residue_on_two) !! l)))
              <$> badChunks (found residue_on_two)))
  ∧ (∀ ns s0,
       Orphans.find ns s0 = (Ret (found residue_on_two), scanned residue_on_two) →
       Forall (λ l, is_Some (heap (scanned residue_on_two) !! l))
              (badChunks (found residue_on_two))
       ∧ StronglySorted bson_le
           (bad_mins (scanned residue_on_two) (found residue_on_two))).
Proof.
  split; [by vm_compute|]. split; [vm_compute; lia|].
  apply (iteration_visits_each_once 2 false (found residue_on_two)
           (scanned residue_on_two)).
  - by vm_compute.
  - vm_compute. lia.
Defined.

(** ** Two defects of the scan *)

(** C1 on [residue_on_two], where shard A holds five documents of the chunk
    c2 and shard C holds two.  The scan counts seven orphans, five of them
    on A, and pushes the chunk twice; but both entries of [badChunks] are
    the same object, and what it says is what the last shard wrote: two
    orphans on C.  No entry names shard A. *)
Theorem find_shares_one_object_between_shards :
  ∃ r c,
    Orphans.find orders residue_on_two = (Ret r, scanned residue_on_two)
    ∧ count r = 7
    ∧ shardCounts r !! "A"%string = Some 5
    ∧ shardCounts r !! "C"%string = Some 2
    ∧ badChunks r = [1%nat; 1%nat]
    ∧ heap (scanned residue_on_two) !! 1%nat = Some c
    ∧ chunk_id c = "c2"%string
    ∧ orphanedOn c = Some "C"%string
    ∧ orphanCount c = Some 2.
Proof. eexists _, _. vm_compute. repeat split; reflexivity. Qed.

(** C2 on [during_split].  The chunk c2b does not reach beyond the chunks
    seen before it, and the scan prints that it skips it; all the same it
    goes on to query the shards for it, and the document of key 17 on shard
    A, already counted for c2, is counted again: three orphans in two bad
    chunks, for two orphaned documents. *)
Theorem find_queries_the_chunk_it_skips :
  ∃ r pre post,
    Orphans.find orders during_split = (Ret r, scanned during_split)
    ∧ trace (scanned during_split)
      = pre ++ [EvPrint (MsgSkippingChunk (BNum 20));
                EvRangeCount "A" orders (BNum 15) (BNum 20);
                EvRangeCount "C" orders (BNum 15) (BNum 20)] ++ post
    ∧ count r = 3
    ∧ badChunks r = [1%nat; 2%nat]
    ∧ (chunk_id <$> heap (scanned during_split) !! 2%nat) = Some "c2b"%string
    ∧ length (filter (λ d, in_range (BNum 10) (BNum 20) d = true)
                (collection during_split "A" orders)) = 2%nat.
Proof.
  eexists _, (take 16 (trace (scanned during_split))),
    (drop 19 (trace (scanned during_split))).
  vm_compute. repeat split; reflexivity.
Qed.

(** What follows from the shared object on [residue_on_two]: [removeAll]
    deletes the two orphans on shard C at the first entry, finds the chunk
    marked as removed at the second, and leaves the five orphans on shard
    A. *)
Example removeAll_on_residue_on_two :
  ∃ r s,
    result.removeAll 2 None (found residue_on_two) (scanned residue_on_two)
    = (Ret (2, r), s)
    ∧ length (filter (λ d, in_range (BNum 10) (BNum 20) d = true)
                (collection s "A" orders)) = 5%nat
    ∧ length (filter (λ d, in_range (BNum 10) (BNum 20) d = true)
                (collection s "C" orders)) = 0%nat.
Proof. eexists _, _. split; [by vm_compute|]. by vm_compute. Qed.

(** * Further properties *)

(** ** What a command leaves of the cluster *)

Global Instance same_cluster_refl : Reflexive same_cluster.
Proof. intros s. by repeat split. Qed.

Global Instance same_cluster_trans : Transitive same_cluster.
Proof.
  intros s1 s2 s3 H12 H23. unfold same_cluster in *.
  destruct H12 as (?&?&?&?&?&?&?&?&?&?&?), H23 as (?&?&?&?&?&?&?&?&?&?&?).
  repeat split; congruence.
Qed.

Global Instance touches_only_refl (φ : event → bool) (H : relation (list chunk)) :
  Reflexive H → Reflexive (touches_only φ H).
Proof.
  intros HH s. split; [reflexivity|]. split; [|reflexivity].
  exists []. by rewrite app_nil_r.
Qed.

Global Instance touches_only_trans (φ : event → bool) (H : relation (list chunk)) :
  Transitive H → Transitive (touches_only φ H).
Proof.
  intros HH s1 s2 s3 (Hc12 & (e12 & Ht12 & He12) & Hh12)
    (Hc23 & (e23 & Ht23 & He23) & Hh23).
  split; [by etrans|]. split; [|by etrans].
  exists (e12 ++ e23). rewrite Ht23, Ht12, <- (assoc app).
  split; [done|]. by apply Forall_app.
Qed.

Lemma touches_only_weaken (φ : event → bool) (H H' : relation (list chunk))
    (s s' : Shell) :
  (∀ h h', H h h' → H' h h') → touches_only φ H s s' → touches_only φ H' s s'.
Proof. intros HH (Hc & He & Hh). split; [done|]. split; [done|]. by apply HH. Qed.

Global Instance heap_but_refl (l : nat) : Reflexive (heap_but l).
Proof. intros h. by split. Qed.

Global Instance heap_but_trans (l : nat) : Transitive (heap_but l).
Proof.
  intros h1 h2 h3 [Hl12 H12] [Hl23 H23]. split; [congruence|].
  intros l' Hne. by rewrite H23, H12.
Qed.

Global Instance heap_above_refl (n : nat) : Reflexive (heap_above n).
Proof. intros h _. by split. Qed.

Global Instance heap_above_trans (n : nat) : Transitive (heap_above n).
Proof.
  intros h1 h2 h3 H12 H23 Hn. destruct (H12 Hn) as [Hl12 Ho12].
  destruct H23 as [Hl23 Ho23]; [lia|]. split; [lia|].
  intros l Hl. by rewrite Ho23, Ho12.
Qed.

Lemma stable_ret {A : Type} (R : relation Shell) `{!Reflexive R} (a : A) :
  stable R (mret a).
Proof. intros s. reflexivity. Qed.

Lemma stable_still {A : Type} (R : relation Shell) `{!Reflexive R}
    (o : outcome A) :
  stable R (λ s, (o, s)).
Proof. intros s. reflexivity. Qed.

Lemma stable_read {A : Type} (R : relation Shell) `{!Reflexive R}
    (f : Shell → A) :
  stable R (read f).
Proof. intros s. reflexivity. Qed.

Lemma stable_assert (R : relation Shell) `{!Reflexive R} (b : bool)
    (msg : string) :
  stable R (assert b msg).
Proof. destruct b; intros s; reflexivity. Qed.

Lemma stable_bind {A B : Type} (R : relation Shell) `{!Transitive R}
    (m : M A) (f : A → M B) :
  stable R m → (∀ a, stable R (f a)) → stable R (m ≫= f).
Proof.
  intros Hm Hf s. specialize (Hm s). unfold mbind, M_bind.
  destruct (m s) as [[a|e|] s1]; cbn [fst snd] in *; [|done|done].
  etrans; [done|]. apply Hf.
Qed.

Lemma stable_emit (φ : event → bool) (H : relation (list chunk))
    `{!Reflexive H} (e : event) :
  φ e = true → stable (touches_only φ H) (emit e).
Proof.
  intros He s. split; [by repeat split|]. split; [|reflexivity].
  exists [e]. split; [done|]. by repeat constructor.
Qed.

Lemma stable_print (φ : event → bool) (H : relation (list chunk))
    `{!Reflexive H} (m : message) :
  φ (EvPrint m) = true → stable (touches_only φ H) (print m).
Proof. apply stable_emit; done. Qed.

Lemma stable_probes (φ : event → bool) (H : relation (list chunk))
    `{!Reflexive H} :
  (∀ b, φ (EvBalancerState b) = true) →
  (∀ b, φ (EvBalancerRunning b) = true) →
  stable (touches_only φ H) getBalancerState
  ∧ stable (touches_only φ H) isBalancerRunning.
Proof.
  intros H1 H2. split; intros s; (split; [by repeat split|]);
    (split; [|reflexivity]); eexists [_]; (split; [done|]);
    by repeat constructor.
Qed.

(** ** The scan only reads *)

Lemma bind_unfold {A B : Type} (m : M A) (f : A → M B) (s : Shell) :
  (m ≫= f) s =
  match m s with
  | (Ret a, s') => f a s'
  | (Throw e, s') => (Throw e, s')
  | (OutOfFuel, s') => (OutOfFuel, s')
  end.
Proof. reflexivity. Qed.

Ltac stable_step :=
  match goal with
  | |- stable _ (mbind _ _) => apply stable_bind; [tc_solve| |intros ?]
  | |- stable _ (mret _) => apply stable_ret; tc_solve
  | |- stable _ (read _) => apply stable_read; tc_solve
  | |- stable _ (assert _ _) => apply stable_assert; tc_solve
  | |- stable _ (throw _) => apply stable_still; tc_solve
  | |- stable _ (print _) => apply stable_print; [tc_solve|done]
  | |- stable _ (emit _) => apply stable_emit; [tc_solve|done]
  | |- stable _ getBalancerState => apply stable_probes; [tc_solve|done|done]
  | |- stable _ isBalancerRunning => apply stable_probes; [tc_solve|done|done]
  | |- stable _ (if ?b then _ else _) => destruct b
  | |- stable _ (let '(_, _) := ?p in _) => destruct p
  end.

Lemma stable_scan_queries (H : relation (list chunk)) `{!Reflexive H}
    `{!Transitive H} (shard ns : string) (lo hi : bson) :
  stable (touches_only scan_event H) run_isdbgrid
  ∧ stable (touches_only scan_event H) (count_docs shard ns)
  ∧ stable (touches_only scan_event H) (range_count shard ns lo hi)
  ∧ stable (touches_only scan_event H) (list_chunks ns).
Proof.
  unfold run_isdbgrid, count_docs, range_count, list_chunks.
  split; [|split; [|split]]; repeat stable_step.
Qed.

Lemma stable_connections_loop (H : relation (list chunk)) `{!Reflexive H}
    `{!Transitive H} (shards : list string) :
  ∀ conns, stable (touches_only scan_event H) (Shard.connections_loop shards conns).
Proof.
  induction shards as [|shard rest IH]; intros conns; cbn; repeat stable_step;
    apply IH.
Qed.

Lemma stable_connections (H : relation (list chunk)) `{!Reflexive H}
    `{!Transitive H} :
  stable (touches_only scan_event H) Shard.connections.
Proof.
  unfold Shard.connections. repeat stable_step. apply stable_connections_loop; tc_solve.
Qed.

Lemma stable_nonempty_shards (H : relation (list chunk)) `{!Reflexive H}
    `{!Transitive H} (ns : string) (shardConns : list string) :
  ∀ conns,
    stable (touches_only scan_event H) (Orphans.nonempty_shards ns shardConns conns).
Proof.
  induction shardConns as [|shard rest IH]; intros conns; cbn;
    repeat stable_step; try apply IH.
  apply stable_scan_queries; tc_solve || exact BEmpty.
Qed.

Lemma stable_check_seen (H : relation (list chunk)) `{!Reflexive H}
    `{!Transitive H} (c : chunk) (r : ScanResult) :
  stable (touches_only scan_event H) (Orphans.check_seen c r).
Proof. unfold Orphans.check_seen. repeat stable_step. Qed.

Lemma stable_update_obj (φ : event → bool) (l : nat) (f : chunk → chunk) :
  stable (touches_only φ (heap_but l)) (update_obj l f).
Proof.
  intros s. split; [by repeat split|]. split.
  - exists []. by rewrite app_nil_r.
  - cbn. split; [apply length_alter|]. intros l' Hne.
    by apply list_lookup_alter_ne.
Qed.

Lemma stable_query_shards (l : nat) (c : chunk) (shards : list string) :
  ∀ r, stable (touches_only scan_event (heap_but l))
         (Orphans.query_shards l c shards r).
Proof.
  induction shards as [|shard rest IH]; intros r; cbn [Orphans.query_shards];
    repeat stable_step; try apply IH.
  - apply stable_scan_queries; tc_solve.
  - apply stable_update_obj.
Qed.

Lemma stable_scan_chunk (n : nat) (precise : bool) (c : chunk) (r : ScanResult) :
  stable (touches_only scan_event (heap_above n)) (Orphans.scan_chunk precise c r).
Proof.
  intros s. unfold Orphans.scan_chunk. rewrite bind_unfold.
  unfold alloc at 1. cbv beta iota. rewrite bind_unfold.
  set (s0 := with_heap (heap s ++ [c]) s).
  assert (Hseen : stable (touches_only scan_event eq)
                    (if precise then Orphans.check_seen c r else mret r)).
  { destruct precise; [apply stable_check_seen|apply stable_ret]; tc_solve. }
  specialize (Hseen s0).
  destruct ((if precise then Orphans.check_seen c r else mret r) s0)
    as [[r1|e|] s1]; cbn [fst snd] in *.
  - pose proof (stable_query_shards (length (heap s)) c (connections r1) r1 s1)
      as Hq.
    destruct (Orphans.query_shards _ _ _ _ s1) as [o s2]. cbn [fst snd] in *.
    assert (H02 : touches_only scan_event (heap_but (length (heap s))) s0 s2).
    { etrans; [|done]. eapply touches_only_weaken; [|done].
      intros ? ? ->. reflexivity. }
    destruct H02 as (Hc & He & Hlen & Hother).
    split; [exact Hc|]. split; [exact He|].
    intros Hn. cbn in Hlen, Hother. rewrite length_app in Hlen. cbn in Hlen.
    split; [lia|]. intros l Hl. rewrite Hother by lia.
    apply lookup_app_l. lia.
  - destruct Hseen as (Hc & He & Hh). split; [exact Hc|]. split; [exact He|].
    intros Hn. rewrite <- Hh. cbn. rewrite length_app. split; [lia|].
    intros l Hl. apply lookup_app_l. lia.
  - destruct Hseen as (Hc & He & Hh). split; [exact Hc|]. split; [exact He|].
    intros Hn. rewrite <- Hh. cbn. rewrite length_app. split; [lia|].
    intros l Hl. apply lookup_app_l. lia.
Qed.

Lemma stable_scan_chunks (n : nat) (precise : bool) (chunks : list chunk) :
  ∀ r, stable (touches_only scan_event (heap_above n))
         (Orphans.scan_chunks precise chunks r).
Proof.
  induction chunks as [|c rest IH]; intros r; cbn; repeat stable_step.
  - apply stable_scan_chunk.
  - apply IH.
Qed.

Lemma stable_find (n : nat) (ns : string) :
  stable (touches_only scan_event (heap_above n)) (Orphans.find ns).
Proof.
  unfold Orphans.find. repeat stable_step;
    try (apply stable_scan_queries; tc_solve || exact BEmpty || exact ns).
  - apply stable_connections; tc_solve.
  - apply stable_nonempty_shards; tc_solve.
  - apply stable_scan_chunks.
Qed.

(** X1.  A scan, whatever its outcome, leaves the cluster as it found it:
    the collections of every shard, the configuration and the settings of
    the script are unchanged.  It sends nothing but probes, listings, counts
    and range counts (no identifier query, no delete), and the chunk objects
    that existed before it, those of earlier scans, are untouched. *)
Theorem find_only_reads (ns : string) (s : Shell) :
  same_cluster s (run_state (Orphans.find ns) s)
  ∧ (∃ evs, trace (run_state (Orphans.find ns) s) = trace s ++ evs
            ∧ Forall (λ e, scan_event e = true) evs)
  ∧ (∀ l c, heap s !! l = Some c →
            heap (run_state (Orphans.find ns) s) !! l = Some c).
Proof.
  destruct (stable_find (length (heap s)) ns s) as (Hc & He & Hh).
  split; [done|]. split; [done|]. intros l c Hl.
  destruct Hh as [_ Hh]; [done|]. unfold run_state.
  rewrite Hh; [done|]. by eapply lookup_lt_Some.
Qed.

(** ** The shards a scan looks at *)

Lemma elem_of_set_key (x k : string) (keys : list string) :
  x ∈ set_key k keys ↔ x = k ∨ x ∈ keys.
Proof.
  unfold set_key. case_bool_decide as Hk.
  - split; [by right|]. by intros [->|?].
  - rewrite elem_of_app, list_elem_of_singleton. tauto.
Qed.

Lemma NoDup_set_key (k : string) (keys : list string) :
  NoDup keys → NoDup (set_key k keys).
Proof.
  intros Hnd. unfold set_key. case_bool_decide as Hk; [done|].
  apply NoDup_app. split; [done|]. split.
  - intros x Hx ->%list_elem_of_singleton. done.
  - apply NoDup_singleton.
Qed.

Lemma connections_loop_spec (shards : list string) :
  ∀ (conns : list string) (s : Shell),
    NoDup conns →
    ∃ conns' s',
      Shard.connections_loop shards conns s = (Ret conns', s')
      ∧ NoDup conns'
      ∧ ∀ sh, sh ∈ conns' ↔ sh ∈ conns ∨ (sh ∈ shards ∧ is_active s sh).
Proof.
  induction shards as [|shard rest IH]; intros conns s Hnd.
  { exists conns, s. split; [done|]. split; [done|]. intros sh.
    rewrite elem_of_nil. tauto. }
  cbn [Shard.connections_loop]. run.
  destruct (bool_decide (Shard_active s ≠ []) && negb (bool_decide (shard ∈ Shard_active s)))
    eqn:Hskip.
  - destruct (IH conns s Hnd) as (conns' & s' & Hrun & Hnd' & Hin).
    exists conns', s'. split; [done|]. split; [done|]. intros sh.
    rewrite Hin, elem_of_cons. split; [tauto|].
    intros [?|[[->|?] Hact]]; [tauto| |tauto]. exfalso.
    apply andb_true_iff in Hskip as [Hne Hnot].
    apply bool_decide_eq_true in Hne. apply negb_true_iff in Hnot.
    apply bool_decide_eq_false in Hnot. by destruct Hact.
  - match goal with
    | |- context [Shard.connections_loop rest ?c1 ?s1] =>
        destruct (IH c1 s1) as (conns' & s' & Hrun & Hnd' & Hin);
          [by apply NoDup_set_key|]
    end.
    exists conns', s'. split; [done|]. split; [done|]. intros sh.
    rewrite Hin, elem_of_set_key, elem_of_cons. unfold is_active. cbn.
    split; [|tauto]. intros [[->|?]|?]; [|tauto|tauto]. right. split; [by left|].
    apply andb_false_iff in Hskip as [Hne|Hnot].
    + left. apply bool_decide_eq_false in Hne.
      by destruct (decide (Shard_active s = [])).
    + right. apply negb_false_iff in Hnot. by apply bool_decide_eq_true in Hnot.
Qed.

Lemma nonempty_shards_spec (ns : string) (shardConns : list string) :
  ∀ (conns : list string) (s : Shell),
    NoDup conns →
    ∃ conns' s',
      Orphans.nonempty_shards ns shardConns conns s = (Ret conns', s')
      ∧ NoDup conns'
      ∧ ∀ sh, sh ∈ conns' ↔
              sh ∈ conns ∨ (sh ∈ shardConns ∧ collection s sh ns ≠ []).
Proof.
  induction shardConns as [|shard rest IH]; intros conns s Hnd.
  { exists conns, s. split; [done|]. split; [done|]. intros sh.
    rewrite elem_of_nil. tauto. }
  cbn [Orphans.nonempty_shards]. unfold count_docs. run.
  destruct (Z.of_nat (length (collection s shard ns)) >? 0) eqn:Hcount;
    rewrite Z.gtb_ltb in Hcount.
  - apply Z.ltb_lt in Hcount.
    match goal with
    | |- context [Orphans.nonempty_shards ns rest ?c1 ?s1] =>
        destruct (IH c1 s1) as (conns' & s' & Hrun & Hnd' & Hin);
          [by apply NoDup_set_key|]
    end.
    exists conns', s'. split; [done|]. split; [done|]. intros sh.
    rewrite Hin, elem_of_set_key, elem_of_cons. cbn.
    split; [|tauto]. intros [[->|?]|?]; [|tauto|tauto]. right. split; [by left|].
    intros Hnil. rewrite Hnil in Hcount. cbn in Hcount. lia.
  - apply Z.ltb_ge in Hcount.
    match goal with
    | |- context [Orphans.nonempty_shards ns rest ?c1 ?s1] =>
        destruct (IH c1 s1) as (conns' & s' & Hrun & Hnd' & Hin); [done|]
    end.
    exists conns', s'. split; [done|]. split; [done|]. intros sh.
    rewrite Hin, elem_of_cons. cbn. split; [tauto|].
    intros [?|[[->|?] Hne]]; [tauto| |tauto]. exfalso.
    destruct (collection s shard ns); [done|]. cbn in Hcount. lia.
Qed.

Lemma connections_spec (s : Shell) :
  ∃ conns s',
    Shard.connections s = (Ret conns, s')
    ∧ NoDup conns
    ∧ ∀ sh, sh ∈ conns ↔ sh ∈ config_shards s ∧ is_active s sh.
Proof.
  unfold Shard.connections. run.
  match goal with
  | |- context [Shard.connections_loop ?l ?c ?s1] =>
      destruct (connections_loop_spec l c s1) as (conns & s' & Hrun & Hnd & Hin);
        [constructor|]
  end.
  exists conns, s'. split; [done|]. split; [done|]. intros sh.
  rewrite Hin, elem_of_nil. unfold is_active. cbn. tauto.
Qed.

(** ** The scan always comes to an end *)

Lemma query_shards_returns (l : nat) (c : chunk) (shards : list string) :
  ∀ (r : ScanResult) (s : Shell),
    ∃ r' s', Orphans.query_shards l c shards r s = (Ret r', s').
Proof.
  induction shards as [|shard rest IH]; intros r s; [by eexists _, _|].
  cbn [Orphans.query_shards]. destruct (bool_decide _); [|apply IH].
  unfold range_count, update_obj. run. destruct (_ >? 0); apply IH.
Qed.

Lemma query_shards_preserves (Φ : ScanResult → Prop) (l : nat) (c : chunk)
    (shards : list string) :
  (∀ r shard n, Φ r → n > 0 → Φ (record_orphans shard n l r)) →
  ∀ (r r' : ScanResult) (s s' : Shell),
    Φ r → Orphans.query_shards l c shards r s = (Ret r', s') → Φ r'.
Proof.
  intros Hrec. induction shards as [|shard rest IH]; intros r r' s s' Hr.
  { by intros [= <- _]. }
  cbn [Orphans.query_shards]. destruct (bool_decide _); [|by apply IH].
  unfold range_count, update_obj. run.
  destruct (_ >? 0) eqn:Hpos; [|by apply IH].
  apply IH. apply Hrec; [done|]. rewrite Z.gtb_ltb in Hpos.
  apply Z.ltb_lt in Hpos. lia.
Qed.

Lemma check_seen_preserves (Φ : ScanResult → Prop) (c : chunk)
    (r r' : ScanResult) (s s' : Shell) :
  scan_closed Φ → Φ r → Orphans.check_seen c r s = (Ret r', s') → Φ r'.
Proof.
  intros [_ Hseen] Hr. unfold Orphans.check_seen. destruct (_ <? 0); run.
  - intros [= <- _]. by apply Hseen.
  - destruct (_ <=? 0); run; [|done]. by intros [= <- _].
Qed.

Lemma scan_chunk_preserves (Φ : ScanResult → Prop) (precise : bool) (c : chunk)
    (r r' : ScanResult) (s s' : Shell) :
  scan_closed Φ → Φ r → Orphans.scan_chunk precise c r s = (Ret r', s') → Φ r'.
Proof.
  intros Hcl Hr. unfold Orphans.scan_chunk.
  intros (l & s0 & _ & (r1 & s1 & Hseen & Hq)%bind_Ret_inv)%bind_Ret_inv.
  eapply query_shards_preserves; [|shelve|done].
  { intros. by apply Hcl. }
  Unshelve. destruct precise; [by eapply check_seen_preserves|].
  by injection Hseen as <- _.
Qed.

Lemma scan_chunks_preserves (Φ : ScanResult → Prop) (precise : bool)
    (chunks : list chunk) :
  scan_closed Φ →
  ∀ (r r' : ScanResult) (s s' : Shell),
    Φ r → Orphans.scan_chunks precise chunks r s = (Ret r', s') → Φ r'.
Proof.
  intros Hcl. induction chunks as [|c rest IH]; intros r r' s s' Hr; cbn.
  - by intros [= <- _].
  - intros (r1 & s1 & Hchunk & Hrest)%bind_Ret_inv.
    eapply IH; [|done]. by eapply scan_chunk_preserves.
Qed.

Lemma scan_chunk_returns (precise : bool) (c : chunk) (r : ScanResult)
    (s : Shell) :
  bson_le (lastMin r) (chunk_min c) →
  ∃ r' s',
    Orphans.scan_chunk precise c r s = (Ret r', s')
    ∧ (lastMin r' = lastMin r ∨ lastMin r' = chunk_min c).
Proof.
  intros Hle. unfold Orphans.scan_chunk. rewrite bind_unfold.
  unfold alloc at 1. cbv beta iota. rewrite bind_unfold.
  set (s0 := with_heap (heap s ++ [c]) s).
  assert (∃ r1 s1, (if precise then Orphans.check_seen c r else mret r) s0
                   = (Ret r1, s1)
                   ∧ (lastMin r1 = lastMin r ∨ lastMin r1 = chunk_min c))
    as (r1 & s1 & -> & Hlast).
  { destruct precise; [|by eexists _, _; split; [|left]].
    unfold Orphans.check_seen. destruct (_ <? 0); run.
    - eexists _, _. split; [done|]. by right.
    - destruct (Z.leb_spec (bsonWoCompare (lastMin r) (chunk_min c)) 0);
        [|unfold bson_le in Hle; lia].
      run. eexists _, _. split; [done|]. by left. }
  destruct (query_shards_returns (length (heap s)) c (connections r1) r1 s1)
    as (r' & s' & Hq).
  exists r', s'. split; [done|].
  destruct Hlast as [<-|<-]; [left|right];
    eapply (query_shards_preserves (λ x, lastMin x = lastMin r1)); try done.
Qed.

Lemma scan_chunks_returns (precise : bool) (chunks : list chunk) :
  ∀ (r : ScanResult) (s : Shell),
    StronglySorted min_le chunks →
    Forall (λ c, bson_le (lastMin r) (chunk_min c)) chunks →
    ∃ r' s', Orphans.scan_chunks precise chunks r s = (Ret r', s').
Proof.
  induction chunks as [|c rest IH]; intros r s Hsorted Hlast; cbn.
  { by eexists _, _. }
  apply StronglySorted_cons in Hsorted as [Hc Hsorted].
  apply Forall_cons in Hlast as [Hlc Hlast].
  destruct (scan_chunk_returns precise c r s Hlc) as (r1 & s1 & Hrun & Hl1).
  rewrite bind_unfold, Hrun. apply IH; [done|].
  destruct Hl1 as [->| ->]; done.
Qed.

Lemma bson_le_empty (b : bson) : bson_le BEmpty b.
Proof. apply bson_le_spec. destruct b; cbn; lia. Qed.

(** A scan whose preconditions hold, step by step. *)
Lemma find_run (ns : string) (s : Shell) :
  isdbgrid s = true →
  (balancerAt s (probes s)).1 = false →
  (balancerAt s (S (probes s))).2 = false →
  ∃ conns s1 r s2,
    NoDup conns
    ∧ (∀ sh, sh ∈ conns ↔
             sh ∈ config_shards s ∧ is_active s sh ∧ collection s sh ns ≠ [])
    ∧ same_cluster s s1
    ∧ Orphans.scan_chunks (bsonWoCompare_defined s) (chunks_of s ns)
        (new_result ns conns) s1 = (Ret r, s2)
    ∧ Orphans.find ns s = (Ret r, with_trace (trace s2 ++ summary r) s2).
Proof.
  intros Hgrid Hstate Hrun. unfold Orphans.find. run.
  rewrite Hgrid. run. rewrite Hstate. run. rewrite Hrun. run.
  match goal with
  | |- context [Shard.connections ?s0] =>
      destruct (connections_spec s0) as (shardConns & sa & Hconn & _ & Hin1);
      pose proof (stable_connections eq s0) as Hsa
  end.
  rewrite Hconn in *. cbn [fst snd] in Hsa. destruct Hsa as [Hsa _].
  pose proof Hsa as (_ & _ & _ & _ & _ & _ & _ & Hcoll & Hdefa & _).
  cbn in Hcoll, Hdefa. rewrite Hdefa.
  destruct (bsonWoCompare_defined s) eqn:Hd; run;
    match goal with
    | |- context [Orphans.nonempty_shards ns shardConns [] ?sx] =>
        destruct (nonempty_shards_spec ns shardConns [] sx)
          as (conns & sb & Hne & Hnd & Hin2); [constructor|];
        pose proof (stable_nonempty_shards eq ns shardConns [] sx) as Hsb;
        rewrite Hne in *; cbn [fst snd] in Hsb; destruct Hsb as [Hsb _]
    end;
    (assert (Hsame : same_cluster s sb);
     [etrans; [|etrans; [exact Hsa|exact Hsb]]; by repeat split|]);
    pose proof Hsame as (_ & _ & _ & _ & _ & _ & Hchunks & _);
    (destruct (scan_chunks_returns (bsonWoCompare_defined s) (chunks_of s ns)
                 (new_result ns conns)
                 (with_trace (trace sb ++ [EvListChunks ns]) sb))
       as (r & s2 & Hscan);
     [apply sort_by_min_sorted
     |apply Forall_forall; intros c _; apply bson_le_empty|]);
    rewrite Hd in Hscan;
    exists conns, (with_trace (trace sb ++ [EvListChunks ns]) sb), r, s2;
    (split; [done|]);
    (split; [intros sh; rewrite Hin2, elem_of_nil, Hin1; unfold is_active;
             cbn; rewrite Hcoll; tauto|]);
    (split; [exact Hsame|]); (split; [done|]);
    (assert (Hns : namespace r = ns);
     [eapply (scan_chunks_preserves (λ x, namespace x = ns));
      [by split| |exact Hscan]; done|]);
    unfold list_chunks; run; rewrite Hchunks; fold (chunks_of s ns);
    unfold new_result in Hscan; rewrite Hscan;
    unfold summary; rewrite Hns; destruct (count r >? 0); run;
    by rewrite <- ?(assoc app).
Qed.

(** ** What a scan counts *)

Lemma orphans_on_nonneg (coll : string → string → list doc) (ns : string)
    (c : chunk) (shard : string) :
  0 ≤ orphans_on coll ns c shard.
Proof. unfold orphans_on. lia. Qed.

Lemma strays_nonneg (coll : string → string → list doc) (ns : string)
    (c : chunk) (shard : string) :
  0 ≤ strays coll ns c shard.
Proof.
  unfold strays. case_decide; [done|]. apply orphans_on_nonneg.
Qed.

Lemma offenders_cons_hit (coll : string → string → list doc) (ns : string)
    (c : chunk) (shard : string) (rest : list string) :
  shard ≠ chunk_shard c → 0 < orphans_on coll ns c shard →
  offenders coll ns c (shard :: rest) = shard :: offenders coll ns c rest.
Proof.
  intros Hown Hpos. unfold offenders. rewrite filter_cons_True; [done|].
  unfold strays. by rewrite decide_False.
Qed.

Lemma offenders_cons_miss (coll : string → string → list doc) (ns : string)
    (c : chunk) (shard : string) (rest : list string) :
  shard = chunk_shard c ∨ orphans_on coll ns c shard ≤ 0 →
  offenders coll ns c (shard :: rest) = offenders coll ns c rest.
Proof.
  intros Hmiss. unfold offenders. rewrite filter_cons_False; [done|].
  unfold strays. case_decide; [lia|]. destruct Hmiss; [done|lia].
Qed.

Lemma query_shards_exact (l : nat) (c : chunk) (ns : string)
    (shards : list string) :
  ∀ (r : ScanResult) (s : Shell),
    namespace r = ns →
    ∃ s',
      Orphans.query_shards l c shards r s
      = (Ret (record_all (collection s) ns c l
                (offenders (collection s) ns c shards) r), s')
      ∧ same_cluster s s'
      ∧ heap s' = mark_all (collection s) ns c l
                    (offenders (collection s) ns c shards) (heap s).
Proof.
  induction shards as [|shard rest IH]; intros r s Hns.
  { exists s. by repeat split. }
  cbn [Orphans.query_shards].
  case_bool_decide as Hown.
  2:{ rewrite offenders_cons_miss by (by left). by apply IH. }
  unfold range_count. run. rewrite Hns.
  fold (orphans_on (collection s) ns c shard).
  destruct (orphans_on (collection s) ns c shard >? 0) eqn:Hpos;
    rewrite Z.gtb_ltb in Hpos.
  - apply Z.ltb_lt in Hpos. rewrite offenders_cons_hit by done.
    unfold update_obj. run.
    match goal with
    | |- context [Orphans.query_shards l c rest ?r1 ?s1] =>
        destruct (IH r1 s1) as (s' & Hrun & Hsame & Hheap); [done|]
    end.
    exists s'. split; [exact Hrun|]. split; [exact Hsame|]. exact Hheap.
  - apply Z.ltb_ge in Hpos. rewrite offenders_cons_miss by (by right).
    match goal with
    | |- context [Orphans.query_shards l c rest ?r1 ?s1] =>
        destruct (IH r1 s1) as (s' & Hrun & Hsame & Hheap); [done|]
    end.
    exists s'. split; [exact Hrun|]. split; [exact Hsame|]. exact Hheap.
Qed.

Lemma total_cons (x : Z) (l : list Z) : total (x :: l) = x + total l.
Proof. reflexivity. Qed.

Lemma total_app (a b : list Z) : total (a ++ b) = total a + total b.
Proof.
  induction a as [|x a IH]; [done|]. cbn [app]. rewrite !total_cons, IH. lia.
Qed.

Lemma record_all_cons (coll : string → string → list doc) (ns : string)
    (c : chunk) (l : nat) (shard : string) (rest : list string)
    (r : ScanResult) :
  record_all coll ns c l (shard :: rest) r
  = record_all coll ns c l rest
      (record_orphans shard (orphans_on coll ns c shard) l r).
Proof. reflexivity. Qed.

Lemma record_all_fields (coll : string → string → list doc) (ns : string)
    (c : chunk) (l : nat) (shards : list string) :
  ∀ r,
    namespace (record_all coll ns c l shards r) = namespace r
    ∧ connections (record_all coll ns c l shards r) = connections r
    ∧ maxRange (record_all coll ns c l shards r) = maxRange r
    ∧ lastMin (record_all coll ns c l shards r) = lastMin r
    ∧ _iter (record_all coll ns c l shards r) = _iter r
    ∧ badChunks (record_all coll ns c l shards r)
      = badChunks r ++ replicate (length shards) l
    ∧ count (record_all coll ns c l shards r)
      = count r + total (orphans_on coll ns c <$> shards).
Proof.
  induction shards as [|shard rest IH]; intros r.
  { cbn. rewrite app_nil_r. repeat split. lia. }
  rewrite record_all_cons.
  destruct (IH (record_orphans shard (orphans_on coll ns c shard) l r))
    as (-> & -> & -> & -> & -> & -> & ->).
  rewrite fmap_cons, total_cons. cbn. rewrite <- (assoc app).
  repeat split. lia.
Qed.

Lemma add_shardCount_lookup (shard : string) (n : Z) (m : gmap string Z)
    (sh : string) :
  default 0 (add_shardCount shard n m !! sh)
  = default 0 (m !! sh) + (if decide (sh = shard) then n else 0).
Proof.
  unfold add_shardCount. destruct (m !! shard) as [v|] eqn:Hv;
    [destruct (Z.eqb_spec v 0)|]; case_decide as Heq; subst;
    rewrite ?lookup_insert_eq, ?lookup_insert_ne by done; rewrite ?Hv; cbn; lia.
Qed.

Lemma record_all_shardCounts (coll : string → string → list doc) (ns : string)
    (c : chunk) (l : nat) (sh : string) (shards : list string) :
  ∀ r,
    default 0 (shardCounts (record_all coll ns c l shards r) !! sh)
    = default 0 (shardCounts r !! sh)
      + total ((λ x, if decide (sh = x) then orphans_on coll ns c x else 0)
                 <$> shards).
Proof.
  induction shards as [|shard rest IH]; intros r; [cbn; lia|].
  rewrite record_all_cons, IH, fmap_cons, total_cons. cbn.
  rewrite add_shardCount_lookup. repeat case_decide; congruence || lia.
Qed.

Lemma offenders_total (coll : string → string → list doc) (ns : string)
    (c : chunk) (shards : list string) :
  total (orphans_on coll ns c <$> offenders coll ns c shards)
  = total (strays coll ns c <$> shards).
Proof.
  induction shards as [|shard rest IH]; [done|].
  rewrite fmap_cons, total_cons, <- IH.
  pose proof (orphans_on_nonneg coll ns c shard).
  unfold strays. destruct (decide (shard = chunk_shard c)) as [Hown|Hown].
  - by rewrite offenders_cons_miss by (by left).
  - destruct (decide (0 < orphans_on coll ns c shard)).
    + by rewrite offenders_cons_hit, fmap_cons, total_cons.
    + rewrite offenders_cons_miss by (right; lia). lia.
Qed.

Lemma offenders_total_on (coll : string → string → list doc) (ns : string)
    (c : chunk) (sh : string) (shards : list string) :
  total ((λ x, if decide (sh = x) then orphans_on coll ns c x else 0)
           <$> offenders coll ns c shards)
  = total ((λ x, if decide (sh = x) then strays coll ns c x else 0) <$> shards).
Proof.
  induction shards as [|shard rest IH]; [done|].
  rewrite fmap_cons, total_cons, <- IH.
  pose proof (orphans_on_nonneg coll ns c shard).
  unfold strays. destruct (decide (shard = chunk_shard c)) as [Hown|Hown].
  - rewrite offenders_cons_miss by (by left). by case_decide.
  - destruct (decide (0 < orphans_on coll ns c shard)).
    + by rewrite offenders_cons_hit, fmap_cons, total_cons.
    + rewrite offenders_cons_miss by (right; lia). case_decide; lia.
Qed.

Lemma mark_all_snoc (coll : string → string → list doc) (ns : string)
    (c0 : chunk) (shards : list string) (h : list chunk) (c : chunk) :
  mark_all coll ns c0 (length h) shards (h ++ [c])
  = h ++ [match last shards with
          | Some shard => set_orphan shard (orphans_on coll ns c0 shard) c
          | None => c
          end].
Proof.
  induction shards as [|shard rest IH] using rev_ind; [done|].
  unfold mark_all in *. rewrite foldl_snoc, IH, last_snoc.
  replace (length h) with (length h + 0)%nat at 1 by lia.
  rewrite alter_app_r. cbn. by destruct (last rest).
Qed.

Lemma check_seen_fields (c : chunk) (r r1 : ScanResult) (s s1 : Shell) :
  Orphans.check_seen c r s = (Ret r1, s1) →
  (r1 = r ∨ r1 = with_seen (chunk_max c) (chunk_min c) r)
  ∧ same_cluster s s1 ∧ heap s1 = heap s.
Proof.
  unfold Orphans.check_seen. destruct (_ <? 0); run.
  - intros [= <- <-]. split; [by right|]. by repeat split.
  - destruct (_ <=? 0); run; [|done]. intros [= <- <-].
    split; [by left|]. by repeat split.
Qed.

Lemma scan_chunk_exact (precise : bool) (c : chunk) (r r' : ScanResult)
    (s s' : Shell) (ns : string) (conns : list string) :
  namespace r = ns → connections r = conns →
  Orphans.scan_chunk precise c r s = (Ret r', s') →
  chunk_scanned ns conns c r r' s s'.
Proof.
  intros Hns Hconns. unfold Orphans.scan_chunk. rewrite bind_unfold.
  unfold alloc at 1. cbv beta iota.
  set (s0 := with_heap (heap s ++ [c]) s).
  intros (r1 & s1 & Hseen & Hq)%bind_Ret_inv.
  assert ((r1 = r ∨ r1 = with_seen (chunk_max c) (chunk_min c) r)
          ∧ same_cluster s0 s1 ∧ heap s1 = heap s0) as (Hr1 & Hsame1 & Hheap1).
  { destruct precise; [by apply check_seen_fields|].
    injection Hseen as <- <-. split; [by left|]. by repeat split. }
  assert (namespace r1 = ns ∧ connections r1 = conns ∧ _iter r1 = _iter r
          ∧ badChunks r1 = badChunks r ∧ count r1 = count r
          ∧ shardCounts r1 = shardCounts r)
    as (Hns1 & Hconns1 & Hiter1 & Hbad1 & Hcount1 & Hsc1).
  { by destruct Hr1 as [-> | ->]. }
  destruct (query_shards_exact (length (heap s)) c ns (connections r1) r1 s1 Hns1)
    as (s2 & Hrun & Hsame2 & Hheap2).
  rewrite Hrun in Hq. injection Hq as <- <-.
  assert (Hcoll : collection s1 = collection s).
  { by destruct Hsame1 as (_ & _ & _ & _ & _ & _ & _ & -> & _). }
  rewrite Hcoll, Hconns1 in *.
  destruct (record_all_fields (collection s) ns c (length (heap s))
              (offenders (collection s) ns c conns) r1)
    as (Hf1 & Hf2 & _ & _ & Hf3 & Hf4 & Hf5).
  unfold chunk_scanned. rewrite Hf1, Hf2, Hf3, Hf4, Hf5.
  split; [done|]. split; [done|]. split; [done|].
  split; [by etrans; [|exact Hsame2]|].
  split; [rewrite Hheap2, Hheap1; apply mark_all_snoc|].
  split; [by rewrite Hbad1|].
  split; [by rewrite Hcount1, offenders_total|].
  intros sh. by rewrite record_all_shardCounts, Hsc1, offenders_total_on.
Qed.

Lemma scan_chunks_exact (precise : bool) (ns : string) (conns : list string)
    (chunks : list chunk) :
  ∀ (r r' : ScanResult) (s s' : Shell),
    namespace r = ns → connections r = conns →
    Orphans.scan_chunks precise chunks r s = (Ret r', s') →
    chunks_scanned ns conns chunks r r' s s'.
Proof.
  induction chunks as [|c rest IH]; intros r r' s s' Hns Hconns.
  { cbn. intros [= <- <-]. unfold chunks_scanned. cbn. rewrite !app_nil_r.
    repeat split; try done; lia. }
  cbn [Orphans.scan_chunks].
  intros (r1 & s1 & Hchunk & Hrest)%bind_Ret_inv.
  apply (scan_chunk_exact _ _ _ _ _ _ ns conns Hns Hconns) in Hchunk
    as (Hns1 & Hconns1 & Hiter1 & Hsame1 & Hheap1 & Hbad1 & Hcount1 & Hsc1).
  apply (IH _ _ _ _ Hns1 Hconns1) in Hrest
    as (Hns2 & Hconns2 & Hiter2 & Hsame2 & Hheap2 & Hbad2 & Hcount2 & Hsc2).
  assert (Hcoll : collection s1 = collection s).
  { by destruct Hsame1 as (_ & _ & _ & _ & _ & _ & _ & -> & _). }
  rewrite Hcoll in *. unfold chunks_scanned.
  split; [done|]. split; [done|]. split; [congruence|].
  split; [by etrans|].
  split; [by rewrite Hheap2, Hheap1, <- (assoc app)|].
  split.
  { rewrite Hbad2, Hbad1, Hheap1, length_app, <- (assoc app). cbn.
    by rewrite Nat.add_1_r. }
  split; [rewrite Hcount2, Hcount1, fmap_cons, total_cons; lia|].
  intros sh. rewrite Hsc2, Hsc1, fmap_cons, total_cons. lia.
Qed.

Lemma find_Ret_preconditions (ns : string) (s s' : Shell) (r : ScanResult) :
  Orphans.find ns s = (Ret r, s') →
  isdbgrid s = true
  ∧ (balancerAt s (probes s)).1 = false
  ∧ (balancerAt s (S (probes s))).2 = false.
Proof.
  unfold Orphans.find. run.
  destruct (isdbgrid s); run; [|done].
  destruct (balancerAt s (probes s)).1; run; [done|].
  destruct (balancerAt s (S (probes s))).2; run; [done|]. done.
Qed.

(** A scan that returns, summed up. *)
Lemma find_exact (ns : string) (s s' : Shell) (r : ScanResult) :
  Orphans.find ns s = (Ret r, s') →
  ∃ s1 s2,
    NoDup (connections r)
    ∧ (∀ sh, sh ∈ connections r ↔
             sh ∈ config_shards s ∧ is_active s sh ∧ collection s sh ns ≠ [])
    ∧ chunks_scanned ns (connections r) (chunks_of s ns)
        (new_result ns (connections r)) r s1 s2
    ∧ collection s1 = collection s
    ∧ heap s' = heap s2.
Proof.
  intros Hfind.
  destruct (find_Ret_preconditions _ _ _ _ Hfind) as (Hgrid & Hstate & Hrun).
  destruct (find_run ns s Hgrid Hstate Hrun)
    as (conns & s1 & r0 & s2 & Hnd & Hin & Hsame & Hscan & Hfind').
  rewrite Hfind' in Hfind. injection Hfind as <- <-.
  apply (scan_chunks_exact _ ns conns) in Hscan; [|done|done].
  pose proof Hscan as (_ & Hconns & _).
  rewrite Hconns. exists s1, s2. split; [done|]. split; [done|].
  split; [done|]. split; [|done].
  by destruct Hsame as (_ & _ & _ & _ & _ & _ & _ & -> & _).
Qed.

Lemma lookup_entries (coll : string → string → list doc) (ns : string)
    (conns : list string) (chunks : list chunk) :
  ∀ h0 h : list chunk,
    h = h0 ++ (marked coll ns conns <$> chunks) →
    (λ l, h !! l) <$> entries coll ns conns (length h0) chunks
    = listing coll ns conns chunks.
Proof.
  induction chunks as [|c rest IH]; intros h0 h Hh; [done|].
  unfold listing. cbn [entries]. rewrite !fmap_cons, fmap_app. cbn [concat].
  f_equal.
  - rewrite fmap_replicate. f_equal. rewrite Hh. by apply list_lookup_middle.
  - specialize (IH (h0 ++ [marked coll ns conns c]) h).
    replace (length (h0 ++ [marked coll ns conns c])) with (S (length h0)) in IH
      by (rewrite length_app; cbn; lia).
    apply IH. by rewrite Hh, <- (assoc app).
Qed.

Lemma offenders_nil (coll : string → string → list doc) (ns : string)
    (c : chunk) (shards : list string) :
  (∀ sh, strays coll ns c sh = 0) → offenders coll ns c shards = [].
Proof.
  intros Hzero. induction shards as [|shard rest IH]; [done|].
  rewrite offenders_cons_miss; [done|]. specialize (Hzero shard).
  unfold strays in Hzero. case_decide; [by left|right; lia].
Qed.

Lemma entries_nil (coll : string → string → list doc) (ns : string)
    (conns : list string) (chunks : list chunk) :
  (∀ c, c ∈ chunks → ∀ sh, strays coll ns c sh = 0) →
  ∀ base, entries coll ns conns base chunks = [].
Proof.
  induction chunks as [|c rest IH]; intros Hzero base; [done|].
  cbn [entries]. rewrite IH, offenders_nil; [done| |].
  - apply Hzero. by left.
  - intros c' Hc'. apply Hzero. by right.
Qed.

Lemma elem_of_insert_by_min (c d : chunk) (l : list chunk) :
  c ∈ insert_by_min d l ↔ c = d ∨ c ∈ l.
Proof.
  induction l as [|e l IH]; cbn;
    [rewrite list_elem_of_singleton, elem_of_nil; tauto|].
  destruct (_ <=? 0); rewrite !elem_of_cons, ?IH; tauto.
Qed.

Lemma elem_of_sort_by_min (c : chunk) (l : list chunk) :
  c ∈ sort_by_min l ↔ c ∈ l.
Proof.
  induction l as [|d l IH]; [done|]. cbn.
  by rewrite elem_of_insert_by_min, elem_of_cons, IH.
Qed.

Lemma elem_of_chunks_of (s : Shell) (ns : string) (c : chunk) :
  c ∈ chunks_of s ns ↔ c ∈ config_chunks s ∧ chunk_ns c = ns.
Proof.
  unfold chunks_of. rewrite elem_of_sort_by_min, list_elem_of_filter. tauto.
Qed.

Lemma total_zero (l : list Z) : Forall (λ x, x = 0) l → total l = 0.
Proof.
  induction 1 as [|x l -> _ IH]; [done|]. by rewrite total_cons, IH.
Qed.



(** X2.  [Orphans.find] returns a result exactly when the cluster is a
    sharded one and the balancer is found stopped and at rest: once these
    preconditions hold nothing in the scan throws, in exact or approximate
    mode, and in particular the assertion on the order of the chunks cannot
    fail, the chunks coming sorted on [min]. *)
Theorem find_returns_iff (ns : string) (s : Shell) :
  (∃ r s', Orphans.find ns s = (Ret r, s'))
  ↔ isdbgrid s = true
    ∧ (balancerAt s (probes s)).1 = false
    ∧ (balancerAt s (S (probes s))).2 = false.
Proof.
  split.
  - intros (r & s' & Hfind). by eapply find_Ret_preconditions.
  - intros (Hgrid & Hstate & Hrun).
    destruct (find_run ns s Hgrid Hstate Hrun)
      as (conns & s1 & r & s2 & _ & _ & _ & _ & Hfind).
    by eexists _, _.
Qed.

(** X3.  The shards a scan queries, the [connections] its result keeps,
    are the shards of [config.shards] that [Shard.active] lets through (all
    of them when it is empty) and that hold at least one document of the
    namespace, each once. *)
Theorem find_connects_active_shards_with_data (ns : string) (s s' : Shell)
    (r : ScanResult) :
  Orphans.find ns s = (Ret r, s') →
  NoDup (connections r)
  ∧ ∀ sh, sh ∈ connections r ↔
          sh ∈ config_shards s ∧ is_active s sh ∧ collection s sh ns ≠ [].
Proof.
  intros Hfind. destruct (find_exact _ _ _ _ Hfind) as (s1 & s2 & Hnd & Hin & _).
  done.
Qed.

Lemma find_connects_active_shards_with_data_witness :
  Orphans.find orders residue_on_two
  = (Ret (found residue_on_two), scanned residue_on_two)
  ∧ NoDup (connections (found residue_on_two))
  ∧ ∀ sh, sh ∈ connections (found residue_on_two) ↔
          sh ∈ config_shards residue_on_two ∧ is_active residue_on_two sh
          ∧ collection residue_on_two sh orders ≠ [].
Proof.
  split; [by vm_compute|].
  apply (find_connects_active_shards_with_data orders residue_on_two
           (scanned residue_on_two) (found residue_on_two)).
  by vm_compute.
Defined.





Lemma find_lists (ns : string) (s s' : Shell) (r : ScanResult) :
  Orphans.find ns s = (Ret r, s') →
  (λ l, heap s' !! l) <$> badChunks r
  = listing (collection s) ns (connections r) (chunks_of s ns).
Proof.
  intros Hfind.
  destruct (find_exact _ _ _ _ Hfind)
    as (s1 & s2 & Hnd & Hin & Hscan & Hcoll & Hheap).
  destruct Hscan as (_ & _ & _ & _ & Hh & Hbad & _).
  rewrite Hcoll in *. cbn in Hbad. rewrite Hbad, Hheap.
  by apply lookup_entries.
Qed.

(** X6.  What a scan lists.  For each chunk of the namespace, in the order
    of [min], [badChunks] has as many entries as there are queried shards
    that hold documents of the chunk without owning it; all the entries of
    a chunk are one and the same object, the chunk with the last of those
    shards as [orphanedOn] and the number of documents found on that shard
    as [orphanCount]. *)
Theorem find_listing (ns : string) (s s' : Shell) (r : ScanResult) :
  Orphans.find ns s = (Ret r, s') →
  (λ l, heap s' !! l) <$> badChunks r
  = listing (collection s) ns (connections r) (chunks_of s ns).
Proof. apply find_lists. Qed.

Lemma find_listing_witness :
  Orphans.find orders residue_on_two
  = (Ret (found residue_on_two), scanned residue_on_two)
  ∧ (λ l, heap (scanned residue_on_two) !! l)
      <$> badChunks (found residue_on_two)
    = listing (collection residue_on_two) orders
        (connections (found residue_on_two))
        (chunks_of residue_on_two orders).
Proof.
  split; [by vm_compute|].
  apply (find_listing orders residue_on_two (scanned residue_on_two)
           (found residue_on_two)).
  by vm_compute.
Defined.

(** X7.  On a cluster where no shard holds a document within the bounds of
    a chunk of the namespace that it does not own, a scan finds nothing:
    [count] is zero and [badChunks] is empty. *)
Theorem find_nothing_on_clean_cluster (ns : string) (s s' : Shell)
    (r : ScanResult) :
  (∀ c sh, c ∈ config_chunks s → chunk_ns c = ns →
           strays (collection s) ns c sh = 0) →
  Orphans.find ns s = (Ret r, s') →
  count r = 0 ∧ badChunks r = [].
Proof.
  intros Hclean Hfind.
  destruct (find_exact _ _ _ _ Hfind)
    as (s1 & s2 & Hnd & Hin & Hscan & Hcoll & _).
  destruct Hscan as (_ & _ & _ & _ & _ & Hbad & Hcount & _).
  rewrite Hcoll in *. cbn in Hbad, Hcount.
  assert (Hin' : ∀ c, c ∈ chunks_of s ns →
                      ∀ sh, strays (collection s) ns c sh = 0).
  { intros c [Hc Hns]%elem_of_chunks_of sh. by apply Hclean. }
  split.
  - rewrite Hcount. apply total_zero, Forall_fmap, Forall_forall.
    intros c Hc. cbn. apply total_zero, Forall_fmap, Forall_forall.
    intros sh _. by apply Hin'.
  - rewrite Hbad. by apply entries_nil.
Qed.

Lemma find_nothing_on_clean_cluster_witness :
  (∀ c sh, c ∈ config_chunks tidy → chunk_ns c = orders →
           strays (collection tidy) orders c sh = 0)
  ∧ Orphans.find orders tidy = (Ret (found tidy), scanned tidy)
  ∧ count (found tidy) = 0 ∧ badChunks (found tidy) = [].
Proof.
  assert (Hclean : ∀ c sh, c ∈ config_chunks tidy → chunk_ns c = orders →
                           strays (collection tidy) orders c sh = 0).
  { intros c sh Hc _. change (c ∈ three_chunks) in Hc. unfold three_chunks in Hc.
    rewrite !elem_of_cons, elem_of_nil in Hc.
    unfold strays, orphans_on.
    destruct Hc as [->|[->|[->|[]]]]; cbn; repeat case_decide; by subst. }
  split; [exact Hclean|]. split; [by vm_compute|].
  apply (find_nothing_on_clean_cluster orders tidy (scanned tidy) (found tidy));
    [exact Hclean|by vm_compute].
Defined.

(** ** More on removing the current chunk *)

(** X8.  Without a chunk under the cursor, [remove] answers 0 and does
    nothing but print one message: that nothing was found when [count] is 0
    or [badChunks] is empty, else that no chunk was examined when [next] has
    not been called since the cursor was created or rewound, else that no
    chunk is left; it never reports a bad chunk then. *)
Theorem remove_without_current_chunk (r : ScanResult) (s : Shell) :
  result.current r = None →
  result.remove r s
  = (Ret (0, r),
     with_trace
       (trace s
        ++ [EvPrint (if (count r =? 0) || (Z.of_nat (length (badChunks r)) =? 0)
                     then MsgNothingToRemove
                     else if _iter r <? 0 then MsgNotExamined
                     else MsgNoneLeft)]) s).
Proof.
  unfold result.current, result.remove. intros Hnone.
  destruct ((count r =? 0) || (Z.of_nat (length (badChunks r)) =? 0));
    [reflexivity|].
  destruct (_iter r <? 0) eqn:Hneg; [reflexivity|].
  destruct (_iter r >=? Z.of_nat (length (badChunks r))) eqn:Hge;
    [reflexivity|].
  apply lookup_ge_None in Hnone. rewrite Z.geb_leb in Hge.
  apply Z.leb_gt in Hge. apply Z.ltb_ge in Hneg. lia.
Qed.

Lemma remove_without_current_chunk_witness :
  result.current (found residue) = None
  ∧ result.remove (found residue) (scanned residue)
    = (Ret (0, found residue),
       with_trace (trace (scanned residue) ++ [EvPrint MsgNotExamined])
         (scanned residue)).
Proof.
  split; [by vm_compute|].
  apply (remove_without_current_chunk (found residue) (scanned residue)).
  by vm_compute.
Defined.

Lemma mem_Z_true (x : Z) (l : list Z) : mem_Z x l = true ↔ x ∈ l.
Proof.
  unfold mem_Z. rewrite existsb_exists. split.
  - intros (y & Hy%list_elem_of_In & ->%Z.eqb_eq). done.
  - intros Hx. exists x. split; [by apply list_elem_of_In|apply Z.eqb_refl].
Qed.

Lemma mem_Z_false (x : Z) (l : list Z) : mem_Z x l = false ↔ x ∉ l.
Proof. rewrite <- mem_Z_true. by destruct (mem_Z x l). Qed.

Lemma filter_ext_in_id {A : Type} (P : A → Prop) `{!∀ x, Decision (P x)}
    (l : list A) :
  (∀ x, x ∈ l → P x) → filter P l = l.
Proof.
  induction l as [|a l IH]; intros Hall; [done|].
  rewrite filter_cons_True by (apply Hall; by left).
  rewrite IH; [done|]. intros x Hx. apply Hall. by right.
Qed.

Lemma filter_ext_in {A : Type} (P1 P2 : A → Prop)
    `{!∀ x, Decision (P1 x), !∀ x, Decision (P2 x)} (l : list A) :
  (∀ x, x ∈ l → P1 x ↔ P2 x) → filter P1 l = filter P2 l.
Proof.
  induction l as [|a l IH]; intros Hext; [done|].
  rewrite !filter_cons. rewrite IH by (intros x Hx; apply Hext; by right).
  destruct (decide (P1 a)) as [H1|H1], (decide (P2 a)) as [H2|H2]; try done;
    exfalso; apply (Hext a) in H1 || apply (Hext a) in H2; try done; by left.
Qed.

Lemma delete_ids_in_range (P : doc → Prop) `{!∀ d, Decision (P d)}
    (docs : list doc) :
  NoDup (doc_id <$> docs) →
  delete_ids (doc_id <$> filter P docs) docs = filter (λ d, ¬ P d) docs.
Proof.
  induction docs as [|d rest IH]; intros Hnd; [done|].
  rewrite fmap_cons in Hnd. apply NoDup_cons in Hnd as [Hd Hnd].
  unfold delete_ids in *. rewrite !filter_cons.
  destruct (decide (P d)) as [HP|HP].
  - rewrite fmap_cons. rewrite decide_False.
    2:{ rewrite mem_Z_false. intros Hn. apply Hn. by left. }
    rewrite decide_False by tauto. rewrite <- IH by done.
    apply filter_ext_in. intros x Hx. rewrite !mem_Z_false, not_elem_of_cons.
    split; [tauto|]. intros Hx'. split; [|done]. intros Heq.
    apply Hd. rewrite <- Heq. by apply list_elem_of_fmap_2.
  - rewrite decide_True.
    2:{ rewrite mem_Z_false. intros Hin. apply Hd.
        apply list_elem_of_fmap in Hin as (x & -> & Hx%list_elem_of_filter).
        apply list_elem_of_fmap_2. tauto. }
    rewrite decide_True by done. by rewrite IH.
Qed.

(** X9.  When [remove] marks the chunk under the cursor as removed, it has
    deleted from the shard the object names every document of the namespace
    within the bounds of the chunk and, the documents of a collection having
    distinct identifiers, no other; no other collection has changed.  The
    count it answers and records as [numRemoved] is the number of documents
    that were in range. *)
Theorem remove_deletes_the_chunk (r r' : ScanResult) (s s' : Shell) (l : nat)
    (c c' : chunk) (shard : string) (n : Z) :
  result.current r = Some l →
  heap s !! l = Some c →
  removed c = false →
  orphanedOn c = Some shard →
  NoDup (doc_id <$> collection s shard (namespace r)) →
  result.remove r s = (Ret (n, r'), s') →
  heap s' !! l = Some c' →
  removed c' = true →
  n = orphans_on (collection s) (namespace r) c shard
  ∧ numRemoved c' = Some n
  ∧ collection s' shard (namespace r)
    = filter (λ d, ¬ in_range (chunk_min c) (chunk_max c) d = true)
        (collection s shard (namespace r))
  ∧ ∀ sh ns, ¬ (sh = shard ∧ ns = namespace r) →
             collection s' sh ns = collection s sh ns.
Proof.
  intros Hl Hc Hr Hon Hnd Hrem Hc' Hr'.
  destruct (remove_cases r s) as [[m Hm]|(l0 & c0 & Hl0 & Hc0 & _ & Hfound)].
  { rewrite Hm in Hrem. injection Hrem as _ _ <-. cbn in Hc'. congruence. }
  assert (l0 = l) as -> by congruence. assert (c0 = c) as -> by congruence.
  rewrite Hfound in Hrem.
  destruct (remove_found_spec r l c s) as (evs & _ & Hout).
  rewrite Hrem in Hout. cbn [fst snd] in Hout.
  destruct Hout as (_ & shard' & done & rest & Hon' & Hids & -> & Hdel & Hcase).
  assert (shard' = shard) as -> by congruence.
  destruct Hcase as [(Hh & _)|(Hh & -> & _)]; [congruence|].
  rewrite app_nil_r in Hids. subst done.
  rewrite Hh, list_lookup_alter_eq, Hc in Hc'. injection Hc' as <-.
  unfold ids_in_chunk in *. rewrite length_fmap. split; [done|].
  split; [done|]. split.
  - rewrite (Hdel shard (namespace r)), decide_True by done.
    by apply delete_ids_in_range.
  - intros sh ns Hne. by rewrite (Hdel sh ns), decide_False.
Qed.

Lemma remove_deletes_the_chunk_witness :
  result.current (with_iter 0 (found residue)) = Some 1%nat
  ∧ heap (scanned residue) !! 1%nat = Some c2_on_A
  ∧ removed c2_on_A = false
  ∧ orphanedOn c2_on_A = Some "A"%string
  ∧ NoDup (doc_id <$> collection (scanned residue) "A"
                        (namespace (with_iter 0 (found residue))))
  ∧ result.remove (with_iter 0 (found residue)) (scanned residue)
    = (Ret (5, with_iter 0 (found residue)),
       run_state (result.remove (with_iter 0 (found residue))) (scanned residue))
  ∧ heap (run_state (result.remove (with_iter 0 (found residue)))
            (scanned residue)) !! 1%nat
    = Some (set_removed 5 c2_on_A)
  ∧ removed (set_removed 5 c2_on_A) = true
  ∧ 5 = orphans_on (collection (scanned residue))
          (namespace (with_iter 0 (found residue))) c2_on_A "A"
  ∧ numRemoved (set_removed 5 c2_on_A) = Some 5
  ∧ collection (run_state (result.remove (with_iter 0 (found residue)))
                  (scanned residue)) "A"
      (namespace (with_iter 0 (found residue)))
    = filter (λ d, ¬ in_range (chunk_min c2_on_A) (chunk_max c2_on_A) d = true)
        (collection (scanned residue) "A"
           (namespace (with_iter 0 (found residue))))
  ∧ ∀ sh ns, ¬ (sh = "A"%string ∧ ns = namespace (with_iter 0 (found residue))) →
             collection (run_state (result.remove (with_iter 0 (found residue)))
                           (scanned residue)) sh ns
             = collection (scanned residue) sh ns.
Proof.
  do 4 (split; [by vm_compute|]).
  split; [apply (bool_decide_unpack _); by vm_compute|].
  do 3 (split; [by vm_compute|]).
  by apply (remove_deletes_the_chunk (with_iter 0 (found residue))
              (with_iter 0 (found residue)) (scanned residue)
              (run_state (result.remove (with_iter 0 (found residue)))
                 (scanned residue))
              1 c2_on_A (set_removed 5 c2_on_A) "A" 5);
    (vm_compute; done) || (apply (bool_decide_unpack _); by vm_compute).
Defined.

(** ** Disciplines of removal *)

Section removal.

Variables (conns : list string) (ns : string) (bad : list nat).
Variables (R : relation Shell) (T : Shell → string → Prop).

Hypothesis R_refl : Reflexive R.
Hypothesis R_trans : Transitive R.
Hypothesis T_back : ∀ s s' e, R s s' → T s' e → T s e.
Hypothesis R_note : ∀ s e,
  removal_note e = true → R s (with_trace (trace s ++ [e]) s).
Hypothesis R_range : ∀ s shard lo hi,
  shard ∈ conns → R s (with_trace (trace s ++ [EvRangeIds shard ns lo hi]) s).
Hypothesis R_probe : ∀ s e,
  _balancerParanoia s = true → probe e = true →
  R s (with_trace (trace s ++ [e]) (with_probes (S (probes s)) s)).
Hypothesis R_delete : ∀ s shard ids,
  shard ∈ conns → (0 < length ids ≤ 100)%nat →
  R s (remove_ids shard ns ids s).2.
Hypothesis R_mark : ∀ s l n,
  R s (with_heap (alter (set_removed n) l (heap s)) s).
Hypothesis T_balancer : ∀ s, _balancerParanoia s = true → T s balancer_msg.
Hypothesis T_type : ∀ s l c,
  l ∈ bad → heap s !! l = Some c →
  (∀ shard, orphanedOn c = Some shard → shard ∉ conns) →
  T s "TypeError".

Lemma obeys_ret {A : Type} (a : A) (s : Shell) : obeys R T (mret a) s.
Proof. split; [apply R_refl|]. intros e He. discriminate He. Qed.

Lemma obeys_bind {A B : Type} (m : M A) (f : A → M B) (s : Shell) :
  obeys R T m s →
  (∀ a s1, m s = (Ret a, s1) → obeys R T (f a) s1) →
  obeys R T (m ≫= f) s.
Proof.
  intros [HR HT] Hf. unfold obeys. rewrite bind_unfold.
  destruct (m s) as [[a|e|] s1] eqn:Hm; cbn [fst snd] in *.
  - destruct (Hf a s1 eq_refl) as [HR' HT']. split; [by eapply R_trans|].
    intros e He. eapply T_back; [done|]. by apply HT'.
  - split; [done|]. intros e' [= <-]. by apply HT.
  - split; [done|]. intros e He. discriminate He.
Qed.

Lemma obeys_read_bind {A B : Type} (f : Shell → A) (k : A → M B) (s : Shell) :
  obeys R T (k (f s)) s → obeys R T (read f ≫= k) s.
Proof. done. Qed.

Lemma obeys_note (e : event) (s : Shell) :
  removal_note e = true → obeys R T (emit e) s.
Proof.
  intros He. split; [by apply R_note|]. intros e' He'. discriminate He'.
Qed.

Lemma obeys_balancer_check (s : Shell) :
  _balancerParanoia s = true → obeys R T result.balancer_check s.
Proof.
  intros Hp. unfold obeys, result.balancer_check. run.
  pose proof (R_probe s (EvBalancerState (balancerAt s (probes s)).1) Hp eq_refl)
    as H1.
  destruct (balancerAt s (probes s)).1; run.
  { split; [exact H1|]. intros e [= <-]. by apply T_balancer. }
  pose proof (R_probe (with_trace (trace s ++ [EvBalancerState false])
                         (with_probes (S (probes s)) s))
                (EvBalancerRunning (balancerAt s (S (probes s))).2) Hp eq_refl)
    as H2.
  cbn in H2. destruct (balancerAt s (S (probes s))).2; run.
  - split; [by eapply R_trans|]. intros e [= <-]. by apply T_balancer.
  - split; [by eapply R_trans|]. intros e He. discriminate He.
Qed.

Lemma obeys_remove_batches (shard : string) (toRemove : list Z) :
  shard ∈ conns →
  ∀ (acc : list Z) (cnt : Z) (s : Shell),
    (length acc < 100)%nat →
    obeys R T (result.remove_batches shard ns toRemove acc cnt) s.
Proof.
  intros Hsh. induction toRemove as [|id rest IH]; intros acc cnt s Hacc.
  { apply obeys_ret. }
  cbn [result.remove_batches].
  assert (Hlen : length (acc ++ [id]) = S (length acc))
    by (rewrite length_app; cbn; lia).
  destruct (_ || _) eqn:Hcond.
  2:{ apply IH. apply orb_false_iff in Hcond as [Hcond _].
      rewrite Z.geb_leb in Hcond. apply Z.leb_gt in Hcond. lia. }
  apply obeys_read_bind. apply obeys_bind.
  { destruct (_balancerParanoia s) eqn:Hp;
      [by apply obeys_balancer_check|apply obeys_ret]. }
  intros [] s1 _. apply obeys_bind.
  { split; [apply R_delete; [done|lia]|]. intros e He. discriminate He. }
  intros [] s2 _. apply obeys_bind.
  { unfold getLastError. apply obeys_read_bind. apply obeys_bind;
      [by apply obeys_note|]. intros [] s3 _. apply obeys_ret. }
  intros [e|] s3 _; [apply obeys_ret|]. apply IH. cbn. lia.
Qed.

Lemma obeys_print_only {A : Type} (m : message) (a : A) (s : Shell) :
  obeys R T (print m;; mret a) s.
Proof.
  apply obeys_bind; [by apply obeys_note|]. intros [] s1 _. apply obeys_ret.
Qed.

Lemma obeys_remove (r : ScanResult) (s : Shell) :
  connections r = conns → namespace r = ns → badChunks r = bad →
  obeys R T (result.remove r) s.
Proof.
  intros Hconns Hns Hbad. unfold result.remove.
  destruct (_ || _); [apply obeys_print_only|].
  destruct (_iter r <? 0); [apply obeys_print_only|].
  destruct (_iter r >=? _); [apply obeys_print_only|].
  destruct (badChunks r !! Z.to_nat (_iter r)) as [l|] eqn:Hl;
    [|apply obeys_print_only].
  assert (Hin : l ∈ bad) by (rewrite <- Hbad; by eapply list_elem_of_lookup_2).
  apply obeys_read_bind. destruct (heap s !! l) as [c|] eqn:Hc;
    [|apply obeys_print_only].
  destruct (removed c); [apply obeys_print_only|].
  apply obeys_bind; [by apply obeys_note|]. intros [] s1 Hs1.
  assert (Hc1 : heap s1 !! l = Some c) by (by injection Hs1 as <-).
  assert (Hthrow : (∀ shard, orphanedOn c = Some shard → shard ∉ conns) →
    ∀ B (k : string → M B), obeys R T (throw "TypeError" ≫= k) s1).
  { intros Hno B k. split; [apply R_refl|]. intros e [= <-].
    by eapply T_type. }
  unfold result.connection_of.
  destruct (orphanedOn c) as [shard|] eqn:Hon; [|by apply Hthrow].
  rewrite Hconns. case_bool_decide as Hsh.
  2:{ apply Hthrow. by intros ? [= <-]. }
  apply obeys_bind; [apply obeys_ret|]. intros ? s2 [= <- <-].
  rewrite Hns. apply obeys_bind.
  { unfold range_ids. apply obeys_bind.
    - split; [by apply R_range|]. intros e He. discriminate He.
    - intros [] s3 _. apply obeys_read_bind, obeys_ret. }
  intros toRemove s3 _. apply obeys_bind.
  { apply obeys_remove_batches; [done|]. cbn. lia. }
  intros [n [e|]] s4 _.
  - apply obeys_bind; [by apply obeys_note|]. intros [] s5 _. apply obeys_ret.
  - apply obeys_bind; [|intros [] s5 _; apply obeys_ret].
    apply obeys_bind; [by apply obeys_note|]. intros [] s5 _.
    split; [apply R_mark|]. intros e' He'. discriminate He'.
Qed.

Lemma obeys_pause (secs : option Z) (s : Shell) :
  obeys R T (result.pause secs) s.
Proof.
  unfold result.pause. destruct secs as [x|]; [|apply obeys_ret].
  destruct (x =? 0); [apply obeys_ret|by apply obeys_note].
Qed.

Lemma obeys_removeAll_loop (secs : option Z) (fuel : nat) :
  ∀ (r : ScanResult) (num : Z) (s : Shell),
    connections r = conns → namespace r = ns → badChunks r = bad →
    obeys R T (result.removeAll_loop fuel secs r num) s.
Proof.
  induction fuel as [|fuel IH]; intros r num s Hconns Hns Hbad;
    cbn [result.removeAll_loop]; destruct (result.hasNext r);
    try apply obeys_ret.
  { split; [apply R_refl|]. intros e He. discriminate He. }
  apply obeys_bind; [apply obeys_ret|]. intros [x r1] s1 [= _ <- <-].
  apply obeys_bind; [by apply obeys_remove|]. intros [n r2] s2 Hrem.
  apply remove_returns_receiver in Hrem as ->.
  apply obeys_bind; [apply obeys_pause|]. intros [] s3 _. by apply IH.
Qed.

Lemma obeys_removeAll (secs : option Z) (fuel : nat) (r : ScanResult)
    (s : Shell) :
  connections r = conns → namespace r = ns → badChunks r = bad →
  obeys R T (result.removeAll fuel secs r) s.
Proof. intros. by apply obeys_removeAll_loop. Qed.

End removal.

(** ** What a removal sends *)

Lemma sends_on_target_refl (conns : list string) (ns : string) :
  Reflexive (sends_on_target conns ns).
Proof. intros s. exists []. by rewrite app_nil_r. Qed.

Lemma sends_on_target_trans (conns : list string) (ns : string) :
  Transitive (sends_on_target conns ns).
Proof.
  intros s1 s2 s3 (e12 & H12 & He12) (e23 & H23 & He23).
  exists (e12 ++ e23). rewrite H23, H12, <- (assoc app).
  split; [done|]. by apply Forall_app.
Qed.

Lemma sends_on_target_one (conns : list string) (ns : string) (s s' : Shell)
    (e : event) :
  trace s' = trace s ++ [e] → on_target conns ns e →
  sends_on_target conns ns s s'.
Proof. intros Ht He. exists [e]. split; [done|]. by repeat constructor. Qed.

Lemma removal_on_target (fuel : nat) (secs : option Z) (r : ScanResult)
    (num : Z) (s : Shell) :
  sends_on_target (connections r) (namespace r) s (result.remove r s).2
  ∧ sends_on_target (connections r) (namespace r) s
      (result.removeAll_loop fuel secs r num s).2.
Proof.
  assert (Hnote : ∀ s e, removal_note e = true →
    sends_on_target (connections r) (namespace r) s
      (with_trace (trace s ++ [e]) s)).
  { intros s0 e He. apply (sends_on_target_one _ _ _ _ e); [done|].
    by destruct e. }
  assert (Hrange : ∀ s shard lo hi, shard ∈ connections r →
    sends_on_target (connections r) (namespace r) s
      (with_trace (trace s ++ [EvRangeIds shard (namespace r) lo hi]) s)).
  { intros s0 shard lo hi Hsh.
    by apply (sends_on_target_one _ _ _ _ (EvRangeIds shard (namespace r) lo hi)). }
  assert (Hprobe : ∀ s e, _balancerParanoia s = true → probe e = true →
    sends_on_target (connections r) (namespace r) s
      (with_trace (trace s ++ [e]) (with_probes (S (probes s)) s))).
  { intros s0 e _ He. apply (sends_on_target_one _ _ _ _ e); [done|].
    by destruct e. }
  assert (Hdelete : ∀ s shard ids, shard ∈ connections r →
    (0 < length ids ≤ 100)%nat →
    sends_on_target (connections r) (namespace r) s
      (remove_ids shard (namespace r) ids s).2).
  { intros s0 shard ids Hsh Hlen.
    by apply (sends_on_target_one _ _ _ _ (EvDelete shard (namespace r) ids)). }
  assert (Hmark : ∀ s l n,
    sends_on_target (connections r) (namespace r) s
      (with_heap (alter (set_removed n) l (heap s)) s)).
  { intros s0 l n. exists []. by rewrite app_nil_r. }
  split.
  - apply (obeys_remove (connections r) (namespace r) (badChunks r)
             (sends_on_target (connections r) (namespace r)) (λ _ _, True));
      try done;
      [apply sends_on_target_refl|apply sends_on_target_trans].
  - apply (obeys_removeAll_loop (connections r) (namespace r) (badChunks r)
             (sends_on_target (connections r) (namespace r)) (λ _ _, True));
      try done;
      [apply sends_on_target_refl|apply sends_on_target_trans].
Qed.

(** X10.  Whatever the result object and the state of the cluster, [remove]
    and [removeAll] send range queries and bulk deletes only for the
    namespace of the result and only to shards among its [connections];
    every bulk delete names at least one and at most 100 documents; apart
    from these, balancer probes and [getLastError], they send nothing: no
    scan is made again. *)
Theorem removal_stays_on_target (fuel : nat) (secs : option Z)
    (r : ScanResult) (s : Shell) :
  (∃ evs, trace (run_state (result.remove r) s) = trace s ++ evs
          ∧ Forall (on_target (connections r) (namespace r)) evs)
  ∧ (∃ evs, trace (run_state (result.removeAll fuel secs r) s) = trace s ++ evs
            ∧ Forall (on_target (connections r) (namespace r)) evs).
Proof.
  split.
  - apply (removal_on_target 0 None r 0 s).
  - apply (removal_on_target fuel secs (result.rewind r) 0 s).
Qed.

Lemma unprobed_refl : Reflexive unprobed.
Proof.
  intros s Hp. split; [done|]. split; [done|]. exists []. by rewrite app_nil_r.
Qed.

Lemma unprobed_trans : Transitive unprobed.
Proof.
  intros s1 s2 s3 H12 H23 Hp. destruct (H12 Hp) as (Hp2 & Hn12 & e12 & Ht12 & He12).
  destruct (H23 Hp2) as (Hp3 & Hn23 & e23 & Ht23 & He23).
  split; [done|]. split; [congruence|].
  exists (e12 ++ e23). rewrite Ht23, Ht12, <- (assoc app).
  split; [done|]. by apply Forall_app.
Qed.

Lemma unprobed_one (s s' : Shell) (e : event) :
  _balancerParanoia s' = _balancerParanoia s → probes s' = probes s →
  trace s' = trace s ++ [e] → probe e = false → unprobed s s'.
Proof.
  intros Hp Hn Ht He Hoff. split; [congruence|]. split; [done|].
  exists [e]. split; [done|]. by repeat constructor.
Qed.

(** X11.  Once balancer paranoia has been switched off with
    [setBalancerParanoia(false)], [removeAll] makes no balancer probe, and
    it never stops with the exception of the balancer check, whatever the
    balancer does meanwhile. *)
Theorem removeAll_without_paranoia (fuel : nat) (secs : option Z)
    (r : ScanResult) (s : Shell) :
  probes (run_state (Orphans.setBalancerParanoia false
                     ;; result.removeAll fuel secs r) s) = probes s
  ∧ (∃ evs, trace (run_state (Orphans.setBalancerParanoia false
                              ;; result.removeAll fuel secs r) s)
            = trace s ++ evs
            ∧ Forall (λ e, probe e = false) evs)
  ∧ run_out (Orphans.setBalancerParanoia false
             ;; result.removeAll fuel secs r) s ≠ Throw balancer_msg.
Proof.
  unfold run_state, run_out. rewrite bind_unfold.
  unfold Orphans.setBalancerParanoia. cbv beta iota.
  destruct (obeys_removeAll (connections r) (namespace r) (badChunks r)
              unprobed (λ s e, _balancerParanoia s = false → e ≠ balancer_msg))
    with (secs := secs) (fuel := fuel) (r := r) (s := with_paranoia false s)
    as [HR HT]; try done.
  - apply unprobed_refl.
  - apply unprobed_trans.
  - intros s0 s1 e H01 HT Hp. apply HT. by apply H01.
  - intros s0 e He. apply (unprobed_one _ _ e); try done. by destruct e.
  - intros s0 shard lo hi _.
    by apply (unprobed_one _ _ (EvRangeIds shard (namespace r) lo hi)).
  - intros s0 e Hp _ Hoff. congruence.
  - intros s0 shard ids _ _.
    by apply (unprobed_one _ _ (EvDelete shard (namespace r) ids)).
  - intros s0 l n Hp. split; [done|]. split; [done|].
    exists []. by rewrite app_nil_r.
  - intros s0 Hp Hoff. congruence.
  - destruct (HR eq_refl) as (_ & Hn & Hevs). split; [exact Hn|].
    split; [exact Hevs|]. intros Hthrow. by apply (HT _ Hthrow).
Qed.

(** ** Removing what a scan found *)

Lemma elem_of_concat {A : Type} (x : A) (ls : list (list A)) :
  x ∈ concat ls ↔ ∃ l, x ∈ l ∧ l ∈ ls.
Proof.
  induction ls as [|l ls IH]; cbn [concat].
  - split; [by intros ?%elem_of_nil|]. by intros (l & _ & ?%elem_of_nil).
  - rewrite elem_of_app, IH. split.
    + intros [Hx|(l' & Hx & Hl')]; [exists l|exists l'];
        (split; [done|]); [by left|by right].
    + intros (l' & Hx & [->|Hl']%elem_of_cons); [by left|right; by exists l'].
Qed.

Lemma elem_of_listing (coll : string → string → list doc) (ns : string)
    (conns : list string) (chunks : list chunk) (x : option chunk) :
  x ∈ listing coll ns conns chunks ↔
  ∃ c, c ∈ chunks ∧ offenders coll ns c conns ≠ []
       ∧ x = Some (marked coll ns conns c).
Proof.
  unfold listing. rewrite elem_of_concat. split.
  - intros (xs & Hx & Hxs). apply list_elem_of_fmap in Hxs as (c & -> & Hc).
    apply elem_of_replicate in Hx as [-> Hn]. exists c.
    split; [done|]. split; [|done]. by destruct (offenders coll ns c conns).
  - intros (c & Hc & Hoff & ->). eexists. split; [|by apply list_elem_of_fmap_2].
    apply elem_of_replicate. split; [done|].
    by destruct (offenders coll ns c conns).
Qed.

Lemma last_offender (coll : string → string → list doc) (ns : string)
    (conns : list string) (c : chunk) :
  offenders coll ns c conns ≠ [] →
  ∃ shard, last (offenders coll ns c conns) = Some shard
           ∧ shard ∈ conns ∧ shard ≠ chunk_shard c
           ∧ 0 < orphans_on coll ns c shard
           ∧ marked coll ns conns c
             = set_orphan shard (orphans_on coll ns c shard) c.
Proof.
  intros Hoff. unfold marked.
  destruct (last (offenders coll ns c conns)) as [shard|] eqn:Hlast.
  2:{ by apply last_None in Hlast. }
  exists shard. apply last_Some_elem_of in Hlast.
  apply list_elem_of_filter in Hlast as [Hpos Hin]. unfold strays in Hpos.
  case_decide; [lia|]. done.
Qed.

Lemma find_entry (ns : string) (s s' : Shell) (r : ScanResult) (l : nat) :
  Orphans.find ns s = (Ret r, s') → l ∈ badChunks r →
  ∃ c shard,
    c ∈ config_chunks s ∧ chunk_ns c = ns
    ∧ shard ∈ connections r ∧ shard ≠ chunk_shard c
    ∧ heap s' !! l
      = Some (set_orphan shard (orphans_on (collection s) ns c shard) c).
Proof.
  intros Hfind Hl. pose proof (find_lists _ _ _ _ Hfind) as Hlist.
  assert (Hx : heap s' !! l
               ∈ listing (collection s) ns (connections r) (chunks_of s ns)).
  { rewrite <- Hlist. by apply (list_elem_of_fmap_2 (λ l, heap s' !! l)). }
  apply elem_of_listing in Hx as (c & [Hc Hns]%elem_of_chunks_of & Hoff & Hx).
  destruct (last_offender _ _ _ _ Hoff) as (shard & _ & Hin & Hne & _ & Hm).
  exists c, shard. rewrite Hx, Hm. done.
Qed.

Lemma find_fields (ns : string) (s s' : Shell) (r : ScanResult) :
  Orphans.find ns s = (Ret r, s') →
  namespace r = ns ∧ collection s' = collection s
  ∧ _balancerParanoia s' = _balancerParanoia s.
Proof.
  intros Hfind.
  destruct (find_exact _ _ _ _ Hfind) as (s1 & s2 & _ & _ & Hscan & _).
  destruct Hscan as (Hns & _).
  destruct (stable_find 0 ns s) as ((_&_&_&_&_&_&_&Hcoll&_&_&Hp) & _).
  rewrite Hfind in Hcoll, Hp. done.
Qed.

Lemma find_attributed (ns : string) (s s' : Shell) (r : ScanResult) :
  Orphans.find ns s = (Ret r, s') →
  attributed (connections r) (badChunks r) s'.
Proof.
  intros Hfind l Hl.
  destruct (find_entry _ _ _ _ _ Hfind Hl) as (c & shard & _ & _ & Hin & _ & Hh).
  by eexists _, shard.
Qed.

Lemma stays_attributed_refl (conns : list string) (bad : list nat) :
  Reflexive (stays_attributed conns bad).
Proof. by intros s. Qed.

Lemma stays_attributed_trans (conns : list string) (bad : list nat) :
  Transitive (stays_attributed conns bad).
Proof.
  intros s1 s2 s3 [Hp12 H12] [Hp23 H23]. split; [congruence|tauto].
Qed.

Lemma stays_attributed_same_heap (conns : list string) (bad : list nat)
    (s s' : Shell) :
  _balancerParanoia s' = _balancerParanoia s → heap s' = heap s →
  stays_attributed conns bad s s'.
Proof.
  intros Hp Hh. split; [done|]. unfold attributed. by rewrite Hh.
Qed.

Lemma removeAll_terminates (fuel : nat) (secs : option Z) (r : ScanResult)
    (s : Shell) :
  (length (badChunks r) ≤ fuel)%nat →
  result.removeAll fuel secs r s
  = remove_each secs (seq 0 (length (badChunks r))) (result.rewind r) 0 s
  ∧ (result.removeAll fuel secs r s).1 ≠ OutOfFuel.
Proof.
  intros Hfuel. unfold result.removeAll.
  rewrite (removeAll_loop_each secs fuel (result.rewind r) s 0 0);
    [|done|by cbn].
  cbn [result.rewind with_iter badChunks]. rewrite Nat.sub_0_r.
  split; [done|]. apply remove_each_terminates.
Qed.

(** X12.  [removeAll] on the result of a scan, in the shell the scan left,
    does not fail on a connection it lacks: every entry of [badChunks] names
    a shard the result has a connection to.  Given time enough, it returns,
    or else it stops with the exception of the balancer check, which takes
    balancer paranoia to be on. *)
Theorem removeAll_of_a_scan_finds_its_connections (ns : string)
    (s s' : Shell) (r : ScanResult) (fuel : nat) (secs : option Z) :
  Orphans.find ns s = (Ret r, s') →
  (length (badChunks r) ≤ fuel)%nat →
  (∃ n r', run_out (result.removeAll fuel secs r) s' = Ret (n, r'))
  ∨ (_balancerParanoia s' = true
     ∧ run_out (result.removeAll fuel secs r) s' = Throw balancer_msg).
Proof.
  intros Hfind Hfuel.
  assert (Hback : ∀ s s' e,
    stays_attributed (connections r) (badChunks r) s s' →
    (attributed (connections r) (badChunks r) s' →
     e = balancer_msg ∧ _balancerParanoia s' = true) →
    attributed (connections r) (badChunks r) s →
    e = balancer_msg ∧ _balancerParanoia s = true).
  { intros s0 s1 e [Hp H01] HT Hatt. rewrite <- Hp. by apply HT, H01. }
  assert (Hmark : ∀ s l n,
    stays_attributed (connections r) (badChunks r) s
      (with_heap (alter (set_removed n) l (heap s)) s)).
  { intros s0 l n. split; [done|]. intros Hatt l' Hl'.
    destruct (Hatt l' Hl') as (c & shard & Hc & Hon & Hin). cbn [heap with_heap].
    destruct (decide (l' = l)) as [->|Hne].
    - exists (set_removed n c), shard. by rewrite list_lookup_alter_eq, Hc.
    - exists c, shard. by rewrite list_lookup_alter_ne. }
  assert (Htype : ∀ s l c,
    l ∈ badChunks r → heap s !! l = Some c →
    (∀ shard, orphanedOn c = Some shard → shard ∉ connections r) →
    attributed (connections r) (badChunks r) s →
    "TypeError"%string = balancer_msg ∧ _balancerParanoia s = true).
  { intros s0 l c Hl Hc Hno Hatt.
    destruct (Hatt l Hl) as (c' & shard & Hc' & Hon & Hin).
    assert (c' = c) as -> by congruence. by destruct (Hno shard Hon). }
  destruct (obeys_removeAll (connections r) (namespace r) (badChunks r)
              (stays_attributed (connections r) (badChunks r))
              (λ s e, attributed (connections r) (badChunks r) s →
                      e = balancer_msg ∧ _balancerParanoia s = true)
              (stays_attributed_refl _ _) (stays_attributed_trans _ _) Hback
              (λ s e _, stays_attributed_same_heap _ _ s _ eq_refl eq_refl)
              (λ s sh lo hi _, stays_attributed_same_heap _ _ s _ eq_refl eq_refl)
              (λ s e _ _, stays_attributed_same_heap _ _ s _ eq_refl eq_refl)
              (λ s sh ids _ _, stays_attributed_same_heap _ _ s _ eq_refl eq_refl)
              Hmark (λ s Hp _, conj eq_refl Hp) Htype
              secs fuel r s' eq_refl eq_refl eq_refl) as [_ HT].
  destruct (removeAll_terminates fuel secs r s' Hfuel) as [_ Hterm].
  unfold run_out.
  destruct (result.removeAll fuel secs r s').1 as [[n r']|e|] eqn:Hout.
  - left. by exists n, r'.
  - right. destruct (HT e eq_refl) as [-> Hp]; [|done].
    by eapply find_attributed.
  - done.
Qed.

Lemma removeAll_of_a_scan_finds_its_connections_witness :
  Orphans.find orders balancer_returns
  = (Ret (found balancer_returns), scanned balancer_returns)
  ∧ (length (badChunks (found balancer_returns)) ≤ 2)%nat
  ∧ ((∃ n r', run_out (result.removeAll 2 None (found balancer_returns))
                (scanned balancer_returns) = Ret (n, r'))
     ∨ (_balancerParanoia (scanned balancer_returns) = true
        ∧ run_out (result.removeAll 2 None (found balancer_returns))
            (scanned balancer_returns) = Throw balancer_msg)).
Proof.
  split; [by vm_compute|]. split; [vm_compute; lia|].
  apply (removeAll_of_a_scan_finds_its_connections orders balancer_returns
           (scanned balancer_returns) (found balancer_returns) 2 None);
    [by vm_compute|vm_compute; lia].
Defined.

(** ** What a removal deletes *)

(** The effect of one [remove] on the collections and on the chunk
    objects, whatever its outcome. *)
Lemma remove_found_deletes (r : ScanResult) (l : nat) (c : chunk) (s : Shell) :
  (collection (remove_found r l c s).2 = collection s
   ∧ heap (remove_found r l c s).2 = heap s)
  ∨ ∃ shard done rest,
      orphanedOn c = Some shard ∧ shard ∈ connections r
      ∧ ids_in_chunk s shard (namespace r) c = done ++ rest
      ∧ deleted_from shard (namespace r) done s (remove_found r l c s).2
      ∧ (heap (remove_found r l c s).2 = heap s
         ∨ ∃ n, heap (remove_found r l c s).2 = alter (set_removed n) l (heap s)).
Proof.
  unfold remove_found, result.connection_of. run.
  destruct (orphanedOn c) as [shard|] eqn:Hon; run; [|by left].
  case_bool_decide as Hsh; run; [|by left].
  unfold range_ids. run.
  match goal with
  | |- context [result.remove_batches ?sh ?ns ?t ?a ?n ?s1] =>
      pose proof (remove_batches_spec sh ns t a n s1) as Hb;
      destruct (result.remove_batches sh ns t a n s1) as [o s2]
  end.
  destruct Hb as (evs & done & rest & _ & Hh & Hsplit & Hc & _).
  cbn in Hh, Hsplit.
  assert (Hd : deleted_from shard (namespace r) done s s2) by exact Hc.
  right. exists shard, done, rest. split; [done|]. split; [done|].
  split; [done|].
  destruct o as [[n [e|]]|m|]; run; try (split; [done|by left]).
  unfold update_obj. run. split; [done|]. right. exists n. by rewrite Hh.
Qed.

Lemma remove_deletes (r : ScanResult) (s : Shell) :
  (collection (result.remove r s).2 = collection s
   ∧ heap (result.remove r s).2 = heap s)
  ∨ ∃ l c shard done rest,
      result.current r = Some l ∧ heap s !! l = Some c
      ∧ orphanedOn c = Some shard ∧ shard ∈ connections r
      ∧ ids_in_chunk s shard (namespace r) c = done ++ rest
      ∧ deleted_from shard (namespace r) done s (result.remove r s).2
      ∧ (heap (result.remove r s).2 = heap s
         ∨ ∃ n, heap (result.remove r s).2 = alter (set_removed n) l (heap s)).
Proof.
  destruct (remove_cases r s) as [[m ->]|(l & c & Hl & Hc & _ & ->)];
    [by left|].
  destruct (remove_found_deletes r l c s)
    as [?|(shard & done & rest & ? & ? & ? & ? & ?)]; [by left|].
  right. by exists l, c, shard, done, rest.
Qed.

Lemma NoDup_fmap_eq {A B : Type} (f : A → B) (l : list A) (x y : A) :
  NoDup (f <$> l) → x ∈ l → y ∈ l → f x = f y → x = y.
Proof.
  intros Hnd [i Hi]%list_elem_of_lookup [j Hj]%list_elem_of_lookup Hxy.
  assert (i = j) as ->; [|congruence].
  apply (NoDup_lookup (f <$> l) i j (f x)); [done| |].
  - by rewrite list_lookup_fmap, Hi.
  - by rewrite list_lookup_fmap, Hj, Hxy.
Qed.

Lemma elem_of_delete_ids (ids : list Z) (docs : list doc) (d : doc) :
  d ∈ delete_ids ids docs ↔ (doc_id d ∉ ids) ∧ d ∈ docs.
Proof.
  unfold delete_ids. by rewrite list_elem_of_filter, mem_Z_false.
Qed.

Lemma culled_refl (chunks : list chunk) (ok : string → string → Prop)
    (s : Shell) :
  culled chunks ok s s.
Proof.
  exists (λ _ _, []). split.
  - intros sh n. by rewrite delete_ids_nil.
  - by intros sh n d _ ?%elem_of_nil.
Qed.

Lemma culled_same (chunks : list chunk) (ok : string → string → Prop)
    (s0 s s' : Shell) :
  collection s' = collection s →
  culled chunks ok s0 s → culled chunks ok s0 s'.
Proof. intros Hc (gone & Hg & Hs). exists gone. by rewrite Hc. Qed.

Lemma culled_start (chunks : list chunk) (ok : string → string → Prop)
    (s0 s0' s : Shell) :
  collection s0' = collection s0 →
  culled chunks ok s0 s → culled chunks ok s0' s.
Proof. intros Hc (gone & Hg & Hs). exists gone. by rewrite Hc. Qed.

Lemma bounds_known_marked (chunks : list chunk) (ns : string)
    (conns : list string) (bad : list nat) (s s' : Shell) :
  (heap s' = heap s ∨ ∃ l n, heap s' = alter (set_removed n) l (heap s)) →
  bounds_known chunks ns conns bad s → bounds_known chunks ns conns bad s'.
Proof.
  intros [Hh|(l0 & n & Hh)] Hb l Hl; rewrite Hh; [by apply Hb|].
  destruct (Hb l Hl) as (c & shard & c0 & Hc & ?).
  destruct (decide (l = l0)) as [->|Hne].
  - exists (set_removed n c), shard, c0. by rewrite list_lookup_alter_eq, Hc.
  - exists c, shard, c0. by rewrite list_lookup_alter_ne.
Qed.

(** One more [remove] keeps to documents out of place. *)
Lemma remove_culls (chunks : list chunk) (ok : string → string → Prop)
    (s0 : Shell) (r : ScanResult) (s : Shell) :
  (∀ sh, NoDup (doc_id <$> collection s0 sh (namespace r))) →
  (∀ sh, sh ∈ connections r → ok sh (namespace r)) →
  culled chunks ok s0 s →
  bounds_known chunks (namespace r) (connections r) (badChunks r) s →
  culled chunks ok s0 (result.remove r s).2
  ∧ bounds_known chunks (namespace r) (connections r) (badChunks r)
      (result.remove r s).2
  ∧ (heap (result.remove r s).2 = heap s
     ∨ ∃ l n, heap (result.remove r s).2 = alter (set_removed n) l (heap s)).
Proof.
  intros Hnd Hok Hcull Hbounds.
  destruct (remove_deletes r s)
    as [[Hc Hh]|(l & c & shard & done & rest & Hl & Hc & Hon & Hsh & Hids & Hdel & Hh)].
  { split; [by eapply culled_same|]. split; [|by left].
    eapply bounds_known_marked; [|done]. by left. }
  assert (Hh' : heap (result.remove r s).2 = heap s
                ∨ ∃ l n, heap (result.remove r s).2
                         = alter (set_removed n) l (heap s)).
  { destruct Hh as [?|[n ?]]; [by left|right; by exists l, n]. }
  split; [|split; [by eapply bounds_known_marked|done]].
  assert (Hin : l ∈ badChunks r).
  { unfold result.current in Hl. destruct (_iter r <? 0); [done|].
    by eapply list_elem_of_lookup_2. }
  destruct (Hbounds l Hin)
    as (c' & shard' & c0 & Hc' & Hon' & _ & Hc0 & Hcns & Hown & Hmin & Hmax).
  assert (c' = c) as -> by congruence.
  assert (shard' = shard) as -> by congruence.
  destruct Hcull as (gone & Hg & Hs).
  exists (λ sh n, if decide (sh = shard ∧ n = namespace r)
                  then gone sh n ++ done else gone sh n).
  split.
  - intros sh n. rewrite (Hdel sh n), (Hg sh n).
    case_decide as Heq; [|done]. destruct Heq as [-> ->].
    by rewrite delete_ids_app.
  - intros sh n d Hd Hgone. case_decide as Heq; [|by apply Hs].
    destruct Heq as [-> ->].
    apply elem_of_app in Hgone as [Hgone|Hdone]; [by apply Hs|].
    split; [by apply Hok|]. exists c0. split; [done|]. split; [done|].
    split; [done|].
    assert (Hd' : doc_id d ∈ ids_in_chunk s shard (namespace r) c).
    { rewrite Hids. apply elem_of_app. by left. }
    unfold ids_in_chunk in Hd'.
    apply list_elem_of_fmap in Hd' as (d' & Hid & [Hr Hd']%list_elem_of_filter).
    rewrite (Hg shard (namespace r)) in Hd'.
    apply elem_of_delete_ids in Hd' as [_ Hd'].
    assert (d = d') as <- by (by eapply (NoDup_fmap_eq doc_id)).
    by rewrite <- Hmin, <- Hmax.
Qed.

Lemma only_marked_refl (h : list chunk) : only_marked h h.
Proof. intros l c Hc. by exists c. Qed.

Lemma only_marked_trans (h1 h2 h3 : list chunk) :
  only_marked h1 h2 → only_marked h2 h3 → only_marked h1 h3.
Proof.
  intros H12 H23 l c Hc. destruct (H12 l c Hc) as (c2 & Hc2 & Hs2).
  destruct (H23 l c2 Hc2) as (c3 & Hc3 & Hs3). exists c3. split; [done|].
  unfold same_orphan in *. destruct Hs2 as (?&?&?&?&?&?&?).
  destruct Hs3 as (?&?&?&?&?&?&?). repeat split; congruence.
Qed.

Lemma only_marked_step (h h' : list chunk) :
  (h' = h ∨ ∃ l n, h' = alter (set_removed n) l h) → only_marked h h'.
Proof.
  intros [->|(l0 & n & ->)]; [apply only_marked_refl|]. intros l c Hc.
  destruct (decide (l = l0)) as [->|Hne].
  - exists (set_removed n c). by rewrite list_lookup_alter_eq, Hc.
  - exists c. by rewrite list_lookup_alter_ne.
Qed.

Lemma bounds_known_only_marked (chunks : list chunk) (ns : string)
    (conns : list string) (bad : list nat) (s s' : Shell) :
  only_marked (heap s) (heap s') →
  bounds_known chunks ns conns bad s → bounds_known chunks ns conns bad s'.
Proof.
  intros Hm Hb l Hl.
  destruct (Hb l Hl) as (c & shard & c0 & Hc & Hon & Hsh & Hc0 & Hns & Hown & Hmin & Hmax).
  destruct (Hm l c Hc) as (c' & Hc' & _ & _ & Hmin' & Hmax' & _ & Hon' & _).
  exists c', shard, c0. repeat split; try done; congruence.
Qed.

Lemma removeAll_loop_culls (chunks : list chunk) (ok : string → string → Prop)
    (s0 : Shell) (secs : option Z) (fuel : nat) :
  ∀ (r : ScanResult) (num : Z) (s : Shell),
    (∀ sh, NoDup (doc_id <$> collection s0 sh (namespace r))) →
    (∀ sh, sh ∈ connections r → ok sh (namespace r)) →
    culled chunks ok s0 s →
    bounds_known chunks (namespace r) (connections r) (badChunks r) s →
    culled chunks ok s0 (result.removeAll_loop fuel secs r num s).2
    ∧ only_marked (heap s) (heap (result.removeAll_loop fuel secs r num s).2).
Proof.
  induction fuel as [|fuel IH]; intros r num s Hnd Hok Hcull Hbounds;
    cbn [result.removeAll_loop]; destruct (result.hasNext r);
    try (split; [done|apply only_marked_refl]).
  unfold result.next. rewrite bind_unfold. cbv beta iota. unfold mret, M_ret.
  cbv beta iota. rewrite bind_unfold.
  destruct (remove_culls chunks ok s0 (with_iter (_iter r + 1) r) s
              Hnd Hok Hcull Hbounds) as (Hcull1 & Hbounds1 & Hh1).
  apply only_marked_step in Hh1.
  destruct (result.remove (with_iter (_iter r + 1) r) s)
    as [[[n r2]|e|] s1] eqn:Hrem; [|done|done].
  apply remove_returns_receiver in Hrem as ->. rewrite bind_unfold.
  assert (Hpause : ∃ s2 : Shell,
    result.pause secs s1 = (Ret (), s2)
    ∧ collection s2 = collection s1 ∧ heap s2 = heap s1).
  { unfold result.pause. destruct secs as [x|]; [destruct (x =? 0)|];
      by eexists. }
  destruct Hpause as (s2 & -> & Hc2 & Hh2). cbn [fst snd] in *.
  destruct (IH (with_iter (_iter r + 1) r) (num + n) s2) as [Hcull2 Hm2];
    [done|done|by eapply culled_same| |].
  { eapply bounds_known_marked; [|done]. by left. }
  split; [done|]. eapply only_marked_trans; [done|]. by rewrite <- Hh2.
Qed.

Lemma find_bounds_known (ns : string) (s s' : Shell) (r : ScanResult) :
  Orphans.find ns s = (Ret r, s') →
  bounds_known (config_chunks s) ns (connections r) (badChunks r) s'.
Proof.
  intros Hfind l Hl.
  destruct (find_entry _ _ _ _ _ Hfind Hl)
    as (c & shard & Hc & Hns & Hin & Hne & Hh).
  eexists _, shard, c. split; [done|]. split; [done|]. split; [done|].
  split; [done|]. split; [done|]. by split.
Qed.

(** X13.  [removeAll] on the result of a scan, in the shell the scan left,
    deletes nothing but documents out of place, however it ends: the
    collections of other namespaces are as they were, nothing is added to
    those of the namespace, and every document that has gone was held by a
    shard of [connections] within the bounds of a chunk of the namespace
    that this shard does not own.  The documents of a collection are taken
    to have distinct identifiers. *)
Theorem removeAll_deletes_only_documents_out_of_place (ns : string)
    (s s1 : Shell) (r : ScanResult) (fuel : nat) (secs : option Z) :
  Orphans.find ns s = (Ret r, s1) →
  (∀ sh, NoDup (doc_id <$> collection s sh ns)) →
  (∀ sh n, n ≠ ns →
     collection (run_state (result.removeAll fuel secs r) s1) sh n
     = collection s sh n)
  ∧ (∀ sh, collection (run_state (result.removeAll fuel secs r) s1) sh ns
           `sublist_of` collection s sh ns)
  ∧ ∀ sh d,
      d ∈ collection s sh ns →
      d ∉ collection (run_state (result.removeAll fuel secs r) s1) sh ns →
      sh ∈ connections r
      ∧ ∃ c, c ∈ config_chunks s ∧ chunk_ns c = ns ∧ chunk_shard c ≠ sh
             ∧ in_range (chunk_min c) (chunk_max c) d = true.
Proof.
  intros Hfind Hnd. destruct (find_fields _ _ _ _ Hfind) as (Hns & Hcoll & _).
  pose proof (find_bounds_known _ _ _ _ Hfind) as Hbounds.
  destruct (removeAll_loop_culls (config_chunks s)
              (λ sh n, sh ∈ connections r ∧ n = ns) s1 secs fuel
              (result.rewind r) 0 s1) as [(gone & Hg & Hs) _].
  { intros sh. cbn. by rewrite Hns, Hcoll. }
  { intros sh Hsh. cbn. by rewrite Hns. }
  { apply culled_refl. }
  { cbn. by rewrite Hns. }
  rewrite Hcoll in *. unfold run_state, result.removeAll. split; [|split].
  - intros sh n Hn. rewrite (Hg sh n). unfold delete_ids.
    apply filter_ext_in_id. intros d Hd. apply mem_Z_false. intros Hin.
    destruct (Hs sh n d Hd Hin) as [[_ ?] _]. done.
  - intros sh. rewrite (Hg sh ns). apply sublist_filter.
  - intros sh d Hd Hgone. rewrite (Hg sh ns) in Hgone.
    destruct (decide (doc_id d ∈ gone sh ns)) as [Hin|Hout].
    + destruct (Hs sh ns d Hd Hin) as ([Hsh _] & c & ?). split; [done|].
      by exists c.
    + destruct Hgone. by apply elem_of_delete_ids.
Qed.

Lemma removeAll_deletes_only_documents_out_of_place_witness :
  Orphans.find orders residue_on_two
  = (Ret (found residue_on_two), scanned residue_on_two)
  ∧ (∀ sh, NoDup (doc_id <$> collection residue_on_two sh orders))
  ∧ (∀ sh n, n ≠ orders →
       collection (run_state (result.removeAll 2 None (found residue_on_two))
                     (scanned residue_on_two)) sh n
       = collection residue_on_two sh n)
  ∧ (∀ sh, collection (run_state (result.removeAll 2 None (found residue_on_two))
                         (scanned residue_on_two)) sh orders
           `sublist_of` collection residue_on_two sh orders)
  ∧ ∀ sh d,
      d ∈ collection residue_on_two sh orders →
      d ∉ collection (run_state (result.removeAll 2 None (found residue_on_two))
                        (scanned residue_on_two)) sh orders →
      sh ∈ connections (found residue_on_two)
      ∧ ∃ c, c ∈ config_chunks residue_on_two ∧ chunk_ns c = orders
             ∧ chunk_shard c ≠ sh
             ∧ in_range (chunk_min c) (chunk_max c) d = true.
Proof.
  assert (Hnd : ∀ sh, NoDup (doc_id <$> collection residue_on_two sh orders)).
  { intros sh. cbn. repeat case_decide; try done;
      apply (bool_decide_unpack _); by vm_compute. }
  split; [by vm_compute|]. split; [exact Hnd|].
  apply (removeAll_deletes_only_documents_out_of_place orders residue_on_two
           (scanned residue_on_two) (found residue_on_two) 2 None);
    [by vm_compute|exact Hnd].
Defined.

(** ** What a removal leaves *)

Lemma remove_on_chunk (r : ScanResult) (s : Shell) (l : nat) (c : chunk) :
  count r ≠ 0 → result.current r = Some l → heap s !! l = Some c →
  result.remove r s
  = if removed c
    then (Ret (0, r),
          with_trace (trace s ++ [EvPrint (MsgAlreadyRemoved (chunk_id c)
                                             (orphanedOn c))]) s)
    else remove_found r l c s.
Proof.
  intros Hcount Hl Hc. unfold result.remove, result.current in *.
  destruct (_iter r <? 0) eqn:Hneg; [done|].
  pose proof (lookup_lt_Some _ _ _ Hl) as Hlt. apply Z.ltb_ge in Hneg.
  replace (count r =? 0) with false by (symmetry; by apply Z.eqb_neq).
  replace (Z.of_nat (length (badChunks r)) =? 0) with false
    by (symmetry; apply Z.eqb_neq; lia).
  replace (_iter r >=? Z.of_nat (length (badChunks r))) with false
    by (symmetry; rewrite Z.geb_leb; apply Z.leb_gt; lia).
  cbn [orb]. rewrite Hl. run. rewrite Hc. by destruct (removed c).
Qed.

Lemma orphans_on_zero (coll : string → string → list doc) (ns : string)
    (c : chunk) (shard : string) :
  orphans_on coll ns c shard = 0 ↔
  ∀ d, d ∈ coll shard ns → in_range (chunk_min c) (chunk_max c) d = false.
Proof.
  unfold orphans_on. split.
  - intros Hz d Hd. destruct (in_range _ _ d) eqn:Hr; [|done].
    assert (Hin : d ∈ filter (λ d, in_range (chunk_min c) (chunk_max c) d = true)
                        (coll shard ns)) by (by apply list_elem_of_filter).
    destruct (filter _ _); [by apply elem_of_nil in Hin|]. cbn in Hz. lia.
  - intros Hall.
    destruct (filter _ _) as [|d ds] eqn:Hf; [done|].
    assert (Hin : d ∈ filter (λ d, in_range (chunk_min c) (chunk_max c) d = true)
                        (coll shard ns)) by (rewrite Hf; by left).
    apply list_elem_of_filter in Hin as [Hr Hin]. by rewrite (Hall d Hin) in Hr.
Qed.

Lemma orphans_on_bounds (coll : string → string → list doc) (ns : string)
    (c c' : chunk) (shard : string) :
  chunk_min c' = chunk_min c → chunk_max c' = chunk_max c →
  orphans_on coll ns c' shard = orphans_on coll ns c shard.
Proof. unfold orphans_on. by intros -> ->. Qed.

Lemma deleted_from_subset (shard ns : string) (done : list Z) (s s' : Shell)
    (sh n : string) (d : doc) :
  deleted_from shard ns done s s' →
  d ∈ collection s' sh n → d ∈ collection s sh n.
Proof.
  intros Hdel. rewrite (Hdel sh n). case_decide; [|done].
  by intros [_ ?]%elem_of_delete_ids.
Qed.

Lemma same_orphan_removed (c1 c : chunk) (n : Z) :
  same_orphan c1 c → same_orphan c1 (set_removed n c).
Proof. done. Qed.

(** One more [remove] that reports no error. *)
Lemma remove_clears (h1 : list chunk) (r r' : ScanResult) (s s' : Shell)
    (l : nat) (n : Z) (evs : list event) :
  count r ≠ 0 → result.current r = Some l →
  cleared (namespace r) (connections r) (badChunks r) h1 s →
  result.remove r s = (Ret (n, r'), s') →
  trace s' = trace s ++ evs →
  Forall (λ e, error_report e = false) evs →
  cleared (namespace r) (connections r) (badChunks r) h1 s'
  ∧ (∃ c, heap s' !! l = Some c ∧ removed c = true)
  ∧ flags_kept (heap s) (heap s').
Proof.
  intros Hcount Hl Hclear Hrem Ht Hnoerr.
  assert (Hin : l ∈ badChunks r).
  { unfold result.current in Hl. destruct (_iter r <? 0); [done|].
    by eapply list_elem_of_lookup_2. }
  destruct (Hclear l Hin) as (c1 & c & shard & Hc1 & Hc & Hsame & Hon & Hsh & Hzero).
  rewrite (remove_on_chunk r s l c Hcount Hl Hc) in Hrem.
  destruct (removed c) eqn:Hr.
  { injection Hrem as _ _ <-. split; [exact Hclear|]. split; [by exists c|].
    intros l' c' ? ?. by exists c'. }
  destruct (remove_found_spec r l c s) as (evs' & Ht' & Hout).
  rewrite Hrem in Ht', Hout. cbn [fst snd] in Ht', Hout.
  assert (evs' = evs) as -> by (apply (app_inv_head (trace s)); congruence).
  destruct Hout as (_ & shard' & done & rest & Hon' & Hids & _ & Hdel & Hcase).
  assert (shard' = shard) as -> by congruence.
  destruct Hcase as [(_ & evs0 & ids & e & -> & _)|(Hh & -> & _)].
  { rewrite Forall_app, !Forall_cons in Hnoerr.
    by destruct Hnoerr as (_ & _ & ? & _). }
  rewrite app_nil_r in Hids. subst done. split; [|split].
  - intros l' Hl'.
    destruct (Hclear l' Hl') as (c1' & c' & shard'' & Hc1' & Hc' & Hsame' & Hon'' & Hsh' & Hzero').
    destruct (decide (l' = l)) as [->|Hne].
    + assert (c' = c) as -> by congruence.
      exists c1', (set_removed n c), shard''.
      rewrite Hh, list_lookup_alter_eq, Hc. repeat split; try apply Hsame'; try done.
      intros _. rewrite (orphans_on_bounds _ _ c) by done.
      apply orphans_on_zero. intros d Hd.
      assert (shard'' = shard) as -> by congruence.
      rewrite (Hdel shard (namespace r)), decide_True in Hd by done.
      apply elem_of_delete_ids in Hd as [Hid Hd].
      destruct (in_range _ _ d) eqn:Hrange; [|done]. destruct Hid.
      unfold ids_in_chunk. apply list_elem_of_fmap_2.
      by apply list_elem_of_filter.
    + exists c1', c', shard''. rewrite Hh, list_lookup_alter_ne by done.
      repeat split; try apply Hsame'; try done. intros Hr'.
      apply orphans_on_zero. intros d Hd.
      eapply orphans_on_zero; [by apply Hzero'|].
      by eapply deleted_from_subset.
  - exists (set_removed n c). by rewrite Hh, list_lookup_alter_eq, Hc.
  - intros l' c' Hc' Hr'. rewrite Hh. destruct (decide (l' = l)) as [->|Hne].
    + exists (set_removed n c'). by rewrite list_lookup_alter_eq, Hc'.
    + exists c'. by rewrite list_lookup_alter_ne.
Qed.

Lemma removeAll_loop_clears (h1 : list chunk) (secs : option Z) (fuel : nat) :
  ∀ (r r' : ScanResult) (num n : Z) (s s2 : Shell) (i : nat)
    (evs : list event),
    count r ≠ 0 → _iter r = Z.of_nat i - 1 →
    cleared (namespace r) (connections r) (badChunks r) h1 s →
    removed_upto (badChunks r) i s →
    result.removeAll_loop fuel secs r num s = (Ret (n, r'), s2) →
    trace s2 = trace s ++ evs →
    Forall (λ e, error_report e = false) evs →
    cleared (namespace r) (connections r) (badChunks r) h1 s2
    ∧ removed_upto (badChunks r) (length (badChunks r)) s2.
Proof.
  induction fuel as [|fuel IH];
    intros r r' num n s s2 i evs Hcount Hi Hclear Hupto Hloop Ht Hnoerr;
    cbn [result.removeAll_loop] in Hloop;
    destruct (result.hasNext r) eqn:Hnext; try done;
    try (injection Hloop as _ _ <-; split; [done|];
         apply hasNext_false in Hnext; intros j l Hj Hjl;
         apply (Hupto j l); [lia|done]).
  apply hasNext_true in Hnext.
  unfold result.next in Hloop. rewrite bind_unfold in Hloop.
  unfold mret, M_ret in Hloop. cbv beta iota in Hloop.
  rewrite bind_unfold in Hloop.
  replace (_iter r + 1) with (Z.of_nat i) in Hloop by lia.
  destruct (lookup_lt_is_Some_2 (badChunks r) i) as [l Hl]; [lia|].
  assert (Hcur : result.current (with_iter (Z.of_nat i) r) = Some l).
  { unfold result.current. cbn [_iter with_iter badChunks].
    replace (Z.of_nat i <? 0) with false by (symmetry; apply Z.ltb_ge; lia).
    by rewrite Nat2Z.id. }
  destruct (removal_on_target 0 None (with_iter (Z.of_nat i) r) 0 s)
    as [(evs1 & Ht1 & _) _].
  destruct (result.remove (with_iter (Z.of_nat i) r) s) as [[[n1 r1]|e|] s1] eqn:Hrem;
    [|done|done].
  cbn [snd] in Ht1. pose proof (remove_returns_receiver _ _ _ _ _ Hrem) as ->.
  rewrite bind_unfold in Hloop.
  assert (Hpause : ∃ (s1' : Shell) (evsp : list event),
    result.pause secs s1 = (Ret (), s1')
    ∧ collection s1' = collection s1 ∧ heap s1' = heap s1
    ∧ trace s1' = trace s1 ++ evsp
    ∧ Forall (λ e, error_report e = false) evsp).
  { unfold result.pause. destruct secs as [x|]; [destruct (x =? 0)|].
    - exists s1, []. by rewrite app_nil_r.
    - eexists _, [_]. repeat split. by repeat constructor.
    - exists s1, []. by rewrite app_nil_r. }
  destruct Hpause as (s1' & evsp & Hp & Hc1' & Hh1' & Ht1' & Hnoerrp).
  rewrite Hp in Hloop.
  destruct (removal_on_target fuel secs (with_iter (Z.of_nat i) r)
              (num + n1) s1') as [_ (evs2 & Ht2 & _)].
  rewrite Hloop in Ht2. cbn [snd] in Ht2.
  assert (evs = evs1 ++ evsp ++ evs2) as ->.
  { apply (app_inv_head (trace s)).
    by rewrite <- Ht, Ht2, Ht1', Ht1, <- !(assoc app). }
  apply Forall_app in Hnoerr as [Hnoerr1 [_ Hnoerr2]%Forall_app].
  destruct (remove_clears h1 (with_iter (Z.of_nat i) r) _ s s1 l n1 evs1
              Hcount Hcur Hclear Hrem Ht1 Hnoerr1)
    as (Hclear1 & (c & Hc & Hr) & Hkept).
  apply (IH (with_iter (Z.of_nat i) r) r' (num + n1) n s1' s2 (S i) evs2);
    try done.
  - cbn [_iter with_iter]. lia.
  - intros l' Hl'. destruct (Hclear1 l' Hl') as (c1 & c' & sh & ? & ? & ? & ? & ? & ?).
    exists c1, c', sh. by rewrite Hh1', Hc1'.
  - intros j l' Hj Hjl. rewrite Hh1'.
    destruct (decide (j = i)) as [->|Hne].
    + cbn [badChunks with_iter] in Hjl. assert (l' = l) as -> by congruence.
      by exists c.
    + destruct (Hupto j l') as (c' & Hc' & Hr'); [lia|done|].
      by apply (Hkept l' c').
Qed.

Lemma total_pos (l : list Z) (y : Z) :
  Forall (λ x, 0 ≤ x) l → y ∈ l → 0 < y → 0 < total l.
Proof.
  intros Hall Hy Hpos. induction Hall as [|x l Hx Hall IH].
  - by apply elem_of_nil in Hy.
  - rewrite total_cons. assert (0 ≤ total l).
    { clear -Hall. induction Hall as [|z l Hz _ IH]; [done|].
      rewrite total_cons. lia. }
    apply elem_of_cons in Hy as [<-|Hy]; [lia|]. specialize (IH Hy). lia.
Qed.

Lemma total_nonneg (l : list Z) : Forall (λ x, 0 ≤ x) l → 0 ≤ total l.
Proof.
  induction 1 as [|x l Hx _ IH]; [done|]. rewrite total_cons. lia.
Qed.

Lemma find_count_pos (ns : string) (s s' : Shell) (r : ScanResult) :
  Orphans.find ns s = (Ret r, s') → badChunks r ≠ [] → count r ≠ 0.
Proof.
  intros Hfind Hbad.
  destruct (badChunks r) as [|l bad] eqn:Hb; [done|]. clear Hbad.
  pose proof (find_lists _ _ _ _ Hfind) as Hlist.
  assert (Hx : heap s' !! l
               ∈ listing (collection s) ns (connections r) (chunks_of s ns)).
  { rewrite <- Hlist, Hb. by left. }
  apply elem_of_listing in Hx as (c & Hc & Hoff & _).
  destruct (last_offender _ _ _ _ Hoff) as (shard & _ & Hin & Hne & Hpos & _).
  destruct (find_exact _ _ _ _ Hfind)
    as (s1 & s2 & _ & _ & Hscan & Hcoll & _).
  destruct Hscan as (_ & _ & _ & _ & _ & _ & Hcount & _).
  rewrite Hcoll in Hcount. cbn in Hcount. rewrite Hcount.
  assert (0 < total ((λ c, total (strays (collection s) ns c <$> connections r))
                       <$> chunks_of s ns)); [|lia].
  apply (total_pos _ (total (strays (collection s) ns c <$> connections r))).
  - apply Forall_fmap, Forall_forall. intros c' _. cbn.
    apply total_nonneg, Forall_fmap, Forall_forall. intros sh _.
    apply strays_nonneg.
  - by apply (list_elem_of_fmap_2
                (λ c, total (strays (collection s) ns c <$> connections r))).
  - apply (total_pos _ (strays (collection s) ns c shard)).
    + apply Forall_fmap, Forall_forall. intros sh _. apply strays_nonneg.
    + by apply list_elem_of_fmap_2.
    + unfold strays. by rewrite decide_False.
Qed.

Lemma find_cleared (ns : string) (s s' : Shell) (r : ScanResult) :
  Orphans.find ns s = (Ret r, s') →
  (∀ c, c ∈ config_chunks s → removed c = false) →
  cleared ns (connections r) (badChunks r) (heap s') s'.
Proof.
  intros Hfind Hfresh l Hl.
  destruct (find_entry _ _ _ _ _ Hfind Hl)
    as (c & shard & Hc & Hns & Hin & Hne & Hh).
  eexists _, _, shard. split; [done|]. split; [done|]. split; [done|].
  split; [done|]. split; [done|]. cbn. by rewrite (Hfresh c Hc).
Qed.

(** X14.  When [removeAll] on the result of a scan, in the shell the scan
    left, returns and none of its [getLastError] calls has reported an
    error, every chunk object of [badChunks] is marked as removed, and for
    every chunk of the namespace the shard the scan attributed it to, the
    last of the shards found to hold documents of it, holds no document
    within its bounds any more.  The chunk documents of [config.chunks] are
    taken to carry no [removed] field. *)
Theorem removeAll_without_error_clears_the_chunks (ns : string)
    (s s1 s2 : Shell) (r r' : ScanResult) (fuel : nat) (secs : option Z)
    (n : Z) (evs : list event) :
  Orphans.find ns s = (Ret r, s1) →
  (∀ c, c ∈ config_chunks s → removed c = false) →
  result.removeAll fuel secs r s1 = (Ret (n, r'), s2) →
  trace s2 = trace s1 ++ evs →
  Forall (λ e, error_report e = false) evs →
  (∀ l, l ∈ badChunks r → ∃ c, heap s2 !! l = Some c ∧ removed c = true)
  ∧ ∀ c shard,
      c ∈ config_chunks s → chunk_ns c = ns →
      last (offenders (collection s) ns c (connections r)) = Some shard →
      orphans_on (collection s2) ns c shard = 0.
Proof.
  intros Hfind Hfresh Hrem Ht Hnoerr.
  destruct (find_fields _ _ _ _ Hfind) as (Hns & _ & _).
  destruct (decide (badChunks r = [])) as [Hnil|Hbad].
  { split; [rewrite Hnil; by intros l ?%elem_of_nil|].
    intros c shard Hc Hcns Hlast.
    assert (Hx : Some (marked (collection s) ns (connections r) c)
                 ∈ listing (collection s) ns (connections r) (chunks_of s ns)).
    { apply elem_of_listing. exists c. split; [by apply elem_of_chunks_of|].
      split; [|done]. intros Hoff. by rewrite Hoff in Hlast. }
    rewrite <- (find_lists _ _ _ _ Hfind), Hnil in Hx.
    by apply elem_of_nil in Hx. }
  destruct (removeAll_loop_clears (heap s1) secs fuel (result.rewind r) r' 0 n
              s1 s2 0 evs) as [Hclear Hall]; try done.
  { by apply (find_count_pos _ _ _ _ Hfind). }
  { cbn. rewrite Hns. by apply (find_cleared ns s). }
  { intros j l Hj. lia. }
  cbn [result.rewind with_iter badChunks connections namespace] in Hclear, Hall.
  assert (Hflag : ∀ l, l ∈ badChunks r →
                       ∃ c, heap s2 !! l = Some c ∧ removed c = true).
  { intros l [j Hj]%list_elem_of_lookup. apply (Hall j l); [|done].
    by eapply lookup_lt_Some. }
  split; [exact Hflag|]. intros c shard Hc Hcns Hlast.
  assert (Hx : Some (marked (collection s) ns (connections r) c)
               ∈ listing (collection s) ns (connections r) (chunks_of s ns)).
  { apply elem_of_listing. exists c. split; [by apply elem_of_chunks_of|].
    split; [|done]. intros Hoff. by rewrite Hoff in Hlast. }
  rewrite <- (find_lists _ _ _ _ Hfind) in Hx.
  apply list_elem_of_fmap in Hx as (l & Hh & Hl).
  destruct (Hclear l Hl) as (c1 & c2 & sh & Hc1 & Hc2 & Hsame & Hon & _ & Hzero).
  destruct (Hflag l Hl) as (c2' & Hc2' & Hr).
  assert (c2' = c2) as -> by congruence.
  assert (c1 = marked (collection s) ns (connections r) c) as -> by congruence.
  unfold marked in Hsame. rewrite Hlast in Hsame.
  destruct Hsame as (_ & _ & Hmin & Hmax & _ & Hon' & _).
  cbn in Hmin, Hmax, Hon'. assert (sh = shard) as -> by congruence.
  rewrite Hns in Hzero. rewrite <- (Hzero Hr). symmetry.
  by apply orphans_on_bounds.
Qed.

Lemma removeAll_without_error_clears_the_chunks_witness :
  Orphans.find orders residue_on_two
  = (Ret (found residue_on_two), scanned residue_on_two)
  ∧ (∀ c, c ∈ config_chunks residue_on_two → removed c = false)
  ∧ result.removeAll 2 None (found residue_on_two) (scanned residue_on_two)
    = (Ret (2, with_iter 1 (found residue_on_two)), cleaned_on_two)
  ∧ trace cleaned_on_two = trace (scanned residue_on_two) ++ removal_on_two
  ∧ Forall (λ e, error_report e = false) removal_on_two
  ∧ (∀ l, l ∈ badChunks (found residue_on_two) →
          ∃ c, heap cleaned_on_two !! l = Some c ∧ removed c = true)
  ∧ ∀ c shard,
      c ∈ config_chunks residue_on_two → chunk_ns c = orders →
      last (offenders (collection residue_on_two) orders c
              (connections (found residue_on_two))) = Some shard →
      orphans_on (collection cleaned_on_two) orders c shard = 0.
Proof.
  assert (Hfresh : ∀ c, c ∈ config_chunks residue_on_two → removed c = false).
  { intros c Hc. change (c ∈ three_chunks) in Hc. unfold three_chunks in Hc.
    rewrite !elem_of_cons, elem_of_nil in Hc.
    by destruct Hc as [->|[->|[->|[]]]]. }
  assert (Hnoerr : Forall (λ e, error_report e = false) removal_on_two).
  { vm_compute. repeat constructor. }
  split; [by vm_compute|]. split; [exact Hfresh|]. split; [by vm_compute|].
  split; [by vm_compute|]. split; [exact Hnoerr|].
  apply (removeAll_without_error_clears_the_chunks orders residue_on_two
           (scanned residue_on_two) cleaned_on_two (found residue_on_two)
           (with_iter 1 (found residue_on_two)) 2 None 2 removal_on_two);
    [by vm_compute|exact Hfresh|by vm_compute|by vm_compute|exact Hnoerr].
Defined.

(** ** The active shards *)

Lemma connections_loop_all_active (shards : list string) :
  ∀ (conns : list string) (s s' : Shell),
    (∀ sh, sh ∈ shards → sh ∈ Shard_active s) →
    Shard_active s' = [] →
    (Shard.connections_loop shards conns s).1
    = (Shard.connections_loop shards conns s').1
    ∧ ∃ evs, trace (Shard.connections_loop shards conns s).2 = trace s ++ evs
             ∧ trace (Shard.connections_loop shards conns s').2
               = trace s' ++ evs.
Proof.
  induction shards as [|sh rest IH]; intros conns s s' Hact Hnone.
  { split; [done|]. exists []. by rewrite !app_nil_r. }
  cbn [Shard.connections_loop]. run.
  rewrite Hnone, (bool_decide_eq_true_2 (sh ∈ Shard_active s))
    by (apply Hact; by left).
  rewrite (bool_decide_eq_false_2 ([] ≠ [])) by (by intros []).
  rewrite andb_false_r. cbn [negb andb].
  match goal with
  | |- context [Shard.connections_loop rest ?c ?s1] =>
      match goal with
      | |- context [(Shard.connections_loop rest c ?s2).1
                    = (Shard.connections_loop rest c ?s3).1] =>
          destruct (IH c s2 s3) as (Hout & evs & Ht & Ht')
      end
  end.
  - intros x Hx. cbn. apply Hact. by right.
  - done.
  - split; [done|]. exists (EvConnect sh :: evs).
    rewrite Ht, Ht'. cbn. by rewrite <- !(assoc app).
Qed.

(** X15.  After [Shard.active = Shard.allShards()], [Shard.connections()]
    answers what it answers when [Shard.active] is empty, and sends the same
    commands in the same order: to name every shard is to set no
    restriction. *)
Theorem all_shards_active_is_no_restriction (s : Shell) :
  run_out (all ← Shard_allShards; set_Shard_active all;; Shard.connections) s
  = run_out (set_Shard_active [];; Shard.connections) s
  ∧ ∃ evs,
      trace (run_state (all ← Shard_allShards; set_Shard_active all;;
                        Shard.connections) s)
      = trace s ++ EvListShards :: evs
      ∧ trace (run_state (set_Shard_active [];; Shard.connections) s)
        = trace s ++ evs.
Proof.
  unfold run_out, run_state, Shard_allShards, set_Shard_active,
    Shard.connections. run.
  match goal with
  | |- (Shard.connections_loop ?l ?c ?s2).1
       = (Shard.connections_loop ?l ?c ?s3).1 ∧ _ =>
      destruct (connections_loop_all_active l c s2 s3) as (Hout & evs & Ht & Ht')
  end; [done|done|].
  split; [done|]. exists (EvListShards :: evs). rewrite Ht, Ht'. cbn.
  by rewrite <- !(assoc app).
Qed.

(** ** Scanning every namespace *)

Global Instance same_probes_refl : Reflexive same_probes.
Proof. by intros s. Qed.

Global Instance same_probes_trans : Transitive same_probes.
Proof. intros s1 s2 s3 H12 H23. unfold same_probes in *. congruence. Qed.

Ltac probes_step :=
  match goal with
  | |- stable _ (mbind _ _) => apply stable_bind; [tc_solve| |intros ?]
  | |- stable _ (mret _) => apply stable_ret; tc_solve
  | |- stable _ (read _) => apply stable_read; tc_solve
  | |- stable _ (assert _ _) => apply stable_assert; tc_solve
  | |- stable _ (throw _) => apply stable_still; tc_solve
  | |- stable same_probes (print _) => by intros ?
  | |- stable same_probes (emit _) => by intros ?
  | |- stable same_probes (update_obj _ _) => by intros ?
  | |- stable same_probes (alloc _) => by intros ?
  | |- stable _ (if ?b then _ else _) => destruct b
  | |- stable _ (let '(_, _) := ?p in _) => destruct p
  end.

Lemma same_probes_connections_loop (shards : list string) :
  ∀ conns, stable same_probes (Shard.connections_loop shards conns).
Proof.
  induction shards as [|shard rest IH]; intros conns; cbn; repeat probes_step;
    apply IH.
Qed.

Lemma same_probes_nonempty_shards (ns : string) (shardConns : list string) :
  ∀ conns, stable same_probes (Orphans.nonempty_shards ns shardConns conns).
Proof.
  induction shardConns as [|shard rest IH]; intros conns; cbn;
    unfold count_docs; repeat probes_step; apply IH.
Qed.

Lemma same_probes_query_shards (l : nat) (c : chunk) (shards : list string) :
  ∀ r, stable same_probes (Orphans.query_shards l c shards r).
Proof.
  induction shards as [|shard rest IH]; intros r; cbn [Orphans.query_shards];
    unfold range_count; repeat probes_step; apply IH.
Qed.

Lemma same_probes_scan_chunks (precise : bool) (chunks : list chunk) :
  ∀ r, stable same_probes (Orphans.scan_chunks precise chunks r).
Proof.
  induction chunks as [|c rest IH]; intros r; cbn;
    unfold Orphans.scan_chunk, Orphans.check_seen; repeat probes_step;
    apply same_probes_query_shards || apply IH.
Qed.

Lemma same_probes_scan_after_checks (ns : string) :
  stable same_probes (scan_after_checks ns).
Proof.
  unfold scan_after_checks, Shard.connections, list_chunks.
  repeat probes_step;
    first [apply same_probes_connections_loop
          |apply same_probes_nonempty_shards
          |apply same_probes_scan_chunks].
Qed.

Lemma find_probes (ns : string) (s s' : Shell) (r : ScanResult) :
  Orphans.find ns s = (Ret r, s') → probes s' = S (S (probes s)).
Proof.
  change (Orphans.find ns)
    with (ok ← run_isdbgrid;
          assert ok "Not a sharded cluster";;
          enabled ← getBalancerState;
          assert (negb enabled) "Balancer must be stopped first";;
          running ← isBalancerRunning;
          assert (negb running)
            "Balancer is still running, wait for it to finish";;
          scan_after_checks ns).
  run. destruct (isdbgrid s); run; [|done].
  destruct (balancerAt s (probes s)).1; run; [done|].
  destruct (balancerAt s (S (probes s))).2; run; [done|].
  match goal with
  | |- scan_after_checks ns ?s0 = _ → _ =>
      pose proof (same_probes_scan_after_checks ns s0) as Hp
  end.
  intros Hscan. rewrite Hscan in Hp. exact Hp.
Qed.

Lemma find_same_cluster (ns : string) (s : Shell) :
  same_cluster s (Orphans.find ns s).2.
Proof. by destruct (stable_find 0 ns s) as [? _]. Qed.

Lemma balancer_quiet_nil (balancer : nat → bool * bool) (from : nat) :
  balancer_quiet balancer from 0.
Proof. done. Qed.

Lemma findAll_loop_returns_iff (namespaces : list string) :
  ∀ (result : list (string * ScanResult)) (s : Shell),
    (∃ out s', Orphans_findAll_loop namespaces result s = (Ret out, s'))
    ↔ namespaces = []
      ∨ (isdbgrid s = true
         ∧ balancer_quiet (balancerAt s) (probes s) (length namespaces)).
Proof.
  induction namespaces as [|ns rest IH]; intros result s.
  { split; [by left|]. intros _. by eexists _, _. }
  cbn [Orphans_findAll_loop length balancer_quiet]. rewrite bind_unfold.
  pose proof (find_same_cluster ns s) as Hsame.
  split.
  - intros (out & s' & Hloop). right.
    destruct (Orphans.find ns s) as [[r|e|] s1] eqn:Hfind; [|done|done].
    destruct (find_Ret_preconditions _ _ _ _ Hfind) as (Hgrid & Hstate & Hrun).
    pose proof (find_probes _ _ _ _ Hfind) as Hprobes.
    destruct Hsame as (Hg1 & Hb1 & _). cbn [snd] in Hg1, Hb1.
    do 3 (split; [done|]).
    destruct (proj1 (IH (set_prop ns r result) s1)) as [->|[_ Hquiet]];
      [by eexists _, _|done|].
    by rewrite Hb1, Hprobes in Hquiet.
  - intros [?|(Hgrid & Hstate & Hrun & Hquiet)]; [done|].
    destruct (find_run ns s Hgrid Hstate Hrun)
      as (conns & sa & r & sb & _ & _ & _ & _ & Hfind).
    rewrite Hfind in *. pose proof (find_probes _ _ _ _ Hfind) as Hprobes.
    destruct Hsame as (Hg1 & Hb1 & _). cbn [snd] in Hg1, Hb1.
    apply IH. destruct rest; [by left|right].
    rewrite Hg1, Hb1, Hprobes. by split.
Qed.

(** X16.  [Orphans.findAll] answers when there is no namespace to scan, or
    else when the cluster is a sharded one and each of the two balancer
    probes of every scan, one scan after the other, finds the balancer
    stopped and at rest; otherwise it ends on the exception of the scan that
    failed, and what the earlier scans found is lost with it. *)
Theorem findAll_returns_iff (namespaces : list string) (s : Shell) :
  (∃ result s', Orphans_findAll namespaces s = (Ret result, s'))
  ↔ namespaces = []
    ∨ (isdbgrid s = true
       ∧ balancer_quiet (balancerAt s) (probes s) (length namespaces)).
Proof. apply findAll_loop_returns_iff. Qed.



Lemma elem_of_set_prop {V : Type} (k : string) (v : V)
    (o : list (string * V)) (p : string * V) :
  p ∈ set_prop k v o → p = (k, v) ∨ p ∈ o.
Proof.
  unfold set_prop. case_bool_decide.
  - intros Hp. apply list_elem_of_fmap in Hp as (q & -> & Hq).
    case_decide; [by left|by right].
  - intros [?|Hp%list_elem_of_singleton]%elem_of_app; [by right|by left].
Qed.





(** ** Removing what every scan found *)

Lemma bounds_known_grow (chunks : list chunk) (ns : string)
    (conns : list string) (bad : list nat) (s s' : Shell) :
  heap_above (length (heap s)) (heap s) (heap s') →
  bounds_known chunks ns conns bad s → bounds_known chunks ns conns bad s'.
Proof.
  intros Habove Hb l Hl. destruct (Hb l Hl) as (c & shard & c0 & Hc & ?).
  exists c, shard, c0. split; [|done].
  destruct Habove as [_ Hsame]; [done|]. rewrite Hsame; [done|].
  by eapply lookup_lt_Some.
Qed.

Lemma findAll_loop_bounds (s0 : Shell) (namespaces : list string) :
  ∀ (result out : list (string * ScanResult)) (s s' : Shell),
    same_cluster s0 s →
    (∀ ns r, (ns, r) ∈ result →
       namespace r = ns
       ∧ bounds_known (config_chunks s0) ns (connections r) (badChunks r) s) →
    Orphans_findAll_loop namespaces result s = (Ret out, s') →
    same_cluster s0 s'
    ∧ ∀ ns r, (ns, r) ∈ out →
        namespace r = ns
        ∧ bounds_known (config_chunks s0) ns (connections r) (badChunks r) s'.
Proof.
  induction namespaces as [|ns rest IH]; intros result out s s' Hsame Hres Hloop.
  { by injection Hloop as <- <-. }
  cbn [Orphans_findAll_loop] in Hloop. rewrite bind_unfold in Hloop.
  destruct (stable_find (length (heap s)) ns s) as (Hsame1 & _ & Habove).
  destruct (Orphans.find ns s) as [[r|e|] s1] eqn:Hfind; [|done|done].
  cbn [snd] in Hsame1, Habove.
  apply (IH (set_prop ns r result) out s1 s'); [by etrans| |done].
  intros ns' r' [[= -> ->]|Hin]%elem_of_set_prop.
  - destruct (find_fields _ _ _ _ Hfind) as (Hns & _). split; [done|].
    pose proof (find_bounds_known _ _ _ _ Hfind) as Hb.
    destruct Hsame as (_&_&_&_&_&_&Hchunks&_). by rewrite <- Hchunks.
  - destruct (Hres ns' r' Hin) as [Hns Hb]. split; [done|].
    by eapply bounds_known_grow.
Qed.

Lemma Orphans_removeAll_loop_culls (chunks : list chunk)
    (ok : string → string → Prop) (s0 : Shell) (fuel : nat)
    (todo : list (string * ScanResult)) :
  ∀ (seen : list (string * ScanResult)) (num : Z) (s : Shell),
    (∀ sh n, NoDup (doc_id <$> collection s0 sh n)) →
    (∀ ns r, (ns, r) ∈ todo →
       (∀ sh, sh ∈ connections r → ok sh (namespace r))
       ∧ bounds_known chunks (namespace r) (connections r) (badChunks r) s) →
    culled chunks ok s0 s →
    culled chunks ok s0 (Orphans_removeAll_loop fuel todo seen num s).2.
Proof.
  induction todo as [|[ns r] rest IH]; intros seen num s Hnd Htodo Hcull;
    [done|].
  cbn [Orphans_removeAll_loop]. rewrite bind_unfold.
  destruct (Htodo ns r) as [Hok Hb]; [by left|].
  destruct (removeAll_loop_culls chunks ok s0 None fuel (result.rewind r) 0 s)
    as [Hcull1 Hm1]; try done.
  unfold result.removeAll.
  destruct (result.removeAll_loop fuel None (result.rewind r) 0 s)
    as [[[n r']|e|] s1]; [|done|done].
  cbn [snd] in *. apply IH; [done| |done].
  intros ns' r0 Hin. destruct (Htodo ns' r0) as [Hok' Hb']; [by right|].
  split; [done|]. by eapply bounds_known_only_marked.
Qed.

(** X18.  [Orphans.removeAll] on what [Orphans.findAll] answered, in the
    shell the scans left, deletes nothing but documents out of place,
    however it ends: nothing is added to any collection, and every document
    that has gone was in one of the namespaces scanned, on a shard and
    within the bounds of a chunk of that namespace that this shard does not
    own.  The documents of a collection are taken to have distinct
    identifiers. *)
Theorem removeAll_of_findAll_deletes_only_documents_out_of_place
    (namespaces : list string) (s s1 : Shell)
    (result : list (string * ScanResult)) (fuel : nat) :
  Orphans_findAll namespaces s = (Ret result, s1) →
  (∀ sh n, NoDup (doc_id <$> collection s sh n)) →
  (∀ sh n,
     collection (run_state (Orphans_removeAll fuel (Some result)) s1) sh n
     `sublist_of` collection s sh n)
  ∧ ∀ sh n d,
      d ∈ collection s sh n →
      d ∉ collection (run_state (Orphans_removeAll fuel (Some result)) s1) sh n →
      n ∈ namespaces
      ∧ ∃ c, c ∈ config_chunks s ∧ chunk_ns c = n ∧ chunk_shard c ≠ sh
             ∧ in_range (chunk_min c) (chunk_max c) d = true.
Proof.
  intros Hall Hnd.
  destruct (findAll_loop_bounds s namespaces [] result s s1)
    as [Hsame Hb]; [done| |done|].
  { by intros ns r ?%elem_of_nil. }
  assert (Hkeys : ∀ ns r, (ns, r) ∈ result → ns ∈ namespaces).
  { clear -Hall. unfold Orphans_findAll in Hall.
    assert (Hgen : ∀ nss acc out (s s' : Shell),
      Orphans_findAll_loop nss acc s = (Ret out, s') →
      ∀ ns r, (ns, r) ∈ out → ns ∈ acc.*1 ∨ ns ∈ nss).
    { induction nss as [|n0 rest IH]; intros acc out sa sb Hloop ns r Hin.
      - injection Hloop as <- <-. left.
        by apply (list_elem_of_fmap_2 fst) in Hin.
      - cbn [Orphans_findAll_loop] in Hloop. rewrite bind_unfold in Hloop.
        destruct (Orphans.find n0 sa) as [[r0|e|] sc]; [|done|done].
        destruct (IH _ _ _ _ Hloop ns r Hin) as [Hacc|Hrest]; [|right; by right].
        apply list_elem_of_fmap in Hacc as ([k v] & -> & Hp).
        apply elem_of_set_prop in Hp as [[= -> ->]|Hp]; [right; by left|].
        left. by apply (list_elem_of_fmap_2 fst) in Hp. }
    intros ns r Hin.
    destruct (Hgen _ _ _ _ _ Hall ns r Hin) as [?%elem_of_nil|?]; done. }
  destruct Hsame as (_&_&_&_&_&_&_&Hcoll&_).
  destruct (Orphans_removeAll_loop_culls (config_chunks s)
              (λ _ n, n ∈ namespaces) s1 fuel result [] 0 s1)
    as (gone & Hg & Hs).
  { intros sh n. by rewrite Hcoll. }
  { intros ns r Hin. destruct (Hb ns r Hin) as [Hns Hbk]. rewrite Hns.
    split; [|done]. intros sh _. by eapply Hkeys. }
  { apply culled_refl. }
  rewrite Hcoll in *. unfold run_state, Orphans_removeAll. split.
  - intros sh n. rewrite (Hg sh n). apply sublist_filter.
  - intros sh n d Hd Hgone. rewrite (Hg sh n) in Hgone.
    destruct (decide (doc_id d ∈ gone sh n)) as [Hin|Hout].
    + by apply Hs.
    + destruct Hgone. by apply elem_of_delete_ids.
Qed.

Lemma removeAll_of_findAll_deletes_only_documents_out_of_place_witness :
  Orphans_findAll two_namespaces residue_on_two
  = (Ret (found_all residue_on_two), scanned_all residue_on_two)
  ∧ (∀ sh n, NoDup (doc_id <$> collection residue_on_two sh n))
  ∧ (∀ sh n,
       collection (run_state (Orphans_removeAll 2 (Some (found_all residue_on_two)))
                     (scanned_all residue_on_two)) sh n
       `sublist_of` collection residue_on_two sh n)
  ∧ ∀ sh n d,
      d ∈ collection residue_on_two sh n →
      d ∉ collection (run_state (Orphans_removeAll 2
                                   (Some (found_all residue_on_two)))
                        (scanned_all residue_on_two)) sh n →
      n ∈ two_namespaces
      ∧ ∃ c, c ∈ config_chunks residue_on_two ∧ chunk_ns c = n
             ∧ chunk_shard c ≠ sh
             ∧ in_range (chunk_min c) (chunk_max c) d = true.
Proof.
  assert (Hnd : ∀ sh n, NoDup (doc_id <$> collection residue_on_two sh n)).
  { intros sh n. cbn. repeat case_decide; try apply NoDup_nil_2;
      apply (bool_decide_unpack _); by vm_compute. }
  split; [by vm_compute|]. split; [exact Hnd|].
  apply (removeAll_of_findAll_deletes_only_documents_out_of_place
           two_namespaces residue_on_two (scanned_all residue_on_two)
           (found_all residue_on_two) 2);
    [by vm_compute|exact Hnd].
Defined.

(** ** The credentials of the shards *)

Lemma copy_of_props (doc : gmap string string) :
  map_fold (λ prop v newDoc, <[prop := v]> newDoc) ∅ doc = doc.
Proof.
  apply (map_fold_weak_ind (λ r m, r = m)); [done|].
  by intros i x m r _ ->.
Qed.

Lemma new_object_spec (d : gmap string string) (o : Orphanage.state) :
  (Orphanage.new_object d o).1 = length (Orphanage.documents o)
  ∧ Orphanage.documents (Orphanage.new_object d o).2
    = Orphanage.documents o ++ [d].
Proof. done. Qed.

(** One copy and one call of [admin.auth] on it. *)
Lemma copy_and_auth (host : string) (a c : nat) (d : gmap string string)
    (o o1 : Orphanage.state) :
  Orphanage.documents o !! a = Some d →
  Orphanage.copyDoc a o = (c, o1) →
  Orphanage.admin_auth host c o1
  = ((Orphanage.authAt o (length (Orphanage.auth_calls o)) host d).1,
     Orphanage.MkState
       (Orphanage.documents o
        ++ [(Orphanage.authAt o (length (Orphanage.auth_calls o)) host d).2])
       (Orphanage.globalAuthDoc o) (Orphanage.shardAuthDocs o)
       (Orphanage.authAt o) (Orphanage.auth_calls o ++ [(host, d)])).
Proof.
  intros Ha. unfold Orphanage.copyDoc, Orphanage.new_object. rewrite Ha.
  cbv beta iota delta [id from_option]. rewrite copy_of_props.
  intros [= <- <-]. unfold Orphanage.admin_auth.
  cbn [Orphanage.documents Orphanage.auth_calls Orphanage.authAt
       Orphanage.globalAuthDoc Orphanage.shardAuthDocs].
  rewrite list_lookup_middle by done. cbv beta iota delta [id from_option].
  destruct (Orphanage.authAt o (length (Orphanage.auth_calls o)) host d)
    as [answer d'].
  cbn [fst snd]. f_equal. f_equal.
  replace (length (Orphanage.documents o))
    with (length (Orphanage.documents o) + 0)%nat at 1 by lia.
  by rewrite insert_app_r.
Qed.

Lemma shardConnection_spec (host id : string) (o : Orphanage.state) :
  well_stored o →
  ∃ extra,
    Orphanage.documents (Orphanage.shardConnection host id o).2
    = Orphanage.documents o ++ extra
    ∧ Orphanage.globalAuthDoc (Orphanage.shardConnection host id o).2
      = Orphanage.globalAuthDoc o
    ∧ Orphanage.shardAuthDocs (Orphanage.shardConnection host id o).2
      = Orphanage.shardAuthDocs o
    ∧ Orphanage.authAt (Orphanage.shardConnection host id o).2
      = Orphanage.authAt o
    ∧ Orphanage.auth_calls (Orphanage.shardConnection host id o).2
      = Orphanage.auth_calls o ++ attempts o host id.
Proof.
  intros Hwf.
  assert (Hglobal : ∀ g, Orphanage.globalAuthDoc o = Some g →
    ∃ dg, Orphanage.documents o !! g = Some dg).
  { intros g Hg. apply lookup_lt_is_Some_2, Hwf. by left. }
  unfold Orphanage.shardConnection, attempts, shard_credentials,
    global_credentials.
  destruct (Orphanage.shardAuthDocs o !! id) as [a|] eqn:Hid; cbn [mbind option_bind].
  - destruct (lookup_lt_is_Some_2 (Orphanage.documents o) a) as [d Hd].
    { apply Hwf. right. by exists id. }
    rewrite Hd. destruct (Orphanage.copyDoc a o) as [c o1] eqn:Hcopy.
    rewrite (copy_and_auth host a c d o o1 Hd Hcopy).
    destruct (_ =? 1); [by eexists [_]|].
    cbn [Orphanage.globalAuthDoc].
    destruct (Orphanage.globalAuthDoc o) as [g|] eqn:Hg; cbn [mbind option_bind];
      [|by eexists [_]].
    destruct (Hglobal g eq_refl) as [dg Hdg]. rewrite Hdg.
    match goal with
    | |- context [Orphanage.copyDoc g ?o2] =>
        destruct (Orphanage.copyDoc g o2) as [c' o3] eqn:Hcopy';
        rewrite (copy_and_auth host g c' dg o2 o3)
    end; [| |done].
    + eexists [_; _]. cbn. by rewrite <- !(assoc app).
    + cbn. by apply lookup_app_l_Some.
  - destruct (Orphanage.globalAuthDoc o) as [g|] eqn:Hg; cbn [mbind option_bind].
    + destruct (Hglobal g eq_refl) as [dg Hdg]. rewrite Hdg.
      destruct (Orphanage.copyDoc g o) as [c o1] eqn:Hcopy.
      rewrite (copy_and_auth host g c dg o o1 Hdg Hcopy). by eexists [_].
    + exists []. by rewrite !app_nil_r.
Qed.

Lemma well_stored_grows (o o' : Orphanage.state) (extra : list (gmap string string)) :
  Orphanage.documents o' = Orphanage.documents o ++ extra →
  Orphanage.globalAuthDoc o' = Orphanage.globalAuthDoc o →
  Orphanage.shardAuthDocs o' = Orphanage.shardAuthDocs o →
  well_stored o →
  well_stored o'
  ∧ global_credentials o' = global_credentials o
  ∧ ∀ shard, shard_credentials o' shard = shard_credentials o shard.
Proof.
  intros Hdocs Hg Hs Hwf.
  assert (Hkeep : ∀ a, stored o a →
    Orphanage.documents o' !! a = Orphanage.documents o !! a).
  { intros a Ha. rewrite Hdocs. apply lookup_app_l. by apply Hwf. }
  split; [|split].
  - intros a Ha. unfold stored in Ha. rewrite Hg, Hs in Ha.
    rewrite Hdocs, length_app. specialize (Hwf a Ha). lia.
  - unfold global_credentials. rewrite Hg.
    destruct (Orphanage.globalAuthDoc o) as [g|] eqn:Hgo; [|done].
    apply Hkeep. by left.
  - intros shard. unfold shard_credentials. rewrite Hs.
    destruct (Orphanage.shardAuthDocs o !! shard) as [a|] eqn:Ha; [|done].
    apply Hkeep. right. by exists shard.
Qed.

(** X19.  A connection to a shard leaves the credentials as the user gave
    them, whatever the server's [auth] writes to the document it is passed:
    [Orphanage] hands out copies.  The credentials of every shard and the
    global ones are the same for the next connection. *)
Theorem shardConnection_keeps_the_credentials (host id : string)
    (o : Orphanage.state) :
  well_stored o →
  well_stored (Orphanage.shardConnection host id o).2
  ∧ global_credentials (Orphanage.shardConnection host id o).2
    = global_credentials o
  ∧ ∀ shard, shard_credentials (Orphanage.shardConnection host id o).2 shard
             = shard_credentials o shard.
Proof.
  intros Hwf.
  destruct (shardConnection_spec host id o Hwf)
    as (extra & Hdocs & Hg & Hs & _).
  by eapply well_stored_grows.
Qed.


Lemma well_stored_init
    (server : nat → string → gmap string string → Z * gmap string string) :
  well_stored (Orphanage.init server).
Proof.
  intros a [Ha|[shard Ha]]; [done|]. cbn in Ha. by rewrite lookup_empty in Ha.
Qed.

Lemma shard_auth_spec (id user pwd : string) (o : Orphanage.state) :
  well_stored o →
  well_stored (Orphanage.shard_auth id user pwd o)
  ∧ shard_credentials (Orphanage.shard_auth id user pwd o) id
    = Some (Orphanage.authDoc user pwd)
  ∧ (∀ other, other ≠ id →
       shard_credentials (Orphanage.shard_auth id user pwd o) other
       = shard_credentials o other)
  ∧ global_credentials (Orphanage.shard_auth id user pwd o)
    = global_credentials o.
Proof.
  intros Hwf. unfold Orphanage.shard_auth, Orphanage.new_object,
    shard_credentials, global_credentials.
  cbn [Orphanage.documents Orphanage.shardAuthDocs Orphanage.globalAuthDoc].
  split; [|split; [|split]].
  - intros a [Ha|[shard Ha]]; cbn in Ha; cbn [Orphanage.documents];
      rewrite length_app; cbn [length].
    + assert (a < length (Orphanage.documents o))%nat; [|lia].
      apply Hwf. by left.
    + destruct (decide (shard = id)) as [->|Hne].
      * rewrite lookup_insert_eq in Ha. injection Ha as <-. lia.
      * rewrite lookup_insert_ne in Ha by done.
        assert (a < length (Orphanage.documents o))%nat; [|lia].
        apply Hwf. right. by exists shard.
  - rewrite lookup_insert_eq. cbn. by apply list_lookup_middle.
  - intros other Hne. rewrite lookup_insert_ne by done.
    destruct (Orphanage.shardAuthDocs o !! other) as [a|] eqn:Ha; [|done].
    cbn. apply lookup_app_l, Hwf. right. by exists other.
  - destruct (Orphanage.globalAuthDoc o) as [g|] eqn:Hg; [|done].
    cbn. apply lookup_app_l, Hwf. by left.
Qed.

Lemma global_auth_spec (user pwd : string) (o : Orphanage.state) :
  well_stored o →
  well_stored (Orphanage.global_auth user pwd o)
  ∧ global_credentials (Orphanage.global_auth user pwd o)
    = Some (Orphanage.authDoc user pwd)
  ∧ ∀ shard, shard_credentials (Orphanage.global_auth user pwd o) shard
             = shard_credentials o shard.
Proof.
  intros Hwf. unfold Orphanage.global_auth, Orphanage.new_object,
    shard_credentials, global_credentials.
  cbn [Orphanage.documents Orphanage.shardAuthDocs Orphanage.globalAuthDoc].
  split; [|split].
  - intros a [Ha|[shard Ha]]; cbn in Ha; cbn [Orphanage.documents];
      rewrite length_app; cbn [length].
    + injection Ha as <-. lia.
    + assert (a < length (Orphanage.documents o))%nat; [|lia].
      apply Hwf. right. by exists shard.
  - cbn. by apply list_lookup_middle.
  - intros shard.
    destruct (Orphanage.shardAuthDocs o !! shard) as [a|] eqn:Ha; [|done].
    cbn. apply lookup_app_l, Hwf. right. by exists shard.
Qed.

Lemma well_stored_with_credentials : well_stored with_credentials.
Proof.
  apply global_auth_spec, shard_auth_spec, well_stored_init.
Qed.

Lemma shardConnection_keeps_the_credentials_witness :
  well_stored with_credentials
  ∧ well_stored (Orphanage.shardConnection "hostA" "A" with_credentials).2
  ∧ global_credentials (Orphanage.shardConnection "hostA" "A" with_credentials).2
    = global_credentials with_credentials
  ∧ ∀ shard,
      shard_credentials (Orphanage.shardConnection "hostA" "A" with_credentials).2
        shard
      = shard_credentials with_credentials shard.
Proof.
  split; [exact well_stored_with_credentials|].
  apply (shardConnection_keeps_the_credentials "hostA" "A" with_credentials).
  exact well_stored_with_credentials.
Defined.


(** X21.  Credentials given are the credentials kept:
    [Orphanage.shard.auth] sets those of the shard it names to the user and
    password it is given, replacing earlier ones, and leaves the credentials
    of the other shards and the global ones as they were;
    [Orphanage.global.auth] sets the global ones and leaves those of every
    shard. *)
Theorem auth_sets_the_credentials (id user pwd : string)
    (o : Orphanage.state) :
  well_stored o →
  (well_stored (Orphanage.shard_auth id user pwd o)
   ∧ shard_credentials (Orphanage.shard_auth id user pwd o) id
     = Some (Orphanage.authDoc user pwd)
   ∧ (∀ other, other ≠ id →
        shard_credentials (Orphanage.shard_auth id user pwd o) other
        = shard_credentials o other)
   ∧ global_credentials (Orphanage.shard_auth id user pwd o)
     = global_credentials o)
  ∧ (well_stored (Orphanage.global_auth user pwd o)
     ∧ global_credentials (Orphanage.global_auth user pwd o)
       = Some (Orphanage.authDoc user pwd)
     ∧ ∀ shard, shard_credentials (Orphanage.global_auth user pwd o) shard
                = shard_credentials o shard).
Proof.
  intros Hwf. split; [by apply shard_auth_spec|by apply global_auth_spec].
Qed.

Lemma auth_sets_the_credentials_witness :
  well_stored with_credentials
  ∧ (well_stored (Orphanage.shard_auth "A" "bob" "pw2" with_credentials)
     ∧ shard_credentials (Orphanage.shard_auth "A" "bob" "pw2" with_credentials)
         "A"
       = Some (Orphanage.authDoc "bob" "pw2")
     ∧ (∀ other, other ≠ "A"%string →
          shard_credentials
            (Orphanage.shard_auth "A" "bob" "pw2" with_credentials) other
          = shard_credentials with_credentials other)
     ∧ global_credentials (Orphanage.shard_auth "A" "bob" "pw2" with_credentials)
       = global_credentials with_credentials)
  ∧ (well_stored (Orphanage.global_auth "bob" "pw2" with_credentials)
     ∧ global_credentials (Orphanage.global_auth "bob" "pw2" with_credentials)
       = Some (Orphanage.authDoc "bob" "pw2")
     ∧ ∀ shard,
         shard_credentials (Orphanage.global_auth "bob" "pw2" with_credentials)
           shard
         = shard_credentials with_credentials shard).
Proof.
  split; [exact well_stored_with_credentials|].
  apply (auth_sets_the_credentials "A" "bob" "pw2" with_credentials).
  exact well_stored_with_credentials.
Defined.

(** ** What a removal reports *)

Lemma NoDup_ids_filter (P : doc → Prop) `{!∀ d, Decision (P d)}
    (docs : list doc) :
  NoDup (doc_id <$> docs) → NoDup (doc_id <$> filter P docs).
Proof.
  intros Hnd. apply (sublist_NoDup _ (doc_id <$> docs));
    [exact Hnd|apply fmap_sublist, sublist_filter].
Qed.

Lemma length_delete_ids (done : list Z) (docs : list doc) :
  NoDup (doc_id <$> docs) → NoDup done →
  (∀ x, x ∈ done → x ∈ doc_id <$> docs) →
  (length (delete_ids done docs) + length done = length docs)%nat.
Proof.
  intros Hnd Hdone Hin. unfold delete_ids.
  rewrite <- (Permutation_length
                (filter_app_complement (λ d, mem_Z (doc_id d) done = false) docs)).
  rewrite length_app. f_equal.
  rewrite <- (length_fmap doc_id (filter _ docs)).
  apply Permutation_length. symmetry. apply NoDup_Permutation.
  - by apply NoDup_ids_filter.
  - done.
  - intros x. rewrite list_elem_of_fmap. split.
    + intros (d & -> & [Hd _]%list_elem_of_filter).
      apply mem_Z_true. by destruct (mem_Z (doc_id d) done).
    + intros Hx. pose proof (Hin x Hx) as Hx'.
      apply list_elem_of_fmap in Hx' as (d & -> & Hd). exists d. split; [done|]. apply list_elem_of_filter. split; [|done].
      apply mem_Z_true in Hx. by rewrite Hx.
Qed.

Lemma total_change (f g : string → Z) (l : list string) (x : string) :
  NoDup l → x ∈ l → (∀ y, y ≠ x → g y = f y) →
  total (g <$> l) = total (f <$> l) + (g x - f x).
Proof.
  intros Hnd Hx Hother. induction l as [|a l IH]; [by apply elem_of_nil in Hx|].
  apply NoDup_cons in Hnd as [Ha Hnd]. rewrite !fmap_cons, !total_cons.
  apply elem_of_cons in Hx as [<-|Hx].
  - assert (total (g <$> l) = total (f <$> l)) as ->; [|lia].
    f_equal. apply list_fmap_ext. intros i y Hy. apply Hother. intros ->.
    apply Ha. by eapply list_elem_of_lookup_2.
  - rewrite (IH Hnd Hx), Hother; [lia|]. by intros ->.
Qed.

Lemma remove_found_Ret (r r' : ScanResult) (l : nat) (c : chunk)
    (s s' : Shell) (n : Z) :
  remove_found r l c s = (Ret (n, r'), s') →
  ∃ shard, orphanedOn c = Some shard ∧ shard ∈ connections r.
Proof.
  unfold remove_found, result.connection_of. run.
  destruct (orphanedOn c) as [shard|]; run; [|done].
  case_bool_decide; run; [|done]. intros _. by exists shard.
Qed.

(** One [remove] that returns: what it answers is what has gone. *)
Lemma remove_accounts (r r' : ScanResult) (s s' : Shell) (n : Z) :
  NoDup (connections r) →
  (∀ sh, NoDup (doc_id <$> collection s sh (namespace r))) →
  result.remove r s = (Ret (n, r'), s') →
  n = held (collection s) (connections r) (namespace r)
      - held (collection s') (connections r) (namespace r)
  ∧ ∀ sh, NoDup (doc_id <$> collection s' sh (namespace r)).
Proof.
  intros Hconns Hnd Hrem.
  destruct (remove_cases r s) as [[m Hm]|(l & c & _ & _ & _ & Hfound)].
  { rewrite Hm in Hrem. injection Hrem as <- _ <-. cbn. split; [lia|done]. }
  rewrite Hfound in Hrem.
  destruct (remove_found_Ret _ _ _ _ _ _ _ Hrem) as (shard & Hon & Hsh).
  destruct (remove_found_spec r l c s) as (evs & _ & Hout).
  rewrite Hrem in Hout. cbn [fst snd] in Hout.
  destruct Hout as (_ & shard' & done & rest & Hon' & Hids & -> & Hdel & _).
  assert (shard' = shard) as -> by congruence.
  assert (Hlen : (length (collection s' shard (namespace r)) + length done
                  = length (collection s shard (namespace r)))%nat).
  { rewrite (Hdel shard (namespace r)), decide_True by done.
    assert (Hall : NoDup (done ++ rest)).
    { rewrite <- Hids. by apply NoDup_ids_filter. }
    apply length_delete_ids; [done|by apply NoDup_app in Hall as (? & _)|].
    intros x Hx.
    assert (Hx' : x ∈ ids_in_chunk s shard (namespace r) c).
    { rewrite Hids. apply elem_of_app. by left. }
    unfold ids_in_chunk in Hx'.
    apply list_elem_of_fmap in Hx' as (d & -> & [_ Hd]%list_elem_of_filter).
    by apply list_elem_of_fmap_2. }
  split.
  - unfold held.
    rewrite (total_change
               (λ sh, Z.of_nat (length (collection s sh (namespace r))))
               (λ sh, Z.of_nat (length (collection s' sh (namespace r))))
               (connections r) shard); [lia|done|done|].
    intros y Hy. cbn. rewrite (Hdel y (namespace r)), decide_False; [done|].
    by intros [? _].
  - intros sh. rewrite (Hdel sh (namespace r)). case_decide; [|done].
    by apply NoDup_ids_filter.
Qed.

Lemma removeAll_loop_accounts (secs : option Z) (fuel : nat) :
  ∀ (r r' : ScanResult) (num n : Z) (s s' : Shell),
    NoDup (connections r) →
    (∀ sh, NoDup (doc_id <$> collection s sh (namespace r))) →
    result.removeAll_loop fuel secs r num s = (Ret (n, r'), s') →
    n = num + (held (collection s) (connections r) (namespace r)
               - held (collection s') (connections r) (namespace r)).
Proof.
  induction fuel as [|fuel IH]; intros r r' num n s s' Hconns Hnd Hloop;
    cbn [result.removeAll_loop] in Hloop; destruct (result.hasNext r);
    try done; try (injection Hloop as <- _ <-; lia).
  unfold result.next in Hloop. rewrite bind_unfold in Hloop.
  unfold mret, M_ret in Hloop. cbv beta iota in Hloop.
  rewrite bind_unfold in Hloop.
  destruct (result.remove (with_iter (_iter r + 1) r) s)
    as [[[n1 r1]|e|] s1] eqn:Hrem; [|done|done].
  pose proof (remove_returns_receiver _ _ _ _ _ Hrem) as ->.
  destruct (remove_accounts (with_iter (_iter r + 1) r) _ _ _ _ Hconns Hnd Hrem)
    as [Hn1 Hnd1].
  cbn [connections namespace with_iter] in Hn1, Hnd1.
  rewrite bind_unfold in Hloop.
  assert (Hpause : ∃ s2 : Shell,
    result.pause secs s1 = (Ret (), s2) ∧ collection s2 = collection s1).
  { unfold result.pause. destruct secs as [x|]; [destruct (x =? 0)|];
      by eexists. }
  destruct Hpause as (s2 & Hp & Hc2). rewrite Hp in Hloop.
  apply IH in Hloop; [|done|by rewrite Hc2].
  cbn [connections namespace with_iter] in Hloop. rewrite Hc2 in Hloop. lia.
Qed.

(** X22.  What [removeAll] answers is what it has deleted: when it returns,
    with or without an error reported on the way, the number it answers is
    the number of documents of the namespace that have gone from the shards
    of [connections].  The result names each connection once, and the
    documents of a collection have distinct identifiers. *)
Theorem removeAll_returns_what_it_deleted (fuel : nat) (secs : option Z)
    (r r' : ScanResult) (s s' : Shell) (n : Z) :
  NoDup (connections r) →
  (∀ sh, NoDup (doc_id <$> collection s sh (namespace r))) →
  result.removeAll fuel secs r s = (Ret (n, r'), s') →
  n = held (collection s) (connections r) (namespace r)
      - held (collection s') (connections r) (namespace r).
Proof.
  intros Hconns Hnd Hrem. unfold result.removeAll in Hrem.
  apply removeAll_loop_accounts in Hrem; [|done|done].
  cbn [result.rewind connections namespace with_iter] in Hrem. lia.
Qed.

Lemma removeAll_returns_what_it_deleted_witness :
  NoDup (connections (found second_delete_fails))
  ∧ (∀ sh, NoDup (doc_id <$> collection (scanned second_delete_fails) sh
                                (namespace (found second_delete_fails))))
  ∧ result.removeAll 1 None (found second_delete_fails)
      (scanned second_delete_fails)
    = (Ret (100, with_iter 0 (found second_delete_fails)),
       run_state (result.removeAll 1 None (found second_delete_fails))
         (scanned second_delete_fails))
  ∧ 100 = held (collection (scanned second_delete_fails))
            (connections (found second_delete_fails))
            (namespace (found second_delete_fails))
          - held (collection
                    (run_state (result.removeAll 1 None
                                  (found second_delete_fails))
                       (scanned second_delete_fails)))
              (connections (found second_delete_fails))
              (namespace (found second_delete_fails)).
Proof.
  assert (Hconns : NoDup (connections (found second_delete_fails))).
  { apply (bool_decide_unpack _). by vm_compute. }
  assert (Hnd : ∀ sh,
    NoDup (doc_id <$> collection (scanned second_delete_fails) sh
                        (namespace (found second_delete_fails)))).
  { intros sh. change (namespace (found second_delete_fails)) with orders.
    change (collection (scanned second_delete_fails))
      with (collection second_delete_fails).
    cbn. repeat case_decide; try apply NoDup_nil_2;
      apply (bool_decide_unpack _); by vm_compute. }
  split; [exact Hconns|]. split; [exact Hnd|]. split; [by vm_compute|].
  apply (removeAll_returns_what_it_deleted 1 None (found second_delete_fails)
           (with_iter 0 (found second_delete_fails))
           (scanned second_delete_fails)
           (run_state (result.removeAll 1 None (found second_delete_fails))
              (scanned second_delete_fails)) 100);
    [exact Hconns|exact Hnd|by vm_compute].
Defined.

(** ** Removing again *)




